(** * Degree-normalised score propagation on a random simple graph

    A shallow embedding of [degree_score_algorithm.py] and the properties
    of its functions and of the script that calls them:

    - [generate_random_graph]      (GraphGenerator.generate)
    - [compute_next_scores]        (ScoreEngine.update)
    - [display_graph_state]        (the table of nodes, scores, neighbours)
    - [handle_user_edge_addition]  (the interactive addEdge flow)

    The Python program works on mutable objects (a dict of sets, lists of
    floats), reads the console and draws from the process-wide random
    source.  The embedding threads an explicit [world] through every
    operation: a store of graph objects, a store of score lists, the state
    of the random source and the two console streams.  Exceptions are
    values of a result type. *)

From Stdlib Require Import ZArith List Lia QArith Qcanon SpecFloat.
From stdpp Require Import base option numbers list sorting gmap sets.

Local Open Scope Z_scope.
Set Warnings "-clear-no-such-hyp".

(** ** Exceptions *)

Inductive exn : Type :=
| ValueError
| KeyError
| IndexError
| ZeroDivisionError
| EOFError
| InvalidReference. (* not a Python exception: a reference the store lacks *)

Inductive result (A : Type) : Type :=
| Ok (a : A)
| Raise (e : exn).
Arguments Ok {A} a.
Arguments Raise {A} e.

Definition is_Ok {A} (r : result A) : Prop := ∃ a, r = Ok a.

(** ** Score arithmetic

    The program computes with Python floats: [0.0], [1.0], [+] and the
    true division of a float by an [int] (a degree).  The operations are
    an interface so that the same embedding runs on IEEE binary64 (what the
    interpreter does) and on exact rationals (what the arithmetic
    approximates). *)

Class ScoreArith (R : Type) : Type := {
  szero : R;                 (* 0.0 *)
  sone : R;                  (* 1.0 *)
  sadd : R → R → R;          (* x + y *)
  sdiv : R → Z → R           (* x / d  for an int d <> 0 *)
}.

(** IEEE 754 binary64, round to nearest even, as specified by [SpecFloat]. *)
Module Binary64.
Definition prec : Z := 53.
Definition emax : Z := 1024.
Definition float : Type := spec_float.
(* float(z) for a Python int z *)
Definition of_Z (z : Z) : float := binary_normalize prec emax z 0 false.
Definition add : float → float → float := SFadd prec emax.
Definition div : float → float → float := SFdiv prec emax.
Definition eqb : float → float → bool := SFeqb.
(* the float m * 2^e *)
Definition of_bits (m e : Z) : float := binary_normalize prec emax m e false.
End Binary64.

#[global] Instance float_arith : ScoreArith Binary64.float := {
  szero := Binary64.of_Z 0;
  sone := Binary64.of_Z 1;
  sadd := Binary64.add;
  sdiv x d := Binary64.div x (Binary64.of_Z d)
}.

#[global] Instance exact_arith : ScoreArith Qc := {
  szero := Q2Qc 0;
  sone := Q2Qc 1;
  sadd := Qcplus;
  sdiv x d := Qcdiv x (Q2Qc (inject_Z d))
}.

(** ** Python containers *)

(** A [dict] with integer keys.  A Python dict iterates in insertion order,
    so it is a list of items with distinct keys. *)
Abbreviation dict V := (list (Z * V)).

Definition dict_keys {V} (d : dict V) : list Z := d.*1.

Fixpoint dict_lookup {V} (k : Z) (d : dict V) : option V :=
  match d with
  | [] => None
  | (k', v) :: d' => if decide (k = k') then Some v else dict_lookup k d'
  end.

(* d[k] = f(d[k]), keeping the position of the key *)
Fixpoint dict_alter {V} (f : V → V) (k : Z) (d : dict V) : dict V :=
  match d with
  | [] => []
  | (k', v) :: d' =>
      if decide (k = k') then (k', f v) :: d' else (k', v) :: dict_alter f k d'
  end.

(** The graph: node -> set of neighbours. *)
Abbreviation graph := (dict (gset Z)).

(** Python list indexing: a negative index counts from the end. *)
Definition py_index (len : nat) (i : Z) : option nat :=
  let k := if i <? 0 then i + Z.of_nat len else i in
  if (0 <=? k) && (k <? Z.of_nat len) then Some (Z.to_nat k) else None.

(* l[:m] *)
Definition py_prefix {A} (l : list A) (m : Z) : list A :=
  if m <? 0 then take (length l - Z.to_nat (- m))%nat l else take (Z.to_nat m) l.

(* range(n) and range(a, b) *)
Definition range (n : Z) : list Z := seqZ 0 n.
Definition range2 (a b : Z) : list Z := seqZ a (b - a).

(* {i: set() for i in range(n)} *)
Definition empty_graph (n : Z) : graph := (λ i, (i, ∅)) <$> range n.

(** ** Computations

    A computation runs on a state and yields a result or an exception
    together with the state it leaves.  An exception keeps the state
    reached so far, as in Python. *)

Definition M (W A : Type) : Type := W → result A * W.

Definition ret {W A} (a : A) : M W A := λ w, (Ok a, w).
Definition raise {W A} (e : exn) : M W A := λ w, (Raise e, w).
Definition bind {W A B} (c : M W A) (k : A → M W B) : M W B := λ w,
  match c w with
  | (Ok a, w') => k a w'
  | (Raise e, w') => (Raise e, w')
  end.
Definition lift {W A} (e : exn) (o : option A) : M W A :=
  match o with Some a => ret a | None => raise e end.

Notation "'let*' x := c 'in' k" := (bind c (λ x, k))
  (at level 10, x name, c at level 100, k at level 200).
Notation "c ;;; k" := (bind c (λ _, k))
  (at level 100, k at level 200, right associativity).

(* for a in l: body(a) *)
Fixpoint for_each {W A} (l : list A) (body : A → M W unit) : M W unit :=
  match l with
  | [] => ret ()
  | a :: l' => body a ;;; for_each l' body
  end.

(* x / d  for a float x and an int d *)
Definition truediv {W R} `{ScoreArith R} (x : R) (d : Z) : M W R :=
  if decide (d = 0) then raise ZeroDivisionError else ret (sdiv x d).

(* v[i] on the value of a list *)
Definition list_getitem {A} (v : list A) (i : Z) : option A :=
  k ← py_index (length v) i; v !! k.

(** ** The world *)

(** A line typed at the prompt, after [map(int, user_input.split())] and the
    unpacking into two names: either two integers, or a [ValueError]. *)
Inductive line : Type :=
| Pair (i j : Z)
| Unparsable.

(** The [title] argument of [display_graph_state]. *)
Inductive title : Type :=
| InitialState
| UpdatedState
| AfterAddingEdge (i j : Z).

(** References into the store of graphs and the store of score lists. *)
Abbreviation gref := nat.
Abbreviation vref := nat.

Section Program.

Context {R : Type} `{ScoreArith R}.

(** The state of the process-wide random source, and [random.shuffle]
    as a function of it. *)
Context {Rng : Type}.
Variable shuffle : Rng → list (Z * Z) → list (Z * Z) * Rng.

(** The order in which [for j in graph[i]] visits a set.  Python does not
    specify it: it may be any order, and differ from set to set. *)
Variable iter : Z → gset Z → list Z.

(** What is printed, with the values that are formatted into it. *)
Inductive event : Type :=
| PrintCannotAdd
| PrintPrompt (hi : Z)
| PrintRangeError (hi : Z)
| PrintDistinctError
| PrintExistsError (i j : Z)
| PrintInvalidInput
| PrintAdded (i j : Z)
| PrintTitle (t : title)
| PrintEmpty
| PrintNode (node : Z) (score : R) (neighbors : list Z)
| PrintRule.

Record world : Type := World {
  graphs : list graph;
  vectors : list (list R);
  rng : Rng;
  stdin : list line;
  stdout : list event
}.

Definition with_graphs (gs : list graph) (w : world) : world :=
  World gs (vectors w) (rng w) (stdin w) (stdout w).
Definition with_vectors (vs : list (list R)) (w : world) : world :=
  World (graphs w) vs (rng w) (stdin w) (stdout w).
Definition with_rng (r : Rng) (w : world) : world :=
  World (graphs w) (vectors w) r (stdin w) (stdout w).
Definition with_stdin (i : list line) (w : world) : world :=
  World (graphs w) (vectors w) (rng w) i (stdout w).
Definition with_stdout (o : list event) (w : world) : world :=
  World (graphs w) (vectors w) (rng w) (stdin w) o.

(* the object behind a reference is replaced *)
Definition store_graph (g : gref) (d : graph) (w : world) : world :=
  with_graphs (<[g := d]> (graphs w)) w.
Definition store_vector (r : vref) (v : list R) (w : world) : world :=
  with_vectors (<[r := v]> (vectors w)) w.

(* the store after the allocation of the two lists x and y *)
Definition alloc_xy (w : world) (x y : list R) : world :=
  with_vectors (vectors w ++ [x; y]) w.

(* the value of x after lines 38-41: all ones when no prior is given *)
Definition prior_value (w : world) (n : nat) (cs : option vref) : option (list R) :=
  match cs with
  | None => Some (replicate n sone)
  | Some c => vectors w !! c
  end.

(** Two worlds with the same objects: the same graphs and score lists. *)
Definition same_store (w w' : world) : Prop :=
  graphs w' = graphs w ∧ vectors w' = vectors w.

(** *** Graph objects *)

Definition new_graph (d : graph) : M world gref := λ w,
  (Ok (length (graphs w)), with_graphs (graphs w ++ [d]) w).

Definition read_graph (g : gref) : M world graph := λ w,
  match graphs w !! g with
  | Some d => (Ok d, w)
  | None => (Raise InvalidReference, w)
  end.

(* graph[k] *)
Definition graph_getitem (g : gref) (k : Z) : M world (gset Z) :=
  let* d := read_graph g in lift KeyError (dict_lookup k d).

(* graph[k].add(v) *)
Definition graph_add (g : gref) (k v : Z) : M world unit :=
  let* d := read_graph g in
  let* _ := lift KeyError (dict_lookup k d) in
  λ w, (Ok (), store_graph g (dict_alter (λ s, {[v]} ∪ s) k d) w).

(** *** Score lists *)

Definition new_vector (v : list R) : M world vref := λ w,
  (Ok (length (vectors w)), with_vectors (vectors w ++ [v]) w).

Definition read_vector (r : vref) : M world (list R) := λ w,
  match vectors w !! r with
  | Some v => (Ok v, w)
  | None => (Raise InvalidReference, w)
  end.

(* v[i] *)
Definition vector_getitem (r : vref) (i : Z) : M world R :=
  let* v := read_vector r in
  lift IndexError (list_getitem v i).

(* v[i] = a *)
Definition vector_setitem (r : vref) (i : Z) (a : R) : M world unit :=
  let* v := read_vector r in
  let* k := lift IndexError (py_index (length v) i) in
  λ w, (Ok (), store_vector r (<[k := a]> v) w).

(** *** Console and random source *)

Definition print (e : event) : M world unit := λ w,
  (Ok (), with_stdout (stdout w ++ [e]) w).

(* input(): the next line, [EOFError] at the end of the input *)
Definition input : M world line := λ w,
  match stdin w with
  | l :: rest => (Ok l, with_stdin rest w)
  | [] => (Raise EOFError, w)
  end.

Definition random_shuffle (l : list (Z * Z)) : M world (list (Z * Z)) := λ w,
  let '(l', r') := shuffle (rng w) l in (Ok l', with_rng r' w).

(** ** [generate_random_graph] *)

(* the list built by the two nested loops over range(n) and range(i + 1, n) *)
Definition possible_edges (n : Z) : list (Z * Z) :=
  if 1 <? n then
    i ← range n; j ← range2 (i + 1) n; [(i, j)]
  else [].

Definition generate_random_graph (n m : Z) : M world gref :=
  if (n <? 0) || (m <? 0) then raise ValueError
  else
    let max_edges := (n * (n - 1)) `div` 2 in
    if max_edges <? m then raise ValueError
    else
      let* graph := new_graph (empty_graph n) in
      let* shuffled := random_shuffle (possible_edges n) in
      for_each (py_prefix shuffled m) (λ '(u, v),
        graph_add graph u v ;;;
        graph_add graph v u) ;;;
      ret graph.

(** ** [compute_next_scores] *)

Definition compute_next_scores (graph : gref) (current_scores : option vref)
  : M world vref :=
  let* g := read_graph graph in
  let n := length g in
  let* x := match current_scores with
            | None => new_vector (replicate n sone)
            | Some cs => let* v := read_vector cs in new_vector v
            end in
  let* y := new_vector (replicate n szero) in
  let degrees : dict Z := (λ '(node, neighbors), (node, Z.of_nat (size neighbors))) <$> g in
  for_each (dict_keys g) (λ i,
    let* neighbors := graph_getitem graph i in
    for_each (iter i neighbors) (λ j,
      let* d := lift KeyError (dict_lookup j degrees) in
      if 0 <? d then
        let* yi := vector_getitem y i in
        let* xj := vector_getitem x j in
        let* d' := lift KeyError (dict_lookup j degrees) in
        let* q := truediv xj d' in
        vector_setitem y i (sadd yi q)
      else ret ())) ;;;
  ret y.

(** ** [display_graph_state] *)

Definition display_graph_state (graph : gref) (scores : vref) (t : title)
  : M world unit :=
  print (PrintTitle t) ;;;
  let* g := read_graph graph in
  if decide (g = []) then print PrintEmpty
  else
    for_each (merge_sort Z.le (dict_keys g)) (λ node,
      let* score := vector_getitem scores node in
      let* s := graph_getitem graph node in
      let neighbors := merge_sort Z.le (elements s) in
      print (PrintNode node score neighbors)) ;;;
    print PrintRule.

(** ** [handle_user_edge_addition] *)

(** The outcome of the [if]/[elif] chain on a parsed pair. *)
Inductive verdict : Type :=
| OutOfRange        (* "Error: Vertices must be within the range ..." *)
| DuplicateVertex   (* "Error: Vertices must be distinct." *)
| EdgeExists        (* "Error: Edge (i, j) already exists." *)
| Accepted.         (* break *)

Definition check_edge (graph : gref) (n i j : Z) : M world verdict :=
  if negb ((0 <=? i) && (i <? n) && ((0 <=? j) && (j <? n))) then ret OutOfRange
  else if i =? j then ret DuplicateVertex
  else
    let* s := graph_getitem graph i in
    if decide (j ∈ s) then ret EdgeExists else ret Accepted.

(** The [while True] loop.  Every round reads one line, so the loop is
    written by recursion on [pending], the lines not read yet. *)
Fixpoint read_edge (graph : gref) (n : Z) (pending : list line)
  : M world (Z * Z) :=
  let again : M world (Z * Z) :=
    match pending with
    | [] => raise EOFError
    | _ :: rest => read_edge graph n rest
    end in
  print (PrintPrompt (n - 1)) ;;;
  let* l := input in
  match l with
  | Unparsable => print PrintInvalidInput ;;; again
  | Pair i j =>
      let* v := check_edge graph n i j in
      match v with
      | OutOfRange => print (PrintRangeError (n - 1)) ;;; again
      | DuplicateVertex => print PrintDistinctError ;;; again
      | EdgeExists => print (PrintExistsError i j) ;;; again
      | Accepted => ret (i, j)
      end
  end.

Definition handle_user_edge_addition (graph : gref) (current_scores : option vref)
  : M world (gref * option vref) :=
  let* g := read_graph graph in
  let n := Z.of_nat (length g) in
  if n <? 2 then
    print PrintCannotAdd ;;;
    ret (graph, current_scores)
  else
    let* edge := (λ w, read_edge graph n (stdin w) w) in
    let '(i, j) := edge in
    graph_add graph i j ;;;
    graph_add graph j i ;;;
    print (PrintAdded i j) ;;;
    let* new_scores := compute_next_scores graph current_scores in
    display_graph_state graph new_scores (AfterAddingEdge i j) ;;;
    ret (graph, Some new_scores).

End Program.

Arguments event R : clear implicits.
Arguments world R Rng : clear implicits.

(** ** The score loop on the value of [y]

    [compute_next_scores] changes one object only, the list [y] it has
    allocated.  The loop is written once more as a computation whose state
    is the value of [y]; [compute_next_scores_run] below relates the two. *)

Section ScoreLoop.

Context {R : Type} `{ScoreArith R}.
Variable iter : Z → gset Z → list Z.

Definition degree_table (g : graph) : dict Z :=
  (λ '(node, neighbors), (node, Z.of_nat (size neighbors))) <$> g.

(* one round of the inner loop *)
Definition accumulate (degrees : dict Z) (x : list R) (i j : Z)
  : M (list R) unit :=
  let* d := lift KeyError (dict_lookup j degrees) in
  if 0 <? d then
    let* yi := (λ y, lift IndexError (list_getitem y i) y) in
    let* xj := lift IndexError (list_getitem x j) in
    let* d' := lift KeyError (dict_lookup j degrees) in
    let* q := truediv xj d' in
    let* k := (λ y, lift IndexError (py_index (length y) i) y) in
    λ y, (Ok (), <[k := sadd yi q]> y)
  else ret ().

Definition score_loop (g : graph) (x : list R) : M (list R) unit :=
  for_each (dict_keys g) (λ i,
    let* neighbors := lift KeyError (dict_lookup i g) in
    for_each (iter i neighbors) (accumulate (degree_table g) x i)).

(** The value [compute_next_scores] returns for the graph [g] and the
    prior [x]. *)
Definition next_scores (g : graph) (x : list R) : result (list R) * list R :=
  match score_loop g x (replicate (length g) szero) with
  | (Ok _, y) => (Ok y, y)
  | (Raise e, y) => (Raise e, y)
  end.

End ScoreLoop.

(** ** Graphs: neighbours, degrees, invariants *)

Definition neighbors (g : graph) (i : Z) : gset Z :=
  default ∅ (dict_lookup i g).

Definition degree (g : graph) (j : Z) : Z := Z.of_nat (size (neighbors g j)).

(** The vertex set is exactly {0, ..., n-1}: the keys are these ids, each
    once, in some order. *)
Definition vertex_set (g : graph) (n : Z) : Prop := dict_keys g ≡ₚ range n.

(** j is a neighbour of i only if i is a neighbour of j.  As [neighbors] is
    empty off the keys, a symmetric graph has all its neighbours among its
    keys. *)
Definition symmetric (g : graph) : Prop :=
  ∀ i j, j ∈ neighbors g i → i ∈ neighbors g j.

Definition loop_free (g : graph) : Prop := ∀ i, i ∉ neighbors g i.

(** Every neighbour is a vertex. *)
Definition closed (g : graph) : Prop :=
  ∀ i j, j ∈ neighbors g i → j ∈ dict_keys g.

Definition isolated (g : graph) : Prop := ∀ i, neighbors g i = ∅.

(** The undirected edges, each as the pair (smaller id, larger id). *)
Definition edge_set (g : graph) : gset (Z * Z) :=
  list_to_set (it ← g; j ← elements it.2; if decide (it.1 < j) then [(it.1, j)] else []).

Definition edge_count (g : graph) : nat := size (edge_set g).

(** The two [add] calls that insert the edge {u,v}, on the value of the
    dict, and their repetition over a list of edges. *)
Definition link (u v : Z) (g : graph) : graph :=
  dict_alter (λ s, {[u]} ∪ s) v (dict_alter (λ s, {[v]} ∪ s) u g).

Definition add_edges (l : list (Z * Z)) (g : graph) : graph :=
  foldl (λ g' e, link e.1 e.2 g') g l.

(** What the [if]/[elif] chain of the prompt answers for the pair (i, j)
    on a graph with vertices 0..n-1. *)
Definition verdict_of (g : graph) (n i j : Z) : verdict :=
  if decide (0 ≤ i < n ∧ 0 ≤ j < n) then
    if decide (i = j) then DuplicateVertex
    else if decide (j ∈ neighbors g i) then EdgeExists else Accepted
  else OutOfRange.

(** The arguments [generate_random_graph] accepts. *)
Definition valid_arguments (n m : Z) : Prop :=
  0 ≤ n ∧ 0 ≤ m ∧ m ≤ (n * (n - 1)) `div` 2.

(** Checkable forms of the invariants, over the items of the dict. *)
Definition symmetric_items (g : graph) : Prop :=
  Forall (λ it, set_Forall (λ j, it.1 ∈ neighbors g j) it.2) g.
Definition loop_free_items (g : graph) : Prop :=
  Forall (λ it : Z * gset Z, it.1 ∉ it.2) g.

#[global] Instance symmetric_items_dec (g : graph) : Decision (symmetric_items g).
Proof. unfold symmetric_items. apply _. Defined.
#[global] Instance loop_free_items_dec (g : graph) : Decision (loop_free_items g).
Proof. unfold loop_free_items. apply _. Defined.

(** ** Sums of scores *)

Section Sums.

Context {R : Type} `{ScoreArith R}.

(* the accumulation  acc = 0.0; for t in l: acc += t *)
Definition vsum (l : list R) : R := foldl sadd szero l.

(* x[j] for a vertex id j of a graph on 0..n-1 *)
Definition score_at (x : list R) (j : Z) : R := default szero (list_getitem x j).

(** The contributions to vertex i, in the order [js] of its neighbours:
    prior_score[j] / degree(j) for the neighbours of positive degree. *)
Definition contributions (g : graph) (x : list R) (js : list Z) : list R :=
  (λ j, sdiv (score_at x j) (degree g j)) <$> filter (λ j, 0 < degree g j) js.

(** The same without the restriction to positive degree. *)
Definition contributions_unguarded (g : graph) (x : list R) (js : list Z) : list R :=
  (λ j, sdiv (score_at x j) (degree g j)) <$> js.

(** The prior scores of the vertices of degree at least 1. *)
Definition connected_scores (g : graph) (x : list R) : list R :=
  score_at x <$> filter (λ j, 1 ≤ degree g j) (dict_keys g).

(* what one round of the inner loop does to the accumulator y[i] *)
Definition add_share (g : graph) (x : list R) (acc : R) (j : Z) : R :=
  if 0 <? degree g j then sadd acc (sdiv (score_at x j) (degree g j)) else acc.

(* the share vertex j passes to each of its neighbours *)
Definition share (g : graph) (x : list R) (j : Z) : R := sdiv (score_at x j) (degree g j).

(* a + a + ... + a, n times *)
Fixpoint repeat_add (n : nat) (a : R) : R :=
  match n with
  | O => szero
  | S n' => sadd (repeat_add n' a) a
  end.

End Sums.

(** Arithmetic without rounding: addition is a commutative monoid and d
    shares x/d add up to x.  These are the laws of the rationals, in which
    the values of the floats are added up; the binary64 arithmetic of the
    program does not satisfy them (six shares of 1.0/6 add up to
    0.9999999999999999). *)
Class ExactArith (R : Type) `{ScoreArith R} : Prop := {
  sadd_comm : ∀ a b : R, sadd a b = sadd b a;
  sadd_assoc : ∀ a b c : R, sadd a (sadd b c) = sadd (sadd a b) c;
  sadd_zero_l : ∀ a : R, sadd szero a = a;
  sdiv_shares : ∀ (a : R) (d : Z), 0 < d → repeat_add (Z.to_nat d) (sdiv a d) = a
}.

(** ** The score update without the degree guard

    [compute_next_scores] with the test [if degrees[j] > 0] removed: the
    division is then attempted for every neighbour. *)

Section Unguarded.

Context {R : Type} `{ScoreArith R} {Rng : Type}.
Variable iter : Z → gset Z → list Z.

Definition compute_next_scores_unguarded (graph : gref) (current_scores : option vref)
  : M (world R Rng) vref :=
  let* g := read_graph graph in
  let n := length g in
  let* x := match current_scores with
            | None => new_vector (replicate n sone)
            | Some cs => let* v := read_vector cs in new_vector v
            end in
  let* y := new_vector (replicate n szero) in
  let degrees : dict Z := (λ '(node, neighbors), (node, Z.of_nat (size neighbors))) <$> g in
  for_each (dict_keys g) (λ i,
    let* neighbors := graph_getitem graph i in
    for_each (iter i neighbors) (λ j,
      let* yi := vector_getitem y i in
      let* xj := vector_getitem x j in
      let* d' := lift KeyError (dict_lookup j degrees) in
      let* q := truediv xj d' in
      vector_setitem y i (sadd yi q))) ;;;
  ret y.

End Unguarded.

(** ** The value of a float

    The rational number a finite binary64 stands for; the infinities and
    NaN stand for none. *)
Definition float_value (f : Binary64.float) : option Q :=
  match f with
  | S754_zero _ => Some 0%Q
  | S754_finite s m e =>
      Some (inject_Z (if s then Z.neg m else Z.pos m) * Qpower 2 e)%Q
  | _ => None
  end.

(* the value as a canonical rational, 0 where there is none *)
Definition exact_value (f : Binary64.float) : Qc := Q2Qc (default 0%Q (float_value f)).

(** The sum of the values of a list of floats, without rounding. *)
Definition exact_sum (l : list Binary64.float) : Qc := vsum (exact_value <$> l).

(** An operation of the program that does not round: its operands and
    its result are finite, and the value of the result is the sum, or the
    quotient, of the values of the operands. *)
Definition exact_add (a b : Binary64.float) : bool :=
  match float_value a, float_value b, float_value (sadd a b) with
  | Some p, Some q, Some r => Qeq_bool r (p + q)
  | _, _, _ => false
  end.

Definition exact_div (x : Binary64.float) (d : Z) : bool :=
  match float_value x, float_value (sdiv x d) with
  | Some p, Some r => Qeq_bool r (p / inject_Z d)
  | _, _ => false
  end.

(* acc += t for the terms t of l, one after the other, none rounding *)
Fixpoint exact_accumulation (acc : Binary64.float) (l : list Binary64.float) : bool :=
  match l with
  | [] => true
  | t :: l' => exact_add acc t && exact_accumulation (sadd acc t) l'
  end.

(** A run of [compute_next_scores] in which nothing is rounded: for every
    vertex i and every neighbour j of positive degree the division
    x[j] / degrees[j] is exact, and so is every addition into y[i]. *)
Definition unrounded (iter : Z → gset Z → list Z) (g : graph)
  (x : list Binary64.float) : bool :=
  forallb (λ i,
    let js := iter i (neighbors g i) in
    forallb (λ j, exact_div (score_at x j) (degree g j))
      (filter (λ j, 0 < degree g j) js)
    && exact_accumulation szero (contributions g x js)) (dict_keys g).

(** ** Further notions

    What the properties of the four functions beyond the update formula
    are stated with. *)

(** The sum of the degrees: what the table [degrees] of
    [compute_next_scores] adds up to. *)
Definition degree_sum (g : graph) : nat := sum_list ((λ it, size it.2) <$> g).

(** A neighbour whose share is needed (its degree is positive) but whose
    entry the prior [x] lacks. *)
Definition uncovered {R} (g : graph) (x : list R) (j : Z) : Prop :=
  0 < degree g j ∧ Z.of_nat (length x) ≤ j.

#[global] Instance uncovered_dec {R} (g : graph) (x : list R) j :
  Decision (uncovered g x j).
Proof. unfold uncovered. apply _. Defined.

(** The row [display_graph_state] prints for a node. *)
Definition display_row {R} `{ScoreArith R} (g : graph) (v : list R) (node : Z)
  : event R :=
  PrintNode node (score_at v node) (merge_sort Z.le (elements (neighbors g node))).

(* the loop of [display_graph_state] *)
Definition display_loop {R} `{ScoreArith R} {Rng} (gr : gref) (sr : vref)
  (nodes : list Z) : M (world R Rng) unit :=
  for_each nodes (λ node,
    let* score := vector_getitem sr node in
    let* s := graph_getitem gr node in
    let neighbors := merge_sort Z.le (elements s) in
    print (PrintNode node score neighbors)).

(** What the prompt prints after a line it rejects; nothing for a pair it
    accepts. *)
Definition reply {R} (g : graph) (n : Z) (l : line) : option (event R) :=
  match l with
  | Unparsable => Some PrintInvalidInput
  | Pair i j =>
      match verdict_of g n i j with
      | OutOfRange => Some (PrintRangeError (n - 1))
      | DuplicateVertex => Some PrintDistinctError
      | EdgeExists => Some (PrintExistsError i j)
      | Accepted => None
      end
  end.

Definition rejected {R} (g : graph) (n : Z) (l : line) : Prop :=
  is_Some (reply (R:=R) g n l).

(** The output for a run of rejected lines: the prompt and the message,
    line after line. *)
Definition transcript {R} (g : graph) (n : Z) (ls : list line) : list (event R) :=
  l ← ls; PrintPrompt (n - 1) :: option_list (reply g n l).

(** ** The script

    The part under [if __name__ == "__main__"].  A line of input is kept
    as it was typed, since the script reads it in two ways: [int(line)]
    succeeds on a single integer, [map(int, line.split())] unpacks into
    two values on two integers, and each raises [ValueError] on anything
    else. *)
Inductive text : Type :=
| Number (z : Z)
| Numbers (i j : Z)
| Other.

(* int(line) *)
Definition parse_int (t : text) : option Z :=
  match t with Number z => Some z | _ => None end.

(* i, j = map(int, line.split()) *)
Definition parse_pair (t : text) : line :=
  match t with Numbers i j => Pair i j | _ => Unparsable end.

Section Script.

Context {R : Type} `{ScoreArith R} {Rng : Type}.
Variable shuffle : Rng → list (Z * Z) → list (Z * Z) * Rng.
Variable iter : Z → gset Z → list Z.

(** What the script prints itself, and what the functions it calls
    print. *)
Inductive script_event : Type :=
| AskVertices
| PrintNegativeError
| PrintWholeNumberError
| AskEdges (max : Z)
| PrintEdgeCountError (max : Z)
| PrintGenerated (n m : Z)
| PrintFinished
| Inner (e : event R).

(** The state of a run of the script: the objects, the random source,
    the lines not read yet and everything printed so far. *)
Record session : Type := Session {
  s_graphs : list graph;
  s_vectors : list (list R);
  s_rng : Rng;
  typed : list text;
  shown : list script_event
}.

Definition say (e : script_event) : M session unit := λ s,
  (Ok (), Session (s_graphs s) (s_vectors s) (s_rng s) (typed s) (shown s ++ [e])).

(* input(prompt), after the prompt is printed *)
Definition readline : M session text := λ s,
  match typed s with
  | t :: rest =>
      (Ok t, Session (s_graphs s) (s_vectors s) (s_rng s) rest (shown s))
  | [] => (Raise EOFError, s)
  end.

(** A call of one of the four functions: it runs on the objects of the
    session, reads the pending lines as [parse_pair] shows them, and what
    it prints goes to the output of the session.  The functions take
    lines from the front of the input only ([input] is their one access
    to it), so the lines pending after the call are the last ones of
    those pending before it, as many as the function has left. *)
Definition enter (s : session) : world R Rng :=
  World (s_graphs s) (s_vectors s) (s_rng s) (parse_pair <$> typed s) [].

Definition leave (s : session) (w : world R Rng) : session :=
  Session (graphs w) (vectors w) (rng w)
    (drop (length (typed s) - length (stdin w)) (typed s))
    (shown s ++ (Inner <$> stdout w)).

Definition call {A} (c : M (world R Rng) A) : M session A := λ s,
  let '(r, w) := c (enter s) in (r, leave s w).

(* lines 112-121 *)
Fixpoint read_vertex_count (pending : list text) : M session Z :=
  let again : M session Z :=
    match pending with
    | [] => raise EOFError
    | _ :: rest => read_vertex_count rest
    end in
  say AskVertices ;;;
  let* n_input := readline in
  match parse_int n_input with
  | Some N_VERTICES =>
      if 0 <=? N_VERTICES then ret N_VERTICES
      else say PrintNegativeError ;;; again
  | None => say PrintWholeNumberError ;;; again
  end.

(* lines 125-134 *)
Fixpoint read_edge_count (max_possible_edges : Z) (pending : list text)
  : M session Z :=
  let again : M session Z :=
    match pending with
    | [] => raise EOFError
    | _ :: rest => read_edge_count max_possible_edges rest
    end in
  say (AskEdges max_possible_edges) ;;;
  let* m_input := readline in
  match parse_int m_input with
  | Some M_EDGES =>
      if (0 <=? M_EDGES) && (M_EDGES <=? max_possible_edges) then ret M_EDGES
      else say (PrintEdgeCountError max_possible_edges) ;;; again
  | None => say PrintWholeNumberError ;;; again
  end.

Definition main : M session unit :=
  let* N_VERTICES := (λ s, read_vertex_count (typed s) s) in
  let max_possible_edges := (N_VERTICES * (N_VERTICES - 1)) `div` 2 in
  let* M_EDGES := (λ s, read_edge_count max_possible_edges (typed s) s) in
  let* G := call (generate_random_graph shuffle N_VERTICES M_EDGES) in
  say (PrintGenerated N_VERTICES M_EDGES) ;;;
  let* initial_scores := call (new_vector (replicate (Z.to_nat N_VERTICES) sone)) in
  call (display_graph_state G initial_scores InitialState) ;;;
  let* updated_scores := call (compute_next_scores iter G (Some initial_scores)) in
  call (display_graph_state G updated_scores UpdatedState) ;;;
  call (handle_user_edge_addition iter G (Some updated_scores)) ;;;
  say PrintFinished.

End Script.

Arguments script_event R : clear implicits.
Arguments session R Rng : clear implicits.

(** The lines the two prompts for a number accept. *)
Definition vertex_count_ok (t : text) : bool :=
  match parse_int t with Some n => 0 <=? n | None => false end.

Definition edge_count_ok (max : Z) (t : text) : bool :=
  match parse_int t with Some m => (0 <=? m) && (m <=? max) | None => false end.

(** What they print after a line they do not accept. *)
Definition vertex_count_error {R} (t : text) : script_event R :=
  match parse_int t with
  | Some _ => PrintNegativeError
  | None => PrintWholeNumberError
  end.

Definition edge_count_error {R} (max : Z) (t : text) : script_event R :=
  match parse_int t with
  | Some _ => PrintEdgeCountError max
  | None => PrintWholeNumberError
  end.

(** The output for a run of lines that are not accepted: the prompt and
    the error, line after line. *)
Definition asked {R} (prompt : script_event R) (error : text → script_event R)
  (ts : list text) : list (script_event R) :=
  t ← ts; [prompt; error t].

(** A simple graph on the vertices 0..n-1. *)
Definition simple_graph (g : graph) (n : Z) : Prop :=
  vertex_set g n ∧ symmetric g ∧ loop_free g.

(** ** Sample data *)

(** Iteration in ascending order: what CPython does for a set of small
    non-negative integers. *)
Definition ascending (i : Z) (s : gset Z) : list Z := merge_sort Z.le (elements s).

(** Two random sources: one leaves the list as it is, one reverses it. *)
Definition keep_order (r : unit) (l : list (Z * Z)) : list (Z * Z) * unit := (l, r).
Definition reverse_order (r : unit) (l : list (Z * Z)) : list (Z * Z) * unit :=
  (reverse l, r).

(* n = 2, the single edge {0,1} *)
Definition single_edge : graph := [(0, {[1]}); (1, {[0]})].

(* n = 3, the complete graph *)
Definition triangle : graph := [(0, {[1; 2]}); (1, {[0; 2]}); (2, {[0; 1]})].

(* n = 7, the complete graph *)
Definition complete7 : graph :=
  (λ i, (i, list_to_set (filter (λ j, j ≠ i) (range 7)))) <$> range 7.

(* n = 4, the edges {0,1}, {0,2}, {0,3}, {1,2} *)
Definition kite : graph :=
  [(0, {[1; 2; 3]}); (1, {[0; 2]}); (2, {[0; 1]}); (3, {[0]})].

(* n = 3, the edge {0,1} and the isolated vertex 2 *)
Definition edge_and_point : graph := [(0, {[1]}); (1, {[0]}); (2, ∅)].

Definition ones {R} `{ScoreArith R} (n : nat) : list R := replicate n sone.

(* a world of binary64 scores, with an empty output *)
Definition float_world (gs : list graph) (vs : list (list Binary64.float))
  (input : list line) : world Binary64.float unit := World gs vs () input [].

(* a run of the script on binary64 scores, with nothing allocated yet *)
Definition float_session (input : list text) : session Binary64.float unit :=
  Session [] [] () input [].

(** * Properties *)

Section Loops.

Context {W S A : Type}.

Lemma for_each_sim (inj : S → W) (l : list A)
    (bw : A → M W unit) (bs : A → M S unit) :
  (∀ a s, a ∈ l → bw a (inj s) = let '(r, s') := bs a s in (r, inj s')) →
  ∀ s, for_each l bw (inj s) = let '(r, s') := for_each l bs s in (r, inj s').
Proof.
  induction l as [|a l IH]; intros Hb s; [done|].
  cbn [for_each]. unfold bind.
  rewrite Hb by left.
  destruct (bs a s) as [[[]|e] s']; [|done].
  apply IH. intros a' s'' Ha'. apply Hb. by right.
Qed.

Lemma for_each_ext (P : W → Prop) (l : list A) (b1 b2 : A → M W unit) :
  (∀ a w, a ∈ l → P w → b1 a w = b2 a w ∧ P (b1 a w).2) →
  ∀ w, P w → for_each l b1 w = for_each l b2 w ∧ P (for_each l b1 w).2.
Proof.
  induction l as [|a l IH]; intros Hb w Hw; [done|].
  cbn [for_each]. unfold bind.
  destruct (Hb a w) as [Heq HP]; [by left|done|].
  rewrite <- Heq. destruct (b1 a w) as [[[]|e] w']; [|done].
  apply IH; [|done]. intros a' w'' Ha'. apply Hb. by right.
Qed.

Lemma for_each_keeps (P : W → Prop) (l : list A) (b : A → M W unit) :
  (∀ a w, a ∈ l → P w → P (b a w).2) →
  ∀ w, P w → P (for_each l b w).2.
Proof.
  induction l as [|a l IH]; intros Hb w Hw; [done|].
  cbn [for_each]. unfold bind.
  pose proof (Hb a w ltac:(by left) Hw) as HP.
  destruct (b a w) as [[[]|e] w']; [|done].
  apply IH; [|done]. intros a' w'' Ha'. apply Hb. by right.
Qed.

End Loops.

Section Scores.

Context {R : Type} `{ScoreArith R} {Rng : Type}.
Variable iter : Z → gset Z → list Z.
Local Abbreviation W := (world R Rng).

Lemma vectors_with_vectors vs (w : W) : vectors (with_vectors vs w) = vs.
Proof. done. Qed.
Lemma with_vectors_twice vs vs' (w : W) :
  with_vectors vs' (with_vectors vs w) = with_vectors vs' w.
Proof. done. Qed.

Lemma lookup_alloc_x (vs : list (list R)) x y : (vs ++ [x; y]) !! length vs = Some x.
Proof. by rewrite lookup_app_r, Nat.sub_diag by lia. Qed.

Lemma lookup_alloc_y (vs : list (list R)) x y : (vs ++ [x; y]) !! S (length vs) = Some y.
Proof.
  rewrite lookup_app_r by lia. by replace (S (length vs) - length vs)%nat with 1%nat by lia.
Qed.

Lemma insert_alloc_y (vs : list (list R)) x y y' :
  <[S (length vs) := y']> (vs ++ [x; y]) = vs ++ [x; y'].
Proof.
  rewrite insert_app_r_alt by lia.
  by replace (S (length vs) - length vs)%nat with 1%nat by lia.
Qed.

Lemma accumulate_sim (w : W) x degrees i j y :
  (let* d := lift KeyError (dict_lookup j degrees) in
   if 0 <? d then
     let* yi := vector_getitem (S (length (vectors w))) i in
     let* xj := vector_getitem (length (vectors w)) j in
     let* d' := lift KeyError (dict_lookup j degrees) in
     let* q := truediv xj d' in
     vector_setitem (S (length (vectors w))) i (sadd yi q)
   else ret ()) (alloc_xy w x y)
  = let '(r, y') := accumulate degrees x i j y in (r, alloc_xy w x y').
Proof.
  unfold accumulate, vector_getitem, vector_setitem, read_vector, truediv,
    bind, lift, ret, raise, alloc_xy, store_vector.
  destruct (dict_lookup j degrees) as [d|]; [|done].
  destruct (0 <? d); [|done].
  rewrite !vectors_with_vectors, lookup_alloc_y.
  destruct (list_getitem y i) as [yi|]; [|done].
  rewrite !vectors_with_vectors, lookup_alloc_x.
  destruct (list_getitem x j) as [xj|]; [|done].
  destruct (decide (d = 0)); [done|].
  rewrite !vectors_with_vectors, lookup_alloc_y.
  destruct (py_index (length y) i) as [k|]; [|done].
  by rewrite !vectors_with_vectors, insert_alloc_y, with_vectors_twice.
Qed.

Lemma graph_getitem_run gr k (w : W) :
  graph_getitem gr k w =
    match graphs w !! gr with
    | None => (Raise InvalidReference, w)
    | Some g =>
        match dict_lookup k g with
        | Some s => (Ok s, w)
        | None => (Raise KeyError, w)
        end
    end.
Proof.
  unfold graph_getitem, read_graph, bind.
  destruct (graphs w !! gr) as [g|]; [|done]. by destruct (dict_lookup k g).
Qed.

Lemma graphs_alloc_xy (w : W) x y : graphs (alloc_xy w x y) = graphs w.
Proof. done. Qed.

Lemma copy_prior_run n cs (w : W) :
  match cs with
  | None => new_vector (replicate n sone)
  | Some c => let* v := read_vector c in new_vector v
  end w
  = match prior_value w n cs with
    | Some x => new_vector x w
    | None => (Raise InvalidReference, w)
    end.
Proof.
  destruct cs as [c|]; [|done]. unfold bind, read_vector. cbn [prior_value].
  by destruct (vectors w !! c).
Qed.

Lemma new_vector_alloc (w : W) x y :
  new_vector y (with_vectors (vectors w ++ [x]) w)
  = (Ok (S (length (vectors w))), alloc_xy w x y).
Proof.
  unfold new_vector, alloc_xy.
  rewrite !vectors_with_vectors, with_vectors_twice, length_app, <- app_assoc.
  simpl. by rewrite Nat.add_1_r.
Qed.

Lemma score_loop_sim (w : W) gr g x y :
  graphs w !! gr = Some g →
  for_each (dict_keys g) (λ i,
    let* neighbors := graph_getitem gr i in
    for_each (iter i neighbors) (λ j,
      let* d := lift KeyError (dict_lookup j (degree_table g)) in
      if 0 <? d then
        let* yi := vector_getitem (S (length (vectors w))) i in
        let* xj := vector_getitem (length (vectors w)) j in
        let* d' := lift KeyError (dict_lookup j (degree_table g)) in
        let* q := truediv xj d' in
        vector_setitem (S (length (vectors w))) i (sadd yi q)
      else ret ())) (alloc_xy w x y)
  = let '(r, y') := score_loop iter g x y in (r, alloc_xy w x y').
Proof.
  intros Hg. unfold score_loop.
  apply (for_each_sim (alloc_xy w x)). intros i y1 _.
  unfold bind at 1 3. rewrite graph_getitem_run, graphs_alloc_xy, Hg.
  unfold lift. destruct (dict_lookup i g) as [s|]; [|done].
  cbn [ret].
  apply (for_each_sim (alloc_xy w x)). intros j y2 _.
  apply accumulate_sim.
Qed.

Lemma compute_next_scores_run gr cs (w : W) :
  compute_next_scores iter gr cs w =
    match graphs w !! gr with
    | None => (Raise InvalidReference, w)
    | Some g =>
        match prior_value w (length g) cs with
        | None => (Raise InvalidReference, w)
        | Some x =>
            let '(r, y) := next_scores iter g x in
            (match r with
             | Ok _ => Ok (S (length (vectors w)))
             | Raise e => Raise e
             end, alloc_xy w x y)
        end
    end.
Proof.
  unfold compute_next_scores, bind at 1, read_graph at 1.
  destruct (graphs w !! gr) as [g|] eqn:Hg; [|done].
  unfold bind at 1. rewrite copy_prior_run.
  destruct (prior_value w (length g) cs) as [x|]; [|done].
  unfold new_vector at 1. unfold bind at 1. rewrite new_vector_alloc.
  unfold bind at 1. fold (degree_table g).
  rewrite (score_loop_sim _ _ _ _ _ Hg).
  unfold next_scores.
  by destruct (score_loop iter g x (replicate (length g) szero)) as [[[]|e] y].
Qed.
End Scores.

(** ** Dicts *)

Section Dicts.

Context {V : Type}.
Implicit Types (d : dict V) (k : Z).

Lemma elem_of_dict_keys k d : k ∈ dict_keys d ↔ is_Some (dict_lookup k d).
Proof.
  unfold dict_keys. induction d as [|[k' v] d IH]; simpl.
  - rewrite elem_of_nil. split; [done|]. by intros [? ?].
  - rewrite elem_of_cons, IH. destruct (decide (k = k')) as [->|Hne].
    + split; [by eexists|by left].
    + split; [by intros [?|?]|by right].
Qed.

Lemma dict_lookup_elem_of k v d : dict_lookup k d = Some v → (k, v) ∈ d.
Proof.
  induction d as [|[k' v'] d IH]; simpl; [done|].
  destruct (decide (k = k')) as [->|]; intros; simplify_eq; [left|right; auto].
Qed.

Lemma dict_lookup_fmap {V'} (f : V → V') k d :
  dict_lookup k ((λ '(k', v), (k', f v)) <$> d) = f <$> dict_lookup k d.
Proof.
  induction d as [|[k' v'] d IH]; simpl; [done|]. by destruct (decide (k = k')).
Qed.

Lemma dict_keys_alter f k d : dict_keys (dict_alter f k d) = dict_keys d.
Proof.
  unfold dict_keys. induction d as [|[k' v'] d IH]; simpl; [done|].
  destruct (decide (k = k')); simpl; [done|by f_equal].
Qed.

Lemma dict_lookup_alter f k k' d :
  dict_lookup k' (dict_alter f k d)
  = if decide (k' = k) then f <$> dict_lookup k d else dict_lookup k' d.
Proof.
  induction d as [|[k0 v0] d IH]; simpl; [by destruct (decide (k' = k))|].
  destruct (decide (k = k0)) as [->|Hne]; simpl.
  - destruct (decide (k' = k0)) as [->|]; simpl; by rewrite ?decide_True.
  - destruct (decide (k' = k0)) as [->|]; simpl.
    + by rewrite decide_False.
    + by rewrite IH.
Qed.

End Dicts.

Lemma lookup_degree_table j (g : graph) :
  dict_lookup j (degree_table g) = (λ s, Z.of_nat (size s)) <$> dict_lookup j g.
Proof. apply dict_lookup_fmap. Qed.

Lemma degree_table_key j (g : graph) :
  j ∈ dict_keys g → dict_lookup j (degree_table g) = Some (degree g j).
Proof.
  rewrite elem_of_dict_keys, lookup_degree_table. intros [s Hs].
  unfold degree, neighbors. by rewrite Hs.
Qed.

Lemma py_index_in_range (n : nat) (i : Z) :
  0 ≤ i < Z.of_nat n → py_index n i = Some (Z.to_nat i).
Proof.
  intros Hi. unfold py_index.
  destruct (Z.ltb_spec i 0); [lia|].
  destruct (Z.leb_spec 0 i), (Z.ltb_spec i (Z.of_nat n)); simpl; (done || lia).
Qed.

Lemma list_getitem_in_range {A} (v : list A) (i : Z) :
  0 ≤ i < Z.of_nat (length v) → list_getitem v i = v !! Z.to_nat i.
Proof. intros Hi. unfold list_getitem. by rewrite py_index_in_range. Qed.

(** ** Vertex sets *)

Lemma elem_of_range (n k : Z) : k ∈ range n ↔ 0 ≤ k < n.
Proof. unfold range. rewrite elem_of_seqZ. lia. Qed.

Lemma vertex_set_elem_of g n k : vertex_set g n → k ∈ dict_keys g ↔ 0 ≤ k < n.
Proof. intros Hv. unfold vertex_set in Hv. by rewrite Hv, elem_of_range. Qed.

Lemma vertex_set_NoDup g n : vertex_set g n → NoDup (dict_keys g).
Proof. intros Hv. unfold vertex_set in Hv. rewrite Hv. apply NoDup_seqZ. Qed.

Lemma vertex_set_length g n : vertex_set g n → Z.of_nat (length g) = Z.max 0 n.
Proof.
  intros Hv. unfold vertex_set, dict_keys, range in Hv.
  apply Permutation_length in Hv. rewrite length_fmap, length_seqZ in Hv. lia.
Qed.

(** ** The value of the score loop *)

Section ScoreValues.

Context {R : Type} `{ScoreArith R}.
Variable iter : Z → gset Z → list Z.
Hypothesis iter_perm : ∀ i s, iter i s ≡ₚ elements s.

Implicit Types (g : graph) (x y : list R).

Lemma foldl_add_share g x a js :
  foldl (add_share g x) a js = foldl sadd a (contributions g x js).
Proof.
  unfold contributions. revert a.
  induction js as [|j js IH]; intros a; [done|].
  rewrite filter_cons. simpl. unfold add_share at 2.
  destruct (Z.ltb_spec 0 (degree g j)).
  - rewrite decide_True by done. simpl. apply IH.
  - rewrite decide_False by lia. apply IH.
Qed.

Lemma elem_of_iter i s j : j ∈ iter i s ↔ j ∈ s.
Proof. by rewrite iter_perm, elem_of_elements. Qed.

Lemma accumulate_value g x i j y yi :
  j ∈ dict_keys g →
  0 ≤ j < Z.of_nat (length x) →
  0 ≤ i →
  y !! Z.to_nat i = Some yi →
  accumulate (degree_table g) x i j y
  = (Ok (), <[Z.to_nat i := add_share g x yi j]> y).
Proof.
  intros Hj Hjx Hi Hyi. unfold accumulate, add_share, bind, lift, truediv.
  rewrite degree_table_key by done. cbn [ret].
  destruct (Z.ltb_spec 0 (degree g j)) as [Hpos|Hle].
  - assert (0 ≤ i < Z.of_nat (length y)) as Hi'.
    { apply lookup_lt_Some in Hyi. lia. }
    destruct (x !! Z.to_nat j) as [xj|] eqn:Hxj.
    2:{ apply lookup_ge_None in Hxj. lia. }
    unfold score_at.
    rewrite !list_getitem_in_range, Hyi, Hxj by done. cbn [ret default].
    rewrite decide_False by lia. cbn [ret].
    by rewrite py_index_in_range.
  - unfold ret. by rewrite list_insert_id.
Qed.

Lemma inner_loop_value g x i js : ∀ y yi,
  (∀ j, j ∈ js → j ∈ dict_keys g ∧ 0 ≤ j < Z.of_nat (length x)) →
  0 ≤ i →
  y !! Z.to_nat i = Some yi →
  for_each js (accumulate (degree_table g) x i) y
  = (Ok (), <[Z.to_nat i := foldl (add_share g x) yi js]> y).
Proof.
  induction js as [|j js IH]; intros y yi Hjs Hi Hyi.
  - simpl. unfold ret. by rewrite list_insert_id.
  - cbn [for_each foldl]. unfold bind.
    destruct (Hjs j) as [Hj Hjx]; [by left|].
    rewrite (accumulate_value _ _ _ _ _ yi) by done.
    rewrite (IH _ (add_share g x yi j)).
    + by rewrite list_insert_insert_eq.
    + intros j' Hj'. apply Hjs. by right.
    + done.
    + apply list_lookup_insert_eq. by apply lookup_lt_Some in Hyi.
Qed.

Lemma closed_iter g i j : closed g → j ∈ iter i (neighbors g i) → j ∈ dict_keys g.
Proof. intros Hc Hj. apply (Hc i). by apply elem_of_iter in Hj. Qed.

Lemma outer_loop_value g x :
  closed g →
  (∀ j, j ∈ dict_keys g → 0 ≤ j < Z.of_nat (length x)) →
  ∀ ks y,
  NoDup ks →
  (∀ i, i ∈ ks → i ∈ dict_keys g ∧ 0 ≤ i < Z.of_nat (length y)) →
  ∃ y',
    for_each ks (λ i,
      let* neighbors := lift KeyError (dict_lookup i g) in
      for_each (iter i neighbors) (accumulate (degree_table g) x i)) y = (Ok (), y')
    ∧ length y' = length y
    ∧ (∀ i yi, i ∈ ks → y !! Z.to_nat i = Some yi →
         y' !! Z.to_nat i = Some (foldl (add_share g x) yi (iter i (neighbors g i))))
    ∧ (∀ k, (∀ i, i ∈ ks → Z.to_nat i ≠ k) → y' !! k = y !! k).
Proof.
  intros Hc Hx ks. induction ks as [|i ks IH]; intros y Hnd Hks.
  { exists y. split_and!; [done|done| |done]. intros i yi Hi. by apply elem_of_nil in Hi. }
  apply NoDup_cons in Hnd as [Hi Hnd].
  destruct (Hks i) as [Hig [Hi0 Hiy]]; [by left|].
  destruct (y !! Z.to_nat i) as [yi|] eqn:Hyi.
  2:{ apply lookup_ge_None in Hyi. lia. }
  pose proof Hig as [s Hs]%elem_of_dict_keys.
  assert (neighbors g i = s) as Hnb by (unfold neighbors; by rewrite Hs).
  set (y1 := <[Z.to_nat i := foldl (add_share g x) yi (iter i s)]> y).
  destruct (IH y1) as (y' & Hrun & Hlen & Hin & Hout); [done| |].
  { intros i' Hi'. destruct (Hks i') as [? ?]; [by right|].
    unfold y1. by rewrite length_insert. }
  exists y'. split_and!.
  - cbn [for_each]. unfold bind at 1. unfold bind at 1. rewrite Hs. cbn [lift ret].
    rewrite (inner_loop_value g x i (iter i s) y yi); [done| |done|done].
    intros j Hj. rewrite <- Hnb in Hj. split; [|apply Hx]; by eapply closed_iter.
  - rewrite Hlen. unfold y1. by rewrite length_insert.
  - intros i' yi' [->|Hi']%elem_of_cons Hyi'.
    + rewrite Hout.
      * unfold y1. rewrite list_lookup_insert_eq by (by apply lookup_lt_Some in Hyi).
        rewrite Hnb. congruence.
      * intros i'' Hi'' Heq. destruct (Hks i'') as [_ ?]; [by right|].
        assert (i'' = i) by lia. congruence.
    + apply Hin; [done|]. unfold y1. rewrite list_lookup_insert_ne; [done|].
      intros Heq. destruct (Hks i') as [_ ?]; [by right|].
      assert (i = i') by lia. congruence.
  - intros k Hk. rewrite Hout.
    + unfold y1. rewrite list_lookup_insert_ne; [done|]. apply Hk. by left.
    + intros i' Hi'. apply Hk. by right.
Qed.

End ScoreValues.

Section ScoreTheorems.

Context {R : Type} `{ScoreArith R} {Rng : Type}.
Variable iter : Z → gset Z → list Z.
Local Abbreviation W := (world R Rng).

Lemma score_loop_isolated (g : graph) (x : list R) :
  (∀ i s, iter i s ≡ₚ elements s) →
  isolated g → ∀ y, score_loop iter g x y = (Ok (), y).
Proof.
  intros Hperm Hiso. unfold score_loop.
  assert (∀ ks y, (∀ i, i ∈ ks → i ∈ dict_keys g) →
    for_each ks (λ i,
      let* neighbors := lift KeyError (dict_lookup i g) in
      for_each (iter i neighbors) (accumulate (degree_table g) x i)) y = (Ok (), y))
    as Hloop.
  { induction ks as [|i ks IH]; intros y Hks; [done|].
    cbn [for_each]. unfold bind at 1. unfold bind at 1.
    assert (i ∈ dict_keys g) as [s Hs]%elem_of_dict_keys by (apply Hks; by left).
    rewrite Hs. cbn [lift ret].
    assert (s = ∅) as ->.
    { specialize (Hiso i). unfold neighbors in Hiso. by rewrite Hs in Hiso. }
    assert (iter i ∅ = []) as ->.
    { apply Permutation_nil_r. by rewrite Hperm, elements_empty. }
    cbn [for_each ret]. apply IH. intros i' Hi'. apply Hks. by right. }
  intros y. by apply Hloop.
Qed.

(** C7. On a graph all of whose neighbour sets are empty,
    [compute_next_scores] returns a vector of len(graph) zeros, whatever the
    prior. *)
Theorem compute_next_scores_isolated (w : W) gr cs g x :
  (∀ i s, iter i s ≡ₚ elements s) →
  graphs w !! gr = Some g →
  isolated g →
  prior_value w (length g) cs = Some x →
  ∃ yr w',
    compute_next_scores iter gr cs w = (Ok yr, w')
    ∧ vectors w' !! yr = Some (replicate (length g) szero).
Proof.
  intros Hperm Hg Hiso Hx.
  pose proof (compute_next_scores_run iter gr cs w) as Hrun.
  rewrite Hg, Hx in Hrun. unfold next_scores in Hrun.
  rewrite score_loop_isolated in Hrun by done.
  eexists _, _. split; [exact Hrun|].
  unfold alloc_xy. rewrite vectors_with_vectors. apply lookup_alloc_y.
Qed.

Lemma compute_next_scores_value (w : W) gr cs g n x :
  (∀ i s, iter i s ≡ₚ elements s) →
  graphs w !! gr = Some g →
  vertex_set g n →
  closed g →
  prior_value w (length g) cs = Some x →
  length x = length g →
  ∃ yr w' y,
    compute_next_scores iter gr cs w = (Ok yr, w')
    ∧ vectors w' !! yr = Some y
    ∧ length y = length g
    ∧ ∀ i, 0 ≤ i < n →
        y !! Z.to_nat i = Some (vsum (contributions g x (iter i (neighbors g i)))).
Proof.
  intros Hperm Hg Hv Hc Hx Hlen.
  pose proof (vertex_set_length _ _ Hv) as Hn.
  destruct (outer_loop_value iter Hperm g x Hc) with
    (ks := dict_keys g) (y := replicate (length g) (szero : R))
    as (y & Hrun & Hleny & Hin & _).
  - intros j Hj%(vertex_set_elem_of _ _ _ Hv). lia.
  - by eapply vertex_set_NoDup.
  - intros i Hi. split; [done|]. rewrite length_replicate.
    apply (vertex_set_elem_of _ _ _ Hv) in Hi. lia.
  - pose proof (compute_next_scores_run iter gr cs w) as Hrun'.
    rewrite Hg, Hx in Hrun'. unfold next_scores, score_loop in Hrun'.
    rewrite Hrun in Hrun'. eexists _, _, y. split_and!; [exact Hrun'| | |].
    + unfold alloc_xy. rewrite vectors_with_vectors. apply lookup_alloc_y.
    + by rewrite Hleny, length_replicate.
    + intros i Hi. unfold vsum. rewrite <- foldl_add_share.
      apply Hin; [by apply (vertex_set_elem_of _ _ _ Hv)|].
      apply lookup_replicate_2. lia.
Qed.

(** C2. On a graph whose vertices are 0..n-1 and a prior of length n, the
    i-th entry of the returned vector is the sum, accumulated from 0.0 in
    the order the neighbours of i are visited, of prior[j] / degree(j) over
    the neighbours j of positive degree; without a prior the vector of n
    ones is used. *)
Theorem compute_next_scores_sum (w : W) gr cs g n x :
  (∀ i s, iter i s ≡ₚ elements s) →
  graphs w !! gr = Some g →
  vertex_set g n →
  closed g →
  prior_value w (length g) cs = Some x →
  length x = length g →
  (cs = None → x = replicate (length g) sone)
  ∧ ∃ yr w' y,
      compute_next_scores iter gr cs w = (Ok yr, w')
      ∧ vectors w' !! yr = Some y
      ∧ length y = length g
      ∧ ∀ i, 0 ≤ i < n →
          y !! Z.to_nat i = Some (vsum (contributions g x (iter i (neighbors g i)))).
Proof.
  intros Hperm Hg Hv Hc Hx Hlen. split.
  - intros ->. simpl in Hx. by simplify_eq.
  - by apply (compute_next_scores_value w gr cs g n x).
Qed.

(** C10. [compute_next_scores] is a function of its arguments and leaves
    them alone: a call changes no graph and no score list that exists (it
    only allocates new lists) nor the console or the random source, and a
    second call with the same arguments returns a new list with the same
    entries, or raises the same exception. *)
Theorem compute_next_scores_pure gr cs (w : W) :
  let '(r1, w1) := compute_next_scores iter gr cs w in
  let '(r2, w2) := compute_next_scores iter gr cs w1 in
  (graphs w1 = graphs w ∧ vectors w `prefix_of` vectors w1
   ∧ rng w1 = rng w ∧ stdin w1 = stdin w ∧ stdout w1 = stdout w)
  ∧ match r1, r2 with
    | Ok y1, Ok y2 =>
        vectors w !! y1 = None ∧ y1 ≠ y2
        ∧ is_Some (vectors w1 !! y1)
        ∧ vectors w2 !! y1 = vectors w1 !! y1
        ∧ vectors w2 !! y2 = vectors w1 !! y1
    | Raise e1, Raise e2 => e1 = e2
    | _, _ => False
    end.
Proof.
  rewrite compute_next_scores_run.
  destruct (graphs w !! gr) as [g|] eqn:Hg.
  2:{ rewrite compute_next_scores_run, Hg. by split_and!. }
  destruct (prior_value w (length g) cs) as [x|] eqn:Hx.
  2:{ rewrite compute_next_scores_run, Hg, Hx. by split_and!. }
  destruct (next_scores iter g x) as [r y] eqn:Hr.
  rewrite compute_next_scores_run, graphs_alloc_xy, Hg.
  assert (prior_value (alloc_xy w x y) (length g) cs = Some x) as ->.
  { destruct cs as [c|]; [|done]. cbn [prior_value] in *.
    unfold alloc_xy. rewrite vectors_with_vectors. by apply lookup_app_l_Some. }
  rewrite Hr. split.
  { split_and!; try done. unfold alloc_xy. rewrite vectors_with_vectors.
    by apply prefix_app_r. }
  destruct r as [?|e]; [|done].
  unfold alloc_xy. rewrite !vectors_with_vectors.
  split_and!.
  - apply lookup_ge_None. lia.
  - rewrite length_app. simpl. lia.
  - rewrite lookup_alloc_y. by eexists.
  - rewrite lookup_app_l; [done|]. rewrite length_app. simpl. lia.
  - by rewrite !lookup_alloc_y.
Qed.

End ScoreTheorems.

Section Guard.

Context {R : Type} `{ScoreArith R} {Rng : Type}.
Variable iter : Z → gset Z → list Z.
Hypothesis iter_perm : ∀ i s, iter i s ≡ₚ elements s.
Local Abbreviation W := (world R Rng).

(** In a symmetric graph a vertex that is some vertex's neighbour has a
    neighbour itself: its entry in the degree table is positive. *)
Lemma symmetric_neighbor_degree g i j :
  symmetric g → j ∈ neighbors g i →
  dict_lookup j (degree_table g) = Some (degree g j) ∧ 0 < degree g j.
Proof.
  intros Hsym Hj. apply Hsym in Hj.
  assert (j ∈ dict_keys g) as Hk.
  { apply elem_of_dict_keys. unfold neighbors in Hj.
    destruct (dict_lookup j g); [by eexists|]. by apply not_elem_of_empty in Hj. }
  split; [by apply degree_table_key|].
  unfold degree. assert (size (neighbors g j) ≠ 0%nat); [|lia].
  intros Hz%size_empty_inv. by rewrite Hz in Hj; apply not_elem_of_empty in Hj.
Qed.

Lemma unguarded_round_graphs (w : W) degrees x y i j :
  graphs ((let* yi := vector_getitem y i in
           let* xj := vector_getitem x j in
           let* d' := lift KeyError (dict_lookup j degrees) in
           let* q := truediv xj d' in
           vector_setitem y i (sadd yi q)) w).2 = graphs w.
Proof.
  unfold vector_getitem, vector_setitem, read_vector, truediv, bind, lift, ret, raise,
    store_vector.
  repeat (case_match; simplify_eq/=; try done).
Qed.

Lemma bind_graph_getitem {A} gr i (k : gset Z → M W A) (w : W) g :
  graphs w !! gr = Some g →
  (let* s := graph_getitem gr i in k s) w
  = match dict_lookup i g with
    | Some s => k s w
    | None => (Raise KeyError, w)
    end.
Proof.
  intros Hg. unfold bind. rewrite graph_getitem_run, Hg.
  by destruct (dict_lookup i g).
Qed.

Lemma compute_next_scores_unfold gr cs (w : W) :
  compute_next_scores iter gr cs w =
    match graphs w !! gr with
    | None => (Raise InvalidReference, w)
    | Some g =>
        match prior_value w (length g) cs with
        | None => (Raise InvalidReference, w)
        | Some x =>
            let xr := length (vectors w) in
            let yr := S (length (vectors w)) in
            let '(r, w') :=
              for_each (dict_keys g) (λ i,
                let* neighbors := graph_getitem gr i in
                for_each (iter i neighbors) (λ j,
                  let* d := lift KeyError (dict_lookup j (degree_table g)) in
                  if 0 <? d then
                    let* yi := vector_getitem yr i in
                    let* xj := vector_getitem xr j in
                    let* d' := lift KeyError (dict_lookup j (degree_table g)) in
                    let* q := truediv xj d' in
                    vector_setitem yr i (sadd yi q)
                  else ret ()))
                (alloc_xy w x (replicate (length g) szero)) in
            (match r with Ok _ => Ok yr | Raise e => Raise e end, w')
        end
    end.
Proof.
  unfold compute_next_scores, bind at 1, read_graph at 1.
  destruct (graphs w !! gr) as [g|] eqn:Hg; [|done].
  unfold bind at 1. rewrite copy_prior_run.
  destruct (prior_value w (length g) cs) as [x|]; [|done].
  unfold new_vector at 1. unfold bind at 1. rewrite new_vector_alloc.
  unfold bind at 1. fold (degree_table g). cbv zeta.
  by destruct (for_each _ _ _) as [[[]|e] w'].
Qed.

Lemma compute_next_scores_unguarded_unfold gr cs (w : W) :
  compute_next_scores_unguarded iter gr cs w =
    match graphs w !! gr with
    | None => (Raise InvalidReference, w)
    | Some g =>
        match prior_value w (length g) cs with
        | None => (Raise InvalidReference, w)
        | Some x =>
            let xr := length (vectors w) in
            let yr := S (length (vectors w)) in
            let '(r, w') :=
              for_each (dict_keys g) (λ i,
                let* neighbors := graph_getitem gr i in
                for_each (iter i neighbors) (λ j,
                  let* yi := vector_getitem yr i in
                  let* xj := vector_getitem xr j in
                  let* d' := lift KeyError (dict_lookup j (degree_table g)) in
                  let* q := truediv xj d' in
                  vector_setitem yr i (sadd yi q)))
                (alloc_xy w x (replicate (length g) szero)) in
            (match r with Ok _ => Ok yr | Raise e => Raise e end, w')
        end
    end.
Proof.
  unfold compute_next_scores_unguarded, bind at 1, read_graph at 1.
  destruct (graphs w !! gr) as [g|] eqn:Hg; [|done].
  unfold bind at 1. rewrite copy_prior_run.
  destruct (prior_value w (length g) cs) as [x|]; [|done].
  unfold new_vector at 1. unfold bind at 1. rewrite new_vector_alloc.
  unfold bind at 1. fold (degree_table g). cbv zeta.
  by destruct (for_each _ _ _) as [[[]|e] w'].
Qed.

Lemma guarded_equals_unguarded (w : W) gr cs g :
  graphs w !! gr = Some g →
  symmetric g →
  compute_next_scores iter gr cs w = compute_next_scores_unguarded iter gr cs w.
Proof.
  intros Hg Hsym.
  rewrite compute_next_scores_unfold, compute_next_scores_unguarded_unfold, Hg.
  destruct (prior_value w (length g) cs) as [x|]; [|done]. cbv zeta.
  set (P := λ w' : W, graphs w' !! gr = Some g).
  match goal with
  | |- (let '(_, _) := ?a in _) = (let '(_, _) := ?b in _) =>
      assert (a = b) as ->; [|done]
  end.
  apply (for_each_ext P); [|done].
  intros i w1 _ Hw1. rewrite !(bind_graph_getitem _ _ _ _ g) by done.
  destruct (dict_lookup i g) as [s|] eqn:Hs; [|done].
  apply (for_each_ext P); [|done].
  intros j w2 Hj Hw2. apply (elem_of_iter iter iter_perm) in Hj.
  assert (j ∈ neighbors g i) as Hnb by (unfold neighbors; by rewrite Hs).
  destruct (symmetric_neighbor_degree g i j Hsym Hnb) as [Hd Hpos].
  match goal with |- ?a = ?b ∧ _ => assert (a = b) as -> end.
  { unfold bind at 1. rewrite Hd. cbn [lift ret].
    by rewrite (proj2 (Z.ltb_lt _ _) Hpos). }
  split; [done|]. unfold P. by rewrite unguarded_round_graphs.
Qed.

Lemma filter_all {A} (P : A → Prop) `{∀ a, Decision (P a)} (l : list A) :
  (∀ a, a ∈ l → P a) → filter P l = l.
Proof.
  induction l as [|a l IH]; intros Hl; [done|].
  rewrite filter_cons, decide_True by (apply Hl; by left).
  f_equal. apply IH. intros a' Ha'. apply Hl. by right.
Qed.

Lemma for_each_never {S A} (e : exn) (l : list A) (b : A → M S unit) :
  (∀ a s, a ∈ l → (b a s).1 ≠ Raise e) → ∀ s, (for_each l b s).1 ≠ Raise e.
Proof.
  induction l as [|a l IH]; intros Hb s; [done|].
  cbn [for_each]. unfold bind. pose proof (Hb a s ltac:(by left)) as Ha.
  destruct (b a s) as [[[]|e'] s']; [|done].
  apply IH. intros a' s'' Ha'. apply Hb. by right.
Qed.

Lemma accumulate_never_divides_by_zero degrees (x : list R) i j y :
  (accumulate degrees x i j y).1 ≠ Raise ZeroDivisionError.
Proof.
  unfold accumulate, truediv, bind, lift, ret, raise.
  destruct (dict_lookup j degrees) as [d|]; [|done].
  destruct (Z.ltb_spec 0 d); [|done].
  destruct (list_getitem y i); [|done]. destruct (list_getitem x j); [|done].
  destruct (decide (d = 0)); [lia|]. by destruct (py_index (length y) i).
Qed.

Lemma compute_next_scores_never_divides_by_zero gr cs (w : W) :
  (compute_next_scores iter gr cs w).1 ≠ Raise ZeroDivisionError.
Proof.
  rewrite compute_next_scores_run.
  destruct (graphs w !! gr) as [g|]; [|done].
  destruct (prior_value w (length g) cs) as [x|]; [|done].
  unfold next_scores.
  assert (∀ y, (score_loop iter g x y).1 ≠ Raise ZeroDivisionError) as Hnever.
  { intros y. unfold score_loop. apply for_each_never.
    intros i y' _. unfold bind, lift. destruct (dict_lookup i g) as [s|]; [|done].
    apply for_each_never. intros j y'' _. apply accumulate_never_divides_by_zero. }
  match goal with |- context [score_loop iter g x ?y] => specialize (Hnever y) end.
  destruct (score_loop _ _ _ _) as [[[]|e] y]; [done|]. simpl in *. congruence.
Qed.

(** C6. In a graph with symmetric adjacency the test [degrees[j] > 0] holds
    for every neighbour j the loop meets: a vertex in some neighbour set has
    a neighbour itself.  Hence the sum with the test equals the sum without
    it, [compute_next_scores] behaves in every world like the same function
    with the test removed, and no division by zero is raised. *)
Theorem degree_guard_redundant (w : W) gr cs g :
  graphs w !! gr = Some g →
  symmetric g →
  (∀ i j, j ∈ iter i (neighbors g i) → 0 < degree g j)
  ∧ (∀ x i, contributions g x (iter i (neighbors g i))
            = contributions_unguarded g x (iter i (neighbors g i)))
  ∧ compute_next_scores iter gr cs w = compute_next_scores_unguarded iter gr cs w
  ∧ (compute_next_scores_unguarded iter gr cs w).1 ≠ Raise ZeroDivisionError.
Proof.
  intros Hg Hsym.
  assert (∀ i j, j ∈ iter i (neighbors g i) → 0 < degree g j) as Hpos.
  { intros i j Hj%(elem_of_iter iter iter_perm).
    by destruct (symmetric_neighbor_degree g i j Hsym Hj). }
  split_and!; [done| | |].
  - intros x i. unfold contributions, contributions_unguarded. f_equal.
    apply filter_all. intros j Hj. by apply (Hpos i).
  - by apply (guarded_equals_unguarded w gr cs g).
  - rewrite <- (guarded_equals_unguarded w gr cs g) by done.
    apply compute_next_scores_never_divides_by_zero.
Qed.

End Guard.

(** ** The candidate edges *)

Lemma bind_singleton {A B} (f : A → B) (l : list A) : (a ← l; [f a]) = f <$> l.
Proof. induction l as [|a l IH]; [done|]. rewrite bind_cons, IH. done. Qed.

Lemma elem_of_range2 (a b k : Z) : k ∈ range2 a b ↔ a ≤ k < b.
Proof. unfold range2. rewrite elem_of_seqZ. lia. Qed.

Lemma elem_of_possible_edges (n i j : Z) :
  (i, j) ∈ possible_edges n ↔ 0 ≤ i < j ∧ j < n.
Proof.
  unfold possible_edges. destruct (Z.ltb_spec 1 n).
  - rewrite list_elem_of_bind. split.
    + intros (i' & Hij & Hi'). rewrite bind_singleton, list_elem_of_fmap in Hij.
      destruct Hij as (j' & [= -> ->] & Hj').
      apply elem_of_seqZ in Hi'. apply elem_of_range2 in Hj'. lia.
    + intros [Hi Hj]. exists i. split.
      * rewrite bind_singleton, list_elem_of_fmap. exists j. split; [done|].
        apply elem_of_range2. lia.
      * apply elem_of_seqZ. lia.
  - rewrite elem_of_nil. lia.
Qed.

Lemma NoDup_possible_edges (n : Z) : NoDup (possible_edges n).
Proof.
  unfold possible_edges. destruct (1 <? n); [|constructor].
  apply NoDup_bind.
  - intros i1 i2 [i j] _ _ H1 H2. rewrite bind_singleton, list_elem_of_fmap in H1, H2.
    destruct H1 as (? & [= -> ->] & _), H2 as (? & [= -> ?] & _). done.
  - intros i _. rewrite bind_singleton. apply NoDup_fmap_2; [|apply NoDup_seqZ].
    by intros j1 j2 [= ->].
  - apply NoDup_seqZ.
Qed.

Lemma length_pairs_from (n : Z) (k : nat) : ∀ a,
  n = a + Z.of_nat k →
  2 * Z.of_nat (length (i ← seqZ a (Z.of_nat k); j ← range2 (i + 1) n; [(i, j)]))
  = Z.of_nat k * (Z.of_nat k - 1).
Proof.
  induction k as [|k IH]; intros a Hn; [done|].
  rewrite seqZ_cons by lia. rewrite bind_cons, length_app, bind_singleton, length_fmap.
  unfold range2 at 1. rewrite length_seqZ.
  replace (Z.pred (Z.of_nat (S k))) with (Z.of_nat k) by lia.
  rewrite Nat2Z.inj_add, Z.mul_add_distr_l, (IH (Z.succ a)) by lia. lia.
Qed.

Lemma length_possible_edges (n : Z) :
  0 ≤ n → Z.of_nat (length (possible_edges n)) = (n * (n - 1)) `div` 2.
Proof.
  intros Hn. unfold possible_edges. destruct (Z.ltb_spec 1 n).
  - pose proof (length_pairs_from n (Z.to_nat n) 0 ltac:(lia)) as Hlen.
    rewrite Z2Nat.id in Hlen by lia. unfold range.
    rewrite <- Hlen, Z.mul_comm. by rewrite Z.div_mul.
  - assert (n = 0 ∨ n = 1) as [-> | ->] by lia; done.
Qed.

(** ** Inserting edges *)

Lemma dict_keys_link u v (g : graph) : dict_keys (link u v g) = dict_keys g.
Proof. unfold link. by rewrite !dict_keys_alter. Qed.

Lemma dict_keys_add_edges l : ∀ g : graph, dict_keys (add_edges l g) = dict_keys g.
Proof.
  induction l as [|e l IH]; intros g; [done|].
  unfold add_edges in *. simpl. by rewrite IH, dict_keys_link.
Qed.

Lemma neighbors_link u v (g : graph) k :
  u ∈ dict_keys g → v ∈ dict_keys g →
  neighbors (link u v g) k
  = neighbors g k ∪ (if decide (k = u) then {[v]} else ∅)
                  ∪ (if decide (k = v) then {[u]} else ∅).
Proof.
  intros [su Hu]%elem_of_dict_keys [sv Hv]%elem_of_dict_keys.
  unfold neighbors, link. rewrite !dict_lookup_alter.
  destruct (decide (k = v)) as [Hkv|Hkv], (decide (k = u)) as [Hku|Hku];
    simplify_eq/=.
  - rewrite decide_True by done. rewrite Hu. simpl. set_solver.
  - rewrite decide_False by done. rewrite Hv. simpl. set_solver.
  - rewrite Hu. simpl. set_solver.
  - set_solver.
Qed.

Lemma elem_of_neighbors_add_edges l : ∀ (g : graph) k j,
  (∀ e, e ∈ l → e.1 ∈ dict_keys g ∧ e.2 ∈ dict_keys g) →
  j ∈ neighbors (add_edges l g) k
  ↔ j ∈ neighbors g k ∨ (k, j) ∈ l ∨ (j, k) ∈ l.
Proof.
  induction l as [|[u v] l IH]; intros g k j Hl.
  { simpl. rewrite !elem_of_nil. tauto. }
  destruct (Hl (u, v)) as [Hu Hv]; [by left|]. simpl in Hu, Hv.
  unfold add_edges in *. cbn [foldl fst snd]. rewrite IH.
  - rewrite neighbors_link by done. rewrite !elem_of_cons, !elem_of_union.
    destruct (decide (k = u)), (decide (k = v));
      rewrite ?elem_of_singleton, ?elem_of_empty; naive_solver.
  - intros e He. rewrite dict_keys_link. apply Hl. by right.
Qed.

Lemma dict_keys_empty_graph n : dict_keys (empty_graph n) = range n.
Proof.
  unfold dict_keys, empty_graph. rewrite <- list_fmap_compose.
  by rewrite <- (list_fmap_id (range n)) at 2.
Qed.

Lemma neighbors_empty_graph n k : neighbors (empty_graph n) k = ∅.
Proof.
  unfold neighbors, empty_graph.
  induction (range n) as [|i l IH]; [done|].
  simpl. by destruct (decide (k = i)).
Qed.

Lemma dict_lookup_NoDup {V} k (v : V) (d : dict V) :
  NoDup (dict_keys d) → (k, v) ∈ d ↔ dict_lookup k d = Some v.
Proof.
  intros Hnd. split; [|apply dict_lookup_elem_of].
  unfold dict_keys in Hnd. induction d as [|[k' v'] d IH]; simpl.
  - by intros ?%elem_of_nil.
  - apply NoDup_cons in Hnd as [Hk' Hnd]. simpl in Hk'.
    intros [[= -> ->]|Hin]%elem_of_cons.
    + by rewrite decide_True.
    + rewrite decide_False; [by apply IH|].
      intros ->. apply Hk'. apply list_elem_of_fmap. by exists (k', v).
Qed.

Lemma elem_of_edge_set (g : graph) a b :
  NoDup (dict_keys g) →
  (a, b) ∈ edge_set g ↔ a < b ∧ b ∈ neighbors g a.
Proof.
  intros Hnd. unfold edge_set. rewrite elem_of_list_to_set, list_elem_of_bind.
  split.
  - intros ([i s] & Hab & His). apply list_elem_of_bind in Hab as (j & Hab & Hj).
    simpl in *. destruct (decide (i < j)); [|by apply elem_of_nil in Hab].
    apply list_elem_of_singleton in Hab as [= -> ->].
    split; [done|]. apply dict_lookup_NoDup in His; [|done].
    unfold neighbors. rewrite His. by apply elem_of_elements in Hj.
  - intros [Hlt Hb]. unfold neighbors in Hb.
    destruct (dict_lookup a g) as [s|] eqn:Hs; [|by apply not_elem_of_empty in Hb].
    exists (a, s). split; [|by apply dict_lookup_elem_of].
    apply list_elem_of_bind. exists b. simpl. split; [|by apply elem_of_elements].
    rewrite decide_True by done. by apply list_elem_of_singleton.
Qed.

Section Generator.

Context {R : Type} `{ScoreArith R} {Rng : Type}.
Variable shuffle : Rng → list (Z * Z) → list (Z * Z) * Rng.
Local Abbreviation W := (world R Rng).

Lemma graphs_with_graphs gs (w : W) : graphs (with_graphs gs w) = gs.
Proof. done. Qed.

Lemma graph_add_run gr k v (w : W) g :
  graphs w !! gr = Some g →
  graph_add gr k v w
  = match dict_lookup k g with
    | None => (Raise KeyError, w)
    | Some _ => (Ok (), store_graph gr (dict_alter (λ s, {[v]} ∪ s) k g) w)
    end.
Proof.
  intros Hg. unfold graph_add, read_graph, bind, lift. rewrite Hg.
  by destruct (dict_lookup k g).
Qed.

Lemma lookup_store_graph gr g (w : W) :
  (gr < length (graphs w))%nat → graphs (store_graph gr g w) !! gr = Some g.
Proof.
  intros Hlt. unfold store_graph. rewrite graphs_with_graphs.
  by apply list_lookup_insert_eq.
Qed.

Lemma store_graph_twice gr g g' (w : W) :
  store_graph gr g' (store_graph gr g w) = store_graph gr g' w.
Proof.
  unfold store_graph. rewrite graphs_with_graphs, list_insert_insert_eq. done.
Qed.

Lemma link_run gr u v (w : W) g :
  (gr < length (graphs w))%nat →
  u ∈ dict_keys g → v ∈ dict_keys g →
  (graph_add gr u v ;;; graph_add gr v u) (store_graph gr g w)
  = (Ok (), store_graph gr (link u v g) w).
Proof.
  intros Hlt [su Hu]%elem_of_dict_keys Hv. unfold bind.
  rewrite (graph_add_run _ _ _ _ g), Hu by (by apply lookup_store_graph).
  rewrite store_graph_twice.
  assert (v ∈ dict_keys (dict_alter (λ s, {[v]} ∪ s) u g)) as [sv Hsv]%elem_of_dict_keys
    by (by rewrite dict_keys_alter).
  rewrite (graph_add_run _ _ _ _ (dict_alter (λ s, {[v]} ∪ s) u g)), Hsv
    by (by apply lookup_store_graph).
  by rewrite store_graph_twice.
Qed.

Lemma add_edges_run gr (w : W) l : ∀ g,
  (gr < length (graphs w))%nat →
  (∀ e, e ∈ l → e.1 ∈ dict_keys g ∧ e.2 ∈ dict_keys g) →
  for_each l (λ '(u, v), graph_add gr u v ;;; graph_add gr v u) (store_graph gr g w)
  = (Ok (), store_graph gr (add_edges l g) w).
Proof.
  induction l as [|[u v] l IH]; intros g Hlt Hl; [done|].
  cbn [for_each]. unfold bind at 1.
  destruct (Hl (u, v)) as [Hu Hv]; [by left|].
  rewrite link_run by done. rewrite IH; [done|done|].
  intros e He. rewrite dict_keys_link. apply Hl. by right.
Qed.

Lemma store_graph_id gr g (w : W) : graphs w !! gr = Some g → store_graph gr g w = w.
Proof.
  intros Hg. destruct w. unfold store_graph, with_graphs. simpl in *.
  by rewrite list_insert_id.
Qed.

Lemma add_edges_run_at gr (w : W) l g :
  graphs w !! gr = Some g →
  (∀ e, e ∈ l → e.1 ∈ dict_keys g ∧ e.2 ∈ dict_keys g) →
  for_each l (λ '(u, v), graph_add gr u v ;;; graph_add gr v u) w
  = (Ok (), store_graph gr (add_edges l g) w).
Proof.
  intros Hg Hl. rewrite <- (store_graph_id gr g w Hg) at 1.
  apply add_edges_run; [|done]. by apply lookup_lt_Some in Hg.
Qed.

Hypothesis shuffle_perm : ∀ r l, (shuffle r l).1 ≡ₚ l.

Lemma py_prefix_nonneg {A} (l : list A) m : 0 ≤ m → py_prefix l m = take (Z.to_nat m) l.
Proof. intros Hm. unfold py_prefix. by destruct (Z.ltb_spec m 0); [lia|]. Qed.

Lemma generate_random_graph_run n m (w : W) :
  valid_arguments n m →
  generate_random_graph shuffle n m w
  = let '(l, r) := shuffle (rng w) (possible_edges n) in
    (Ok (length (graphs w)),
     with_rng r (with_graphs
       (graphs w ++ [add_edges (take (Z.to_nat m) l) (empty_graph n)]) w)).
Proof.
  intros (Hn & Hm & Hmax). unfold generate_random_graph.
  destruct (Z.ltb_spec n 0); [lia|]. destruct (Z.ltb_spec m 0); [lia|].
  cbn [orb]. destruct (Z.ltb_spec ((n * (n - 1)) `div` 2) m); [lia|].
  unfold bind at 1, new_graph at 1. unfold bind at 1, random_shuffle.
  pose proof (shuffle_perm (rng w) (possible_edges n)) as Hperm.
  replace (rng (with_graphs (graphs w ++ [empty_graph n]) w)) with (rng w) by done.
  destruct (shuffle (rng w) (possible_edges n)) as [l r]. simpl in Hperm.
  rewrite py_prefix_nonneg by done.
  set (w1 := with_rng r (with_graphs (graphs w ++ [empty_graph n]) w)).
  assert (∀ g, store_graph (length (graphs w)) g w1
             = with_rng r (with_graphs (graphs w ++ [g]) w)) as Hstore.
  { intros g. unfold store_graph, w1, with_rng, with_graphs. simpl.
    rewrite insert_app_r_alt, Nat.sub_diag by lia. done. }
  unfold bind at 1. rewrite (add_edges_run_at _ _ _ (empty_graph n)).
  - by rewrite Hstore.
  - unfold w1, with_rng, with_graphs. simpl.
    by rewrite lookup_app_r, Nat.sub_diag by lia.
  - intros [u v] Hin%subseteq_take. rewrite Hperm in Hin.
    apply elem_of_possible_edges in Hin. rewrite dict_keys_empty_graph.
    simpl. rewrite !elem_of_range. lia.
Qed.

Lemma generated_graph_adjacent n l k j :
  l ⊆ possible_edges n →
  j ∈ neighbors (add_edges l (empty_graph n)) k ↔ (k, j) ∈ l ∨ (j, k) ∈ l.
Proof.
  intros Hl. rewrite elem_of_neighbors_add_edges.
  - rewrite neighbors_empty_graph, elem_of_empty. tauto.
  - intros [u v] Hin%Hl%elem_of_possible_edges.
    rewrite dict_keys_empty_graph. simpl. rewrite !elem_of_range. lia.
Qed.

Lemma generated_graph_edges n l :
  0 ≤ n → l ⊆ possible_edges n →
  edge_set (add_edges l (empty_graph n)) = list_to_set l.
Proof.
  intros Hn Hl. apply set_eq. intros [a b].
  rewrite elem_of_edge_set, generated_graph_adjacent, elem_of_list_to_set by
    (done || rewrite dict_keys_add_edges, dict_keys_empty_graph; apply NoDup_seqZ).
  split.
  - intros [Hlt [Hin|Hin%Hl%elem_of_possible_edges]]; [done|lia].
  - intros Hin. split; [|by left]. apply Hl, elem_of_possible_edges in Hin. lia.
Qed.

(** C1. For n >= 0 and 0 <= m <= n(n-1)/2, whatever permutation the
    shuffle produces, [generate_random_graph] returns a new graph object
    whose keys are exactly 0, ..., n-1 (isolated vertices included), with
    exactly m undirected edges, no self-loop and symmetric adjacency. *)
Theorem generate_random_graph_spec n m (w : W) :
  0 ≤ n → 0 ≤ m → m ≤ (n * (n - 1)) `div` 2 →
  ∃ g w',
    generate_random_graph shuffle n m w = (Ok (length (graphs w)), w')
    ∧ graphs w' = graphs w ++ [g]
    ∧ vectors w' = vectors w
    ∧ dict_keys g = range n
    ∧ edge_count g = Z.to_nat m
    ∧ loop_free g
    ∧ (∀ i j, j ∈ neighbors g i ↔ i ∈ neighbors g j).
Proof.
  intros Hn Hm Hmax.
  pose proof (generate_random_graph_run n m w (conj Hn (conj Hm Hmax))) as Hrun.
  pose proof (shuffle_perm (rng w) (possible_edges n)) as Hperm.
  destruct (shuffle (rng w) (possible_edges n)) as [l r]. simpl in Hperm.
  set (es := take (Z.to_nat m) l) in *.
  assert (es ⊆ possible_edges n) as Hsub.
  { intros e He%subseteq_take. by rewrite <- Hperm. }
  eexists _, _. split; [exact Hrun|]. split_and!; try done.
  - by rewrite dict_keys_add_edges, dict_keys_empty_graph.
  - unfold edge_count. rewrite generated_graph_edges by done.
    rewrite size_list_to_set.
    + unfold es. rewrite length_take_le; [done|].
      rewrite Hperm. pose proof (length_possible_edges n Hn). lia.
    + apply (sublist_NoDup _ l); [|apply sublist_take].
      rewrite Hperm. apply NoDup_possible_edges.
  - intros k Hk%generated_graph_adjacent; [|done].
    destruct Hk as [Hk|Hk]; apply Hsub, elem_of_possible_edges in Hk; lia.
  - intros i j. rewrite !generated_graph_adjacent by done. tauto.
Qed.

(** C3. [generate_random_graph] raises [ValueError] (the spec's
    InvalidArgument) if and only if n < 0, or m < 0, or m > n(n-1)/2; it
    raises nothing else and then leaves the world as it was; in all other
    cases it returns a graph. *)
Theorem generate_random_graph_errors n m (w : W) :
  ((generate_random_graph shuffle n m w).1 = Raise ValueError
     ↔ n < 0 ∨ m < 0 ∨ (n * (n - 1)) `div` 2 < m)
  ∧ (∀ e, (generate_random_graph shuffle n m w).1 = Raise e →
       e = ValueError ∧ (generate_random_graph shuffle n m w).2 = w)
  ∧ (¬ (n < 0 ∨ m < 0 ∨ (n * (n - 1)) `div` 2 < m) →
       is_Ok (generate_random_graph shuffle n m w).1).
Proof.
  destruct (decide (n < 0 ∨ m < 0 ∨ (n * (n - 1)) `div` 2 < m)) as [Hbad|Hgood].
  - assert (generate_random_graph shuffle n m w = (Raise ValueError, w)) as ->.
    { unfold generate_random_graph.
      destruct (Z.ltb_spec n 0); [done|]. destruct (Z.ltb_spec m 0); [done|].
      cbn [orb]. destruct (Z.ltb_spec ((n * (n - 1)) `div` 2) m); [done|lia]. }
    split_and!; [done| |done]. by intros e [= <-].
  - rewrite generate_random_graph_run by (unfold valid_arguments; lia).
    destruct (shuffle (rng w) (possible_edges n)) as [l r]. cbn [fst snd].
    split_and!; [|done|by eexists]. split; [done|tauto].
Qed.

End Generator.

(** ** One more edge *)

Lemma elem_of_neighbors_key (g : graph) i j : j ∈ neighbors g i → i ∈ dict_keys g.
Proof.
  unfold neighbors. intros Hj. apply elem_of_dict_keys.
  destruct (dict_lookup i g); [by eexists|]. by apply not_elem_of_empty in Hj.
Qed.

Lemma symmetric_closed (g : graph) : symmetric g → closed g.
Proof. intros Hsym i j Hj%Hsym. by eapply elem_of_neighbors_key. Qed.

Lemma elem_of_neighbors_link u v (g : graph) k j :
  u ∈ dict_keys g → v ∈ dict_keys g →
  j ∈ neighbors (link u v g) k
  ↔ j ∈ neighbors g k ∨ (k = u ∧ j = v) ∨ (k = v ∧ j = u).
Proof.
  intros Hu Hv. rewrite neighbors_link by done. rewrite !elem_of_union.
  destruct (decide (k = u)), (decide (k = v));
    rewrite ?elem_of_singleton, ?elem_of_empty; naive_solver.
Qed.

Lemma link_symmetric u v (g : graph) :
  u ∈ dict_keys g → v ∈ dict_keys g → symmetric g → symmetric (link u v g).
Proof.
  intros Hu Hv Hsym i j. rewrite !elem_of_neighbors_link by done.
  intros [Hj%Hsym|[[-> ->]|[-> ->]]]; auto.
Qed.

Lemma link_loop_free u v (g : graph) :
  u ∈ dict_keys g → v ∈ dict_keys g → u ≠ v → loop_free g → loop_free (link u v g).
Proof.
  intros Hu Hv Hne Hlf i. rewrite elem_of_neighbors_link by done.
  intros [Hi|[[-> ->]|[-> ->]]]; [by apply (Hlf i)|done..].
Qed.

Lemma link_edge_set u v (g : graph) :
  NoDup (dict_keys g) → u ∈ dict_keys g → v ∈ dict_keys g → u ≠ v →
  edge_set (link u v g) = {[ (Z.min u v, Z.max u v) ]} ∪ edge_set g.
Proof.
  intros Hnd Hu Hv Hne. apply set_eq. intros [a b].
  rewrite elem_of_union, elem_of_singleton, !elem_of_edge_set,
    elem_of_neighbors_link by (done || by rewrite dict_keys_link).
  split.
  - intros [Hlt [Hb|[[-> ->]|[-> ->]]]]; [by right|left; f_equal; lia..].
  - intros [[= -> ->]|[Hlt Hb]]; [|by auto].
    split; [lia|]. right. destruct (Z.min_spec u v) as [[? ->]|[? ->]],
      (Z.max_spec u v) as [[? ->]|[? ->]]; (lia || auto).
Qed.

Lemma link_edge_count u v (g : graph) :
  NoDup (dict_keys g) → symmetric g →
  u ∈ dict_keys g → v ∈ dict_keys g → u ≠ v → v ∉ neighbors g u →
  edge_count (link u v g) = S (edge_count g).
Proof.
  intros Hnd Hsym Hu Hv Hne Hnew. unfold edge_count.
  rewrite link_edge_set by done. rewrite size_union, size_singleton; [done|].
  apply disjoint_singleton_l. rewrite elem_of_edge_set by done.
  intros [Hlt Hadj]. apply Hnew.
  destruct (Z.min_spec u v) as [[? Hmin]|[? Hmin]],
    (Z.max_spec u v) as [[? Hmax]|[? Hmax]]; rewrite Hmin, Hmax in *; try lia.
  - done.
  - by apply Hsym.
Qed.

(** ** The edge prompt *)

Section Handler.

Context {R : Type} `{ScoreArith R} {Rng : Type}.
Local Abbreviation W := (world R Rng).

Lemma check_edge_run gr g n i j (w : W) :
  graphs w !! gr = Some g →
  vertex_set g n →
  check_edge gr n i j w = (Ok (verdict_of g n i j), w).
Proof.
  intros Hg Hv. unfold check_edge, verdict_of.
  destruct (decide (0 ≤ i < n ∧ 0 ≤ j < n)) as [Hr|Hr].
  - destruct (Z.leb_spec 0 i), (Z.ltb_spec i n), (Z.leb_spec 0 j), (Z.ltb_spec j n);
      try lia. cbn [andb negb].
    destruct (Z.eqb_spec i j) as [->|Hne].
    + by rewrite decide_True.
    + rewrite decide_False by done.
      rewrite (bind_graph_getitem _ _ _ _ g) by done.
      assert (i ∈ dict_keys g) as [s Hs]%elem_of_dict_keys
        by (apply (vertex_set_elem_of _ n); [done|lia]).
      unfold neighbors. rewrite Hs. simpl. by destruct (decide (j ∈ s)).
  - destruct (Z.leb_spec 0 i), (Z.ltb_spec i n), (Z.leb_spec 0 j), (Z.ltb_spec j n);
      try lia; done.
Qed.

Lemma read_edge_spec gr g n pending : ∀ (w : W) r w',
  graphs w !! gr = Some g →
  vertex_set g n →
  stdin w = pending →
  read_edge gr n pending w = (r, w') →
  same_store w w'
  ∧ ∀ i j, r = Ok (i, j) → Pair i j ∈ pending ∧ verdict_of g n i j = Accepted.
Proof.
  induction pending as [|l rest IH]; intros w r w' Hg Hv Hin Hrun.
  - cbn [read_edge] in Hrun. unfold bind, print, input in Hrun.
    simpl in Hrun. rewrite Hin in Hrun. by simplify_eq.
  - cbn [read_edge] in Hrun. unfold bind at 1, print at 1 in Hrun.
    unfold bind at 1, input in Hrun. simpl in Hrun. rewrite Hin in Hrun.
    set (w1 := with_stdin rest (with_stdout (stdout w ++ [PrintPrompt (n - 1)]) w)) in *.
    assert (∀ (e : event R) r0 w0,
      (print e ;;; read_edge gr n rest) w1 = (r0, w0) →
      same_store w w0
      ∧ ∀ i j, r0 = Ok (i, j) → Pair i j ∈ l :: rest ∧ verdict_of g n i j = Accepted)
      as Hagain.
    { intros e r0 w0 Hrun0. unfold bind at 1, print in Hrun0.
      apply IH in Hrun0 as [Hs Hr]; [|done..].
      split; [done|]. intros i j Hij. destruct (Hr i j Hij) as [? ?].
      split; [by right|done]. }
    destruct l as [i j|].
    + unfold bind at 1 in Hrun. rewrite (check_edge_run _ g) in Hrun by done.
      destruct (verdict_of g n i j) eqn:Hverdict; try by eapply Hagain.
      unfold ret in Hrun. simplify_eq. split; [done|].
      intros i' j' [= <- <-]. split; [by left|done].
    + by eapply Hagain.
Qed.

Lemma bind_Ok_inv {A B} (c : M W A) (k : A → M W B) (w : W) b w' :
  (let* a := c in k a) w = (Ok b, w') →
  ∃ a w1, c w = (Ok a, w1) ∧ k a w1 = (Ok b, w').
Proof.
  unfold bind. destruct (c w) as [[a|e] w1]; [|done]. intros Hk. by exists a, w1.
Qed.

Lemma link_run_at gr u v (w : W) g :
  graphs w !! gr = Some g →
  u ∈ dict_keys g → v ∈ dict_keys g →
  (graph_add gr u v ;;; graph_add gr v u) w = (Ok (), store_graph gr (link u v g) w).
Proof.
  intros Hg Hu Hv. rewrite <- (store_graph_id gr g w Hg) at 1.
  apply link_run; [|done..]. by apply lookup_lt_Some in Hg.
Qed.


Variable iter : Z → gset Z → list Z.

Lemma compute_next_scores_graphs gr cs (w : W) :
  graphs (compute_next_scores iter gr cs w).2 = graphs w.
Proof.
  rewrite compute_next_scores_run.
  destruct (graphs w !! gr) as [g|]; [|done].
  destruct (prior_value w (length g) cs) as [x|]; [|done].
  by destruct (next_scores iter g x).
Qed.

Lemma display_graph_state_graphs gr sr t (w : W) :
  graphs (display_graph_state gr sr t w).2 = graphs w.
Proof.
  unfold display_graph_state, bind at 1, print at 1. unfold bind at 1, read_graph.
  cbn [graphs with_stdout fst snd].
  destruct (graphs w !! gr) as [g|]; [|done].
  destruct (decide (g = [])); [done|].
  set (w1 := with_stdout _ w). change (graphs w) with (graphs w1).
  unfold bind at 1.
  pose proof (for_each_keeps (λ w' : W, graphs w' = graphs w1)
    (merge_sort Z.le (dict_keys g))
    (λ node, let* score := vector_getitem sr node in
             let* s := graph_getitem gr node in
             let neighbors := merge_sort Z.le (elements s) in
             print (PrintNode node score neighbors))) as Hkeep.
  cbv beta in Hkeep. specialize (Hkeep) with (w := w1).
  destruct (for_each _ _ w1) as [[[]|e] w2]; simpl in *; apply Hkeep; try done.
  all: intros node w' _ Hw'; rewrite <- Hw';
    unfold vector_getitem, graph_getitem, read_vector, read_graph, bind, lift, print,
      ret, raise;
    repeat (case_match; simplify_eq/=; try done).
Qed.

(** C5. When [handle_user_edge_addition] returns on a graph with vertices
    0..n-1, symmetric adjacency and no self-loop, either n < 2 and nothing
    was changed, or one pair (i, j) read from the input was added to the
    same graph object: j is now a neighbour of i and i of j, the other
    neighbour sets and the vertex set are as before, there is exactly one
    more edge, and adjacency is still symmetric and loop-free. *)
Theorem handle_user_edge_addition_adds gr cs g n (w : W) r w' :
  graphs w !! gr = Some g →
  vertex_set g n →
  symmetric g →
  loop_free g →
  handle_user_edge_addition iter gr cs w = (Ok r, w') →
  (n < 2 ∧ r = (gr, cs) ∧ graphs w' = graphs w)
  ∨ ∃ i j g',
      2 ≤ n ∧ Pair i j ∈ stdin w ∧ r.1 = gr ∧ graphs w' !! gr = Some g'
      ∧ (0 ≤ i < n ∧ 0 ≤ j < n) ∧ i ≠ j ∧ (j ∉ neighbors g i)
      ∧ neighbors g' i = neighbors g i ∪ {[j]}
      ∧ neighbors g' j = neighbors g j ∪ {[i]}
      ∧ (∀ k, k ≠ i → k ≠ j → neighbors g' k = neighbors g k)
      ∧ dict_keys g' = dict_keys g
      ∧ edge_count g' = S (edge_count g)
      ∧ symmetric g' ∧ loop_free g'.
Proof.
  intros Hg Hv Hsym Hlf Hrun.
  pose proof (vertex_set_length _ _ Hv) as Hlen.
  unfold handle_user_edge_addition in Hrun.
  apply bind_Ok_inv in Hrun as (g0 & w0 & Hread & Hrun).
  unfold read_graph in Hread. rewrite Hg in Hread. simplify_eq.
  destruct (Z.ltb_spec (Z.of_nat (length g0)) 2) as [Hsmall|Hbig].
  { left. unfold bind, print, ret in Hrun. simplify_eq. split_and!; [lia|done..]. }
  right.
  apply bind_Ok_inv in Hrun as ([i j] & w1 & Hedge & Hrun).
  apply read_edge_spec with (g := g0) in Hedge as [[Hg1 Hv1] Hacc];
    [|done| |done].
  2:{ assert (n = Z.of_nat (length g0)) as <- by lia. done. }
  destruct (Hacc i j eq_refl) as [Hin Hverdict].
  unfold verdict_of in Hverdict.
  destruct (decide (0 ≤ i < Z.of_nat (length g0) ∧ 0 ≤ j < Z.of_nat (length g0)))
    as [Hr|]; [|done].
  destruct (decide (i = j)) as [|Hne]; [done|].
  destruct (decide (j ∈ neighbors g0 i)) as [|Hnew]; [done|]. clear Hverdict Hacc.
  assert (n = Z.of_nat (length g0)) as Hn by lia. rewrite <- Hn in *.
  assert (i ∈ dict_keys g0) as Hi by (apply (vertex_set_elem_of _ n); [done|lia]).
  assert (j ∈ dict_keys g0) as Hj by (apply (vertex_set_elem_of _ n); [done|lia]).
  apply bind_Ok_inv in Hrun as ([] & w2 & Hadd1 & Hrun).
  apply bind_Ok_inv in Hrun as ([] & w3 & Hadd2 & Hrun).
  assert (w3 = store_graph gr (link i j g0) w1) as ->.
  { pose proof (link_run_at gr i j w1 g0) as Hlink.
    rewrite Hg1 in Hlink. specialize (Hlink Hg Hi Hj).
    unfold bind in Hlink. rewrite Hadd1, Hadd2 in Hlink. by simplify_eq. }
  apply bind_Ok_inv in Hrun as ([] & w4 & Hprint & Hrun).
  unfold print in Hprint. simplify_eq.
  apply bind_Ok_inv in Hrun as (sr & w5 & Hscore & Hrun).
  apply bind_Ok_inv in Hrun as ([] & w6 & Hshow & Hrun).
  unfold ret in Hrun. simplify_eq.
  exists i, j, (link i j g0). split_and!; try done; try lia.
  - pose proof (display_graph_state_graphs gr sr (AfterAddingEdge i j) w5) as Hg6.
    rewrite Hshow in Hg6. simpl in Hg6. rewrite Hg6.
    pose proof (compute_next_scores_graphs gr cs
      (with_stdout (stdout (store_graph gr (link i j g0) w1) ++ [PrintAdded i j])
         (store_graph gr (link i j g0) w1))) as Hg5.
    rewrite Hscore in Hg5. simpl in Hg5. rewrite Hg5.
    apply list_lookup_insert_eq. rewrite Hg1. by apply lookup_lt_Some in Hg.
  - rewrite neighbors_link by done.
    rewrite decide_True, decide_False by done. set_solver.
  - rewrite neighbors_link by done.
    rewrite decide_False, decide_True by done. set_solver.
  - intros k Hki Hkj. rewrite neighbors_link by done.
    rewrite !decide_False by done. set_solver.
  - apply dict_keys_link.
  - apply link_edge_count; try done. by eapply vertex_set_NoDup.
  - by apply link_symmetric.
  - by apply link_loop_free.
Qed.

End Handler.

(** ** Sums in exact arithmetic *)

Section ExactSums.

Context {R : Type} `{ExactArith R}.
Implicit Types (a b c : R) (l : list R).

Lemma sadd_zero_r a : sadd a szero = a.
Proof. by rewrite sadd_comm, sadd_zero_l. Qed.

Lemma foldl_sadd l : ∀ a, foldl sadd a l = sadd a (vsum l).
Proof.
  unfold vsum. induction l as [|b l IH]; intros a; simpl.
  - by rewrite sadd_zero_r.
  - rewrite (IH (sadd a b)), (IH (sadd szero b)), sadd_zero_l. by rewrite sadd_assoc.
Qed.

Lemma vsum_nil : vsum (@nil R) = szero.
Proof. done. Qed.

Lemma vsum_cons a l : vsum (a :: l) = sadd a (vsum l).
Proof. unfold vsum at 1. simpl. by rewrite foldl_sadd, sadd_zero_l. Qed.

Lemma vsum_Permutation l l' : l ≡ₚ l' → vsum l = vsum l'.
Proof.
  induction 1 as [|a l l' _ IH|a b l|l1 l2 l3 _ IH1 _ IH2].
  - done.
  - by rewrite !vsum_cons, IH.
  - rewrite !vsum_cons, !sadd_assoc. by rewrite (sadd_comm b a).
  - congruence.
Qed.

Lemma vsum_fmap_add {A} (f h : A → R) (l : list A) :
  vsum ((λ i, sadd (f i) (h i)) <$> l) = sadd (vsum (f <$> l)) (vsum (h <$> l)).
Proof.
  induction l as [|i l IH].
  - by rewrite !fmap_nil, vsum_nil, sadd_zero_l.
  - rewrite !fmap_cons, !vsum_cons, IH, !sadd_assoc. f_equal.
    rewrite <- !sadd_assoc. f_equal. apply sadd_comm.
Qed.

Lemma vsum_fmap_zero {A} (l : list A) : vsum ((λ _, szero) <$> l) = (szero : R).
Proof.
  induction l as [|i l IH]; [done|]. by rewrite fmap_cons, vsum_cons, IH, sadd_zero_l.
Qed.

(** The order of two nested sums does not matter. *)
Lemma vsum_exchange {A B} (h : A → B → R) (l1 : list A) (l2 : list B) :
  vsum ((λ i, vsum ((λ j, h i j) <$> l2)) <$> l1)
  = vsum ((λ j, vsum ((λ i, h i j) <$> l1)) <$> l2).
Proof.
  induction l1 as [|i l1 IH].
  - by rewrite fmap_nil, vsum_nil, vsum_fmap_zero.
  - rewrite fmap_cons, vsum_cons, IH, <- vsum_fmap_add. f_equal.
    apply list_fmap_ext. intros _ j _. by rewrite fmap_cons, vsum_cons.
Qed.

Lemma vsum_filter {A} (P : A → Prop) `{∀ i, Decision (P i)} (f : A → R) (l : list A) :
  vsum (f <$> filter P l) = vsum ((λ i, if decide (P i) then f i else szero) <$> l).
Proof.
  induction l as [|i l IH]; [done|].
  rewrite filter_cons, fmap_cons, vsum_cons, <- IH.
  destruct (decide (P i)); by rewrite ?fmap_cons, ?vsum_cons, ?sadd_zero_l.
Qed.

Lemma vsum_fmap_const {A} (c : R) (l : list A) :
  vsum ((λ _, c) <$> l) = repeat_add (length l) c.
Proof.
  induction l as [|i l IH]; [done|]. rewrite fmap_cons. simpl. by rewrite vsum_cons, IH, sadd_comm.
Qed.

End ExactSums.

(** ** Conservation of the total score *)

Section Conservation.

Context {R : Type} `{ExactArith R} {Rng : Type}.
Variable iter : Z → gset Z → list Z.
Hypothesis iter_perm : ∀ i s, iter i s ≡ₚ elements s.
Local Abbreviation W := (world R Rng).

Implicit Types (g : graph) (x : list R).

Lemma contributions_indicator g x n i :
  vertex_set g n → closed g →
  vsum (contributions g x (iter i (neighbors g i)))
  = vsum ((λ j, if decide (j ∈ neighbors g i ∧ 0 < degree g j)
                then share g x j else szero) <$> range n).
Proof.
  intros Hv Hc. rewrite <- (vsum_filter (λ j, j ∈ neighbors g i ∧ 0 < degree g j)).
  apply vsum_Permutation. unfold contributions. apply fmap_Permutation.
  apply NoDup_Permutation.
  - apply NoDup_filter. rewrite iter_perm. apply NoDup_elements.
  - apply NoDup_filter, NoDup_seqZ.
  - intros j. rewrite !list_elem_of_filter, elem_of_iter by done.
    split; [|tauto]. intros [Hpos Hj]. split_and!; [done..|].
    apply elem_of_range, (vertex_set_elem_of g n); [done|]. by apply (Hc i).
Qed.

Lemma received_shares g x n j :
  vertex_set g n → symmetric g →
  vsum ((λ i, if decide (j ∈ neighbors g i ∧ 0 < degree g j)
              then share g x j else szero) <$> range n)
  = if decide (1 ≤ degree g j) then score_at x j else szero.
Proof.
  intros Hv Hsym.
  rewrite <- (vsum_filter (λ i, j ∈ neighbors g i ∧ 0 < degree g j) (λ _, share g x j)).
  rewrite vsum_fmap_const.
  destruct (decide (1 ≤ degree g j)) as [Hpos|Hzero].
  - assert (filter (λ i, j ∈ neighbors g i ∧ 0 < degree g j) (range n)
            ≡ₚ elements (neighbors g j)) as ->.
    { apply NoDup_Permutation.
      - apply NoDup_filter, NoDup_seqZ.
      - apply NoDup_elements.
      - intros i. rewrite list_elem_of_filter, elem_of_elements. split.
        + intros [[Hj _] _]. by apply Hsym.
        + intros Hi. split_and!; [by apply Hsym|lia|].
          apply elem_of_range, (vertex_set_elem_of g n); [done|].
          by apply (symmetric_closed g Hsym j). }
    replace (length (elements (neighbors g j))) with (Z.to_nat (degree g j))
      by (unfold degree; by rewrite Nat2Z.id).
    apply sdiv_shares. lia.
  - destruct (filter _ _) as [|i l] eqn:Hf; [done|].
    assert (i ∈ filter (λ i, j ∈ neighbors g i ∧ 0 < degree g j) (range n)) as Hi
      by (rewrite Hf; by left).
    apply list_elem_of_filter in Hi as [[_ ?] _]. lia.
Qed.

Lemma conservation g x n y :
  vertex_set g n → symmetric g → 0 ≤ n →
  length y = Z.to_nat n →
  (∀ i, 0 ≤ i < n →
     y !! Z.to_nat i = Some (vsum (contributions g x (iter i (neighbors g i))))) →
  vsum y = vsum (connected_scores g x).
Proof.
  intros Hv Hsym Hn Hlen Hy.
  assert (y = (λ i, vsum (contributions g x (iter i (neighbors g i)))) <$> range n)
    as ->.
  { apply list_eq. intros k. rewrite list_lookup_fmap. unfold range.
    destruct (decide (Z.of_nat k < n)) as [Hk|Hk].
    - rewrite lookup_seqZ_lt by done. simpl.
      rewrite <- (Nat2Z.id k) at 1. rewrite Hy by lia. by rewrite Z.add_0_l.
    - rewrite lookup_seqZ_ge by lia. apply lookup_ge_None. lia. }
  erewrite list_fmap_ext.
  2:{ intros _ i _. apply (contributions_indicator g x n i); [done|].
      by apply symmetric_closed. }
  rewrite vsum_exchange.
  erewrite list_fmap_ext.
  2:{ intros _ j _. by apply (received_shares g x n j). }
  rewrite <- (vsum_filter (λ j, 1 ≤ degree g j) (score_at x)).
  unfold connected_scores. apply vsum_Permutation, fmap_Permutation.
  apply filter_Permutation. symmetry. exact Hv.
Qed.

End Conservation.

(** ** Checking the invariants of a given graph *)

Lemma symmetric_items_sound (g : graph) : symmetric_items g → symmetric g.
Proof.
  intros Hall i j Hj. unfold neighbors in Hj.
  destruct (dict_lookup i g) as [s|] eqn:Hs; [|by apply not_elem_of_empty in Hj].
  apply dict_lookup_elem_of in Hs.
  unfold symmetric_items in Hall. rewrite Forall_forall in Hall.
  by apply (Hall (i, s) Hs j).
Qed.

Lemma loop_free_items_sound (g : graph) : loop_free_items g → loop_free g.
Proof.
  intros Hall i Hi. unfold neighbors in Hi.
  destruct (dict_lookup i g) as [s|] eqn:Hs; [|by apply not_elem_of_empty in Hi].
  apply dict_lookup_elem_of in Hs.
  unfold loop_free_items in Hall. rewrite Forall_forall in Hall.
  by apply (Hall (i, s) Hs).
Qed.

Lemma kite_symmetric : symmetric kite.
Proof. apply symmetric_items_sound. apply (bool_decide_unpack _). vm_compute. exact I. Qed.
Lemma kite_loop_free : loop_free kite.
Proof. apply loop_free_items_sound. apply (bool_decide_unpack _). by vm_compute. Qed.
Lemma kite_vertex_set : vertex_set kite 4.
Proof. by unfold vertex_set. Qed.

Lemma ascending_perm i s : ascending i s ≡ₚ elements s.
Proof. unfold ascending. apply merge_sort_Permutation. Qed.

(** ** Exact rationals *)

Lemma Qc_of_nat_succ (k : nat) :
  Q2Qc (inject_Z (Z.of_nat (S k))) = (Q2Qc (inject_Z (Z.of_nat k)) + 1)%Qc.
Proof.
  apply Qc_is_canon. simpl. rewrite !Qred_correct.
  rewrite Nat2Z.inj_succ. unfold Z.succ. rewrite inject_Z_plus. reflexivity.
Qed.

Lemma repeat_add_Qc (k : nat) (a : Qc) :
  repeat_add k a = (Q2Qc (inject_Z (Z.of_nat k)) * a)%Qc.
Proof.
  induction k as [|k IH].
  - symmetry. apply Qcmult_0_l.
  - cbn [repeat_add]. rewrite IH, Qc_of_nat_succ.
    by rewrite Qcmult_plus_distr_l, Qcmult_1_l.
Qed.

#[global] Instance exact_arith_laws : ExactArith Qc.
Proof.
  split.
  - intros a b. apply Qcplus_comm.
  - intros a b c. apply Qcplus_assoc.
  - intros a. apply Qcplus_0_l.
  - intros a d Hd. rewrite repeat_add_Qc, Z2Nat.id by lia. simpl.
    apply Qcmult_div_r. intros Hz. apply (f_equal this) in Hz. simpl in Hz.
    assert (inject_Z d == 0)%Q as Hq.
    { rewrite <- (Qred_correct (inject_Z d)), Hz. reflexivity. }
    unfold Qeq in Hq. simpl in Hq. lia.
Qed.

(** ** Two fixed points in binary64 *)

Section FixedPoints.

Context {Rng : Type}.
Variable iter : Z → gset Z → list Z.
Hypothesis iter_perm : ∀ i s, iter i s ≡ₚ elements s.
Local Abbreviation W := (world Binary64.float Rng).

Lemma iter_singleton i (a : Z) : iter i {[a]} = [a].
Proof.
  apply Permutation_singleton_r. by rewrite iter_perm, elements_singleton.
Qed.

Lemma iter_pair i (a b : Z) :
  a ≠ b → iter i {[a; b]} = [a; b] ∨ iter i {[a; b]} = [b; a].
Proof.
  intros Hne. apply Permutation_length_2_inv. rewrite iter_perm.
  rewrite elements_disj_union by set_solver. by rewrite !elements_singleton.
Qed.

Lemma two_entries {A} (y : list A) a b :
  length y = 2%nat → y !! 0%nat = Some a → y !! 1%nat = Some b → y = [a; b].
Proof.
  destruct y as [|a' [|b' [|? ?]]]; intros Hlen Ha Hb; simplify_eq/=. done.
Qed.

Lemma three_entries {A} (y : list A) a b c :
  length y = 3%nat → y !! 0%nat = Some a → y !! 1%nat = Some b → y !! 2%nat = Some c →
  y = [a; b; c].
Proof.
  destruct y as [|a' [|b' [|c' [|? ?]]]]; intros Hlen Ha Hb Hc; simplify_eq/=. done.
Qed.

Lemma single_edge_scores (w : W) gr c :
  graphs w !! gr = Some single_edge →
  vectors w !! c = Some (ones 2) →
  ∃ yr w',
    compute_next_scores iter gr (Some c) w = (Ok yr, w')
    ∧ vectors w' !! yr = Some (ones 2).
Proof.
  intros Hg Hc.
  destruct (compute_next_scores_value iter w gr (Some c) single_edge 2 (ones 2)
    iter_perm Hg) as (yr & w' & y & Hrun & Hy & Hlen & Hval);
    [by unfold vertex_set
    |by apply symmetric_closed, symmetric_items_sound, (bool_decide_unpack _)
    |exact Hc|reflexivity|].
  exists yr, w'. split; [done|]. rewrite Hy. f_equal.
  apply two_entries; [done|..].
  - change 0%nat with (Z.to_nat 0). rewrite Hval by lia. f_equal.
    change (neighbors single_edge 0) with ({[1]} : gset Z).
    rewrite iter_singleton. by vm_compute.
  - change 1%nat with (Z.to_nat 1). rewrite Hval by lia. f_equal.
    change (neighbors single_edge 1) with ({[0]} : gset Z).
    rewrite iter_singleton. by vm_compute.
Qed.

Lemma triangle_scores (w : W) gr c :
  graphs w !! gr = Some triangle →
  vectors w !! c = Some (ones 3) →
  ∃ yr w',
    compute_next_scores iter gr (Some c) w = (Ok yr, w')
    ∧ vectors w' !! yr = Some (ones 3).
Proof.
  intros Hg Hc.
  destruct (compute_next_scores_value iter w gr (Some c) triangle 3 (ones 3)
    iter_perm Hg) as (yr & w' & y & Hrun & Hy & Hlen & Hval);
    [by unfold vertex_set
    |by apply symmetric_closed, symmetric_items_sound, (bool_decide_unpack _)
    |exact Hc|reflexivity|].
  exists yr, w'. split; [done|]. rewrite Hy. f_equal.
  apply three_entries; [done|..].
  - change 0%nat with (Z.to_nat 0). rewrite Hval by lia. f_equal.
    change (neighbors triangle 0) with ({[1; 2]} : gset Z).
    destruct (iter_pair 0 1 2) as [-> | ->]; [done|by vm_compute..].
  - change 1%nat with (Z.to_nat 1). rewrite Hval by lia. f_equal.
    change (neighbors triangle 1) with ({[0; 2]} : gset Z).
    destruct (iter_pair 1 0 2) as [-> | ->]; [done|by vm_compute..].
  - change 2%nat with (Z.to_nat 2). rewrite Hval by lia. f_equal.
    change (neighbors triangle 2) with ({[0; 1]} : gset Z).
    destruct (iter_pair 2 0 1) as [-> | ->]; [done|by vm_compute..].
Qed.

(** C8. The all-ones vector is a fixed point on the two instances: on the
    graph with two vertices and the edge {0,1} the prior [1.0, 1.0] gives
    [1.0, 1.0], and on the complete graph with three vertices the prior
    [1.0, 1.0, 1.0] gives [1.0, 1.0, 1.0]; in binary64, whatever the order
    in which the neighbour sets are visited. *)
Theorem all_ones_fixed_point (w : W) gr c :
  (graphs w !! gr = Some single_edge →
   vectors w !! c = Some (ones 2) →
   ∃ yr w',
     compute_next_scores iter gr (Some c) w = (Ok yr, w')
     ∧ vectors w' !! yr = Some (ones 2))
  ∧ (graphs w !! gr = Some triangle →
     vectors w !! c = Some (ones 3) →
     ∃ yr w',
       compute_next_scores iter gr (Some c) w = (Ok yr, w')
       ∧ vectors w' !! yr = Some (ones 3)).
Proof. split; [apply single_edge_scores|apply triangle_scores]. Qed.

End FixedPoints.

(** ** Conservation where nothing is rounded *)

Lemma vertex_set_length_id g n :
  vertex_set g n → vertex_set g (Z.of_nat (length g)).
Proof.
  intros Hv. pose proof (vertex_set_length _ _ Hv) as Hlen.
  destruct (decide (0 ≤ n)); [by replace (Z.of_nat (length g)) with n by lia|].
  unfold vertex_set, range in *. rewrite Hlen.
  replace (Z.max 0 n) with 0 by lia. 
  unfold seqZ in *. by rewrite Z2Nat.nonpos in Hv by lia.
Qed.

Lemma Q2Qc_plus (p q : Q) : Q2Qc (p + q) = (Q2Qc p + Q2Qc q)%Qc.
Proof. apply Qc_is_canon. simpl. by rewrite !Qred_correct. Qed.

Lemma Q2Qc_div (p q : Q) : Q2Qc (p / q) = (Q2Qc p / Q2Qc q)%Qc.
Proof.
  apply Qc_is_canon. unfold Qcdiv, Qcmult, Qcinv. simpl.
  rewrite !Qred_correct. reflexivity.
Qed.

Lemma Q2Qc_Qeq (p q : Q) : (p == q)%Q → Q2Qc p = Q2Qc q.
Proof. intros Heq. apply Qc_is_canon. simpl. by rewrite !Qred_correct. Qed.

Lemma exact_add_sound a b :
  exact_add a b = true → exact_value (sadd a b) = (exact_value a + exact_value b)%Qc.
Proof.
  unfold exact_add, exact_value.
  destruct (float_value a) as [p|]; [|done].
  destruct (float_value b) as [q|]; [|done].
  destruct (float_value (sadd a b)) as [r|]; [|done].
  intros Heq%Qeq_bool_eq. simpl. rewrite <- Q2Qc_plus. by apply Q2Qc_Qeq.
Qed.

Lemma exact_div_sound x d :
  exact_div x d = true → exact_value (sdiv x d) = sdiv (exact_value x) d.
Proof.
  unfold exact_div, exact_value.
  destruct (float_value x) as [p|]; [|done].
  destruct (float_value (sdiv x d)) as [r|]; [|done].
  intros Heq%Qeq_bool_eq. simpl. rewrite <- Q2Qc_div. by apply Q2Qc_Qeq.
Qed.

Lemma exact_accumulation_sound l : ∀ acc,
  exact_accumulation acc l = true →
  exact_value (foldl sadd acc l) = foldl sadd (exact_value acc) (exact_value <$> l).
Proof.
  induction l as [|t l IH]; intros acc Hl; [done|].
  cbn [exact_accumulation] in Hl. apply andb_true_iff in Hl as [Ht Hl].
  rewrite fmap_cons. cbn [foldl]. rewrite IH by done.
  by rewrite exact_add_sound.
Qed.

Lemma exact_szero : exact_value szero = szero.
Proof. apply Qc_is_canon. reflexivity. Qed.

Lemma score_at_exact (x : list Binary64.float) j :
  score_at (exact_value <$> x) j = exact_value (score_at x j).
Proof.
  unfold score_at, list_getitem. rewrite length_fmap.
  destruct (py_index (length x) j) as [k|]; cbn [mbind option_bind default];
    [|symmetry; apply exact_szero].
  rewrite list_lookup_fmap.
  destruct (x !! k); cbn [fmap option_fmap option_map default];
    [done|symmetry; apply exact_szero].
Qed.

Lemma unrounded_entry iter (g : graph) x i :
  unrounded iter g x = true → i ∈ dict_keys g →
  exact_value (vsum (contributions g x (iter i (neighbors g i))))
  = vsum (contributions g (exact_value <$> x) (iter i (neighbors g i))).
Proof.
  intros Hall Hi. unfold unrounded in Hall.
  rewrite forallb_forall in Hall.
  specialize (Hall i). rewrite <- list_elem_of_In in Hall. specialize (Hall Hi).
  cbv zeta in Hall. apply andb_true_iff in Hall as [Hdiv Hacc].
  unfold vsum at 1. rewrite exact_accumulation_sound, exact_szero by done.
  unfold vsum. f_equal. unfold contributions.
  rewrite <- list_fmap_compose. apply list_fmap_ext.
  intros k j Hj%list_elem_of_lookup_2. unfold compose.
  rewrite forallb_forall in Hdiv. rewrite exact_div_sound, score_at_exact; [done|].
  apply Hdiv. by apply list_elem_of_In.
Qed.

Section Unrounded.

Context {Rng : Type}.
Variable iter : Z → gset Z → list Z.
Hypothesis iter_perm : ∀ i s, iter i s ≡ₚ elements s.

(** C9, where nothing is rounded.  For a graph with symmetric adjacency on
    the vertices 0..n-1 and a prior of matching length, if no division and
    no addition of the update rounds, the values of the entries of the
    updated vector add up to the sum of the values of the prior scores of
    the vertices of degree at least 1. *)
Theorem score_conservation_unrounded (w : world Binary64.float Rng) gr cs g n x :
  graphs w !! gr = Some g →
  vertex_set g n →
  symmetric g →
  prior_value w (length g) cs = Some x →
  length x = length g →
  unrounded iter g x = true →
  ∃ yr w' y,
    compute_next_scores iter gr cs w = (Ok yr, w')
    ∧ vectors w' !! yr = Some y
    ∧ exact_sum y = exact_sum (connected_scores g x).
Proof.
  intros Hg Hv0 Hsym Hx Hlen Hexact.
  pose proof (vertex_set_length_id _ _ Hv0) as Hv.
  destruct (compute_next_scores_value iter w gr cs g _ x iter_perm Hg Hv)
    as (yr & w' & y & Hrun & Hy & Hleny & Hval);
    [by apply symmetric_closed|done..|].
  exists yr, w', y. split_and!; [done..|].
  unfold exact_sum.
  rewrite (conservation iter iter_perm g (exact_value <$> x) (Z.of_nat (length g))
             (exact_value <$> y)); [|done|done|lia|rewrite length_fmap; lia|].
  - f_equal. unfold connected_scores. rewrite <- list_fmap_compose.
    apply list_fmap_ext. intros k j _. unfold compose. apply score_at_exact.
  - intros i Hi. rewrite list_lookup_fmap, Hval by done. simpl. f_equal.
    apply unrounded_entry; [done|]. by apply (vertex_set_elem_of _ _ _ Hv).
Qed.

End Unrounded.

(** ** More on the generator *)

Lemma degree_sum_alter (f : gset Z → gset Z) k (g : graph) s :
  dict_lookup k g = Some s →
  (degree_sum (dict_alter f k g) + size s = degree_sum g + size (f s))%nat.
Proof.
  unfold degree_sum. induction g as [|[k' s'] g IH]; [done|].
  cbn [dict_lookup dict_alter].
  destruct (decide (k = k')) as [->|Hne]; rewrite !fmap_cons; cbn [sum_list_with snd].
  - intros [= ->]. unfold id in *. lia.
  - intros Hs. specialize (IH Hs). unfold id in *. lia.
Qed.

Lemma degree_sum_link u v (g : graph) :
  u ∈ dict_keys g → v ∈ dict_keys g → u ≠ v →
  v ∉ neighbors g u → u ∉ neighbors g v →
  degree_sum (link u v g) = (degree_sum g + 2)%nat.
Proof.
  intros [su Hu]%elem_of_dict_keys [sv Hv]%elem_of_dict_keys Hne Hvu Huv.
  unfold neighbors in Hvu, Huv. rewrite Hu in Hvu. rewrite Hv in Huv. simpl in *.
  unfold link.
  pose proof (degree_sum_alter (λ s, {[v]} ∪ s) u g su Hu) as H1.
  assert (dict_lookup v (dict_alter (λ s, {[v]} ∪ s) u g) = Some sv) as Hv'.
  { rewrite dict_lookup_alter. by rewrite decide_False. }
  pose proof (degree_sum_alter (λ s, {[u]} ∪ s) v _ sv Hv') as H2.
  rewrite !size_union, !size_singleton in H1, H2 by set_solver. lia.
Qed.

Lemma degree_sum_add_edges l : ∀ g : graph,
  NoDup l →
  (∀ u v, (u, v) ∈ l →
     u < v ∧ u ∈ dict_keys g ∧ v ∈ dict_keys g
     ∧ (v ∉ neighbors g u) ∧ (u ∉ neighbors g v)) →
  degree_sum (add_edges l g) = (degree_sum g + 2 * length l)%nat.
Proof.
  induction l as [|[u v] l IH]; intros g Hnd Hl; [simpl; lia|].
  apply NoDup_cons in Hnd as [Hnew Hnd].
  destruct (Hl u v) as (Huv & Hu & Hv & Hvu & Huv'); [by left|].
  unfold add_edges in *. cbn [foldl fst snd length].
  rewrite IH; [rewrite degree_sum_link by (done || lia); lia|done|].
  intros u' v' Hin. destruct (Hl u' v') as (Hlt & Hu' & Hv' & Hvu' & Huv''); [by right|].
  rewrite !dict_keys_link, !elem_of_neighbors_link by done.
  split_and!; [done..| |].
  - intros [?|[[-> ->]|[-> ->]]]; [done|done|lia].
  - intros [?|[[-> ->]|[-> ->]]]; [done|lia|done].
Qed.

Lemma degree_sum_empty_graph n : degree_sum (empty_graph n) = 0%nat.
Proof.
  unfold degree_sum, empty_graph. induction (range n) as [|i l IH]; [done|].
  rewrite !fmap_cons. cbn [sum_list_with snd]. unfold id at 2.
  rewrite size_empty. exact IH.
Qed.

Section GeneratorMore.

Context {R : Type} `{ScoreArith R} {Rng : Type}.
Variable shuffle : Rng → list (Z * Z) → list (Z * Z) * Rng.
Hypothesis shuffle_perm : ∀ r l, (shuffle r l).1 ≡ₚ l.
Local Abbreviation W := (world R Rng).

Lemma generated_graph_lookup n m (w : W) :
  valid_arguments n m →
  let l := (shuffle (rng w) (possible_edges n)).1 in
  let w' := (generate_random_graph shuffle n m w).2 in
  (generate_random_graph shuffle n m w).1 = Ok (length (graphs w))
  ∧ graphs w' !! length (graphs w)
    = Some (add_edges (take (Z.to_nat m) l) (empty_graph n))
  ∧ rng w' = (shuffle (rng w) (possible_edges n)).2
  ∧ l ≡ₚ possible_edges n.
Proof.
  intros Hvalid. cbv zeta.
  rewrite (generate_random_graph_run shuffle shuffle_perm n m w Hvalid).
  pose proof (shuffle_perm (rng w) (possible_edges n)) as Hperm.
  destruct (shuffle (rng w) (possible_edges n)) as [l r]. simpl in *.
  split_and!; [done| |done|done].
  by rewrite lookup_app_r, Nat.sub_diag by lia.
Qed.

Lemma take_subseteq_le {A} (l : list A) (k k' : nat) :
  (k ≤ k')%nat → take k l ⊆ take k' l.
Proof.
  intros Hk. replace (take k l) with (take k (take k' l)).
  - apply subseteq_take.
  - rewrite take_take. f_equal. lia.
Qed.

Lemma take_subseteq_possible_edges n k l :
  l ≡ₚ possible_edges n → take k l ⊆ possible_edges n.
Proof. intros Hperm e He%subseteq_take. by rewrite <- Hperm. Qed.

(** X1. The edges are the first m pairs of the shuffled list of candidates, and
    the random source is advanced by this one shuffle. *)
Theorem generate_random_graph_takes_prefix n m (w : W) :
  0 ≤ n → 0 ≤ m → m ≤ (n * (n - 1)) `div` 2 →
  ∃ g,
    graphs (generate_random_graph shuffle n m w).2 !! length (graphs w) = Some g
    ∧ edge_set g
      = list_to_set (take (Z.to_nat m) (shuffle (rng w) (possible_edges n)).1)
    ∧ rng (generate_random_graph shuffle n m w).2
      = (shuffle (rng w) (possible_edges n)).2.
Proof.
  intros Hn Hm Hmax.
  destruct (generated_graph_lookup n m w) as (_ & Hg & Hr & Hperm); [done|].
  eexists. split_and!; [exact Hg| |exact Hr].
  apply generated_graph_edges; [done|]. by apply take_subseteq_possible_edges.
Qed.

(** X2. From the same state of the random source, asking for more edges only
    adds edges. *)
Theorem generate_random_graph_monotone n m m' (w : W) :
  0 ≤ n → 0 ≤ m → m ≤ m' → m' ≤ (n * (n - 1)) `div` 2 →
  ∃ g g',
    graphs (generate_random_graph shuffle n m w).2 !! length (graphs w) = Some g
    ∧ graphs (generate_random_graph shuffle n m' w).2 !! length (graphs w) = Some g'
    ∧ edge_set g ⊆ edge_set g'
    ∧ ∀ i, neighbors g i ⊆ neighbors g' i.
Proof.
  intros Hn Hm Hmm Hmax.
  destruct (generated_graph_lookup n m w) as (_ & Hg & _ & Hperm);
    [unfold valid_arguments; lia|].
  destruct (generated_graph_lookup n m' w) as (_ & Hg' & _ & _);
    [unfold valid_arguments; lia|].
  eexists _, _. split_and!; [exact Hg|exact Hg'| |].
  - rewrite !generated_graph_edges by
      (done || by apply take_subseteq_possible_edges).
    intros e. rewrite !elem_of_list_to_set. apply take_subseteq_le. lia.
  - intros i j. rewrite !generated_graph_adjacent by
      (by apply take_subseteq_possible_edges).
    assert (take (Z.to_nat m) (shuffle (rng w) (possible_edges n)).1
            ⊆ take (Z.to_nat m') (shuffle (rng w) (possible_edges n)).1) as Hsub.
    { apply take_subseteq_le. lia. }
    intros [?|?]; [left|right]; by apply Hsub.
Qed.

(** X3. The two ends of the range of m: no edge at all, and every edge. *)
Theorem generate_random_graph_extremes n (w : W) :
  0 ≤ n →
  (∃ g, graphs (generate_random_graph shuffle n 0 w).2 !! length (graphs w) = Some g
        ∧ isolated g)
  ∧ (∃ g, graphs (generate_random_graph shuffle n ((n * (n - 1)) `div` 2) w).2
            !! length (graphs w) = Some g
          ∧ ∀ i j, 0 ≤ i < n → 0 ≤ j < n → i ≠ j → j ∈ neighbors g i).
Proof.
  intros Hn.
  assert (0 ≤ (n * (n - 1)) `div` 2) as Hmax by (apply Z.div_pos; nia).
  split.
  - destruct (generated_graph_lookup n 0 w) as (_ & Hg & _ & _);
      [unfold valid_arguments; lia|].
    eexists. split; [exact Hg|]. intros i. simpl. apply neighbors_empty_graph.
  - destruct (generated_graph_lookup n ((n * (n - 1)) `div` 2) w)
      as (_ & Hg & _ & Hperm); [unfold valid_arguments; lia|].
    eexists. split; [exact Hg|]. intros i j Hi Hj Hne.
    rewrite take_ge.
    2:{ rewrite Hperm. pose proof (length_possible_edges n Hn). lia. }
    apply generated_graph_adjacent; [by rewrite Hperm|].
    rewrite !Hperm, !elem_of_possible_edges. lia.
Qed.

(** X4. Handshake: the degrees of the generated graph add up to 2m. *)
Theorem generate_random_graph_degree_sum n m (w : W) :
  0 ≤ n → 0 ≤ m → m ≤ (n * (n - 1)) `div` 2 →
  ∃ g,
    graphs (generate_random_graph shuffle n m w).2 !! length (graphs w) = Some g
    ∧ degree_sum g = (2 * Z.to_nat m)%nat.
Proof.
  intros Hn Hm Hmax.
  destruct (generated_graph_lookup n m w) as (_ & Hg & _ & Hperm); [done|].
  eexists. split; [exact Hg|].
  rewrite degree_sum_add_edges, degree_sum_empty_graph.
  - rewrite length_take_le; [lia|].
    rewrite Hperm. pose proof (length_possible_edges n Hn). lia.
  - apply (sublist_NoDup _ (shuffle (rng w) (possible_edges n)).1);
      [|apply sublist_take].
    rewrite Hperm. apply NoDup_possible_edges.
  - intros u v Hin%subseteq_take. rewrite Hperm in Hin.
    apply elem_of_possible_edges in Hin.
    rewrite dict_keys_empty_graph, !elem_of_range, !neighbors_empty_graph.
    split_and!; (lia || apply not_elem_of_empty).
Qed.

End GeneratorMore.

(** ** The outcome of the score update *)

(** The first round of a loop that fails decides the outcome. *)
Lemma for_each_outcome {S A} (P : S → Prop) (bad : A → Prop)
    `{∀ a, Decision (bad a)} (e : exn) (l : list A) (b : A → M S unit) :
  (∀ a s, a ∈ l → ¬ bad a → P s → ∃ s', b a s = (Ok (), s') ∧ P s') →
  (∀ a s, a ∈ l → bad a → P s → ∃ s', b a s = (Raise e, s') ∧ P s') →
  ∀ s, P s →
  ∃ s', P s'
    ∧ for_each l b s = (if decide (Exists bad l) then Raise e else Ok (), s').
Proof.
  induction l as [|a l IH]; intros Hgood Hbad s Hs.
  { exists s. split; [done|]. rewrite decide_False; [done|]. by intros ?%Exists_nil. }
  cbn [for_each]. unfold bind.
  destruct (decide (bad a)) as [Ha|Ha].
  - destruct (Hbad a s) as (s' & -> & Hs'); [by left|done..|].
    exists s'. split; [done|]. rewrite decide_True; [done|]. by left.
  - destruct (Hgood a s) as (s' & -> & Hs'); [by left|done..|].
    destruct (IH) with (s := s') as (s'' & Hs'' & ->); [| |done|].
    + intros a' s0 Ha'. apply Hgood. by right.
    + intros a' s0 Ha'. apply Hbad. by right.
    + exists s''. split; [done|].
      destruct (decide (Exists bad l)) as [Hex|Hex].
      * rewrite decide_True; [done|]. by right.
      * rewrite decide_False; [done|]. by intros [?|?]%Exists_cons.
Qed.

Section ScoreOutcome.

Context {R : Type} `{ScoreArith R} {Rng : Type}.
Variable iter : Z → gset Z → list Z.
Hypothesis iter_perm : ∀ i s, iter i s ≡ₚ elements s.
Local Abbreviation W := (world R Rng).

Implicit Types (g : graph) (x y : list R).

Lemma accumulate_length (degrees : dict Z) x i j y :
  length (accumulate degrees x i j y).2 = length y.
Proof.
  unfold accumulate, truediv, bind, lift, ret, raise.
  destruct (dict_lookup j degrees) as [d|]; [|done].
  destruct (0 <? d); [|done].
  destruct (list_getitem y i); [|done]. destruct (list_getitem x j); [|done].
  destruct (decide (d = 0)); [done|].
  destruct (py_index (length y) i); [|done]. simpl. by rewrite length_insert.
Qed.

Lemma score_loop_length g x y :
  length (score_loop iter g x y).2 = length y.
Proof.
  unfold score_loop.
  apply (for_each_keeps (λ y', length y' = length y)); [|done].
  intros i y1 _ Hy1. unfold bind, lift.
  destruct (dict_lookup i g) as [s|]; [|done]. cbn [ret].
  apply (for_each_keeps (λ y', length y' = length y)); [|done].
  intros j y2 _ Hy2. by rewrite accumulate_length.
Qed.

(** X5. Whatever the graph and the prior, a vector that is returned has
    len(graph) entries. *)
Theorem compute_next_scores_length gr cs (w : W) g yr w' :
  graphs w !! gr = Some g →
  compute_next_scores iter gr cs w = (Ok yr, w') →
  ∃ y, vectors w' !! yr = Some y ∧ length y = length g.
Proof.
  intros Hg Hrun. rewrite compute_next_scores_run, Hg in Hrun.
  destruct (prior_value w (length g) cs) as [x|]; [|done].
  unfold next_scores in Hrun.
  pose proof (score_loop_length g x (replicate (length g) szero)) as Hlen.
  destruct (score_loop iter g x _) as [[[]|e] y]; simplify_eq/=.
  exists y. split.
  - apply lookup_alloc_y.
  - by rewrite Hlen, length_replicate.
Qed.

Lemma Exists_neighbor g (bad : Z → Prop) :
  Exists (λ i, Exists bad (iter i (neighbors g i))) (dict_keys g)
  ↔ ∃ i j, j ∈ neighbors g i ∧ bad j.
Proof.
  rewrite Exists_exists. split.
  - intros (i & Hi & (j & Hj & Hb)%Exists_exists).
    exists i, j. by rewrite <- (elem_of_iter iter iter_perm i).
  - intros (i & j & Hj & Hb). exists i. split; [by eapply elem_of_neighbors_key|].
    apply Exists_exists. exists j. by rewrite (elem_of_iter iter iter_perm).
Qed.

Lemma score_loop_outcome g x n (bad : Z → Prop) `{∀ j, Decision (bad j)} (e : exn) :
  vertex_set g n →
  (∀ i j y, i ∈ dict_keys g → j ∈ neighbors g i → ¬ bad j → length y = length g →
     ∃ y', accumulate (degree_table g) x i j y = (Ok (), y') ∧ length y' = length g) →
  (∀ i j y, i ∈ dict_keys g → j ∈ neighbors g i → bad j → length y = length g →
     ∃ y', accumulate (degree_table g) x i j y = (Raise e, y') ∧ length y' = length g) →
  ∀ y, length y = length g →
  (score_loop iter g x y).1
  = if decide (Exists (λ i, Exists bad (iter i (neighbors g i))) (dict_keys g))
    then Raise e else Ok ().
Proof.
  intros Hv Hgood Hbad y Hy. unfold score_loop.
  set (body := λ i, let* neighbors := lift KeyError (dict_lookup i g) in
                    for_each (iter i neighbors) (accumulate (degree_table g) x i)).
  set (P := λ y' : list R, length y' = length g).
  assert (∀ i y1, i ∈ dict_keys g → P y1 →
    ∃ y2, P y2 ∧ body i y1
      = (if decide (Exists bad (iter i (neighbors g i))) then Raise e else Ok (), y2))
    as Hbody.
  { intros i y1 Hi Hy1. unfold body, bind, lift.
    pose proof Hi as [s Hs]%elem_of_dict_keys.
    assert (neighbors g i = s) as Hnb by (unfold neighbors; by rewrite Hs).
    rewrite Hs, Hnb. cbn [ret].
    apply (for_each_outcome P bad e); [| |done].
    - intros j y2 Hj%(elem_of_iter iter iter_perm) Hnot Hy2.
      apply (Hgood i); [done|by rewrite Hnb|done..].
    - intros j y2 Hj%(elem_of_iter iter iter_perm) Hb Hy2.
      apply (Hbad i); [done|by rewrite Hnb|done..]. }
  destruct (for_each_outcome P (λ i, Exists bad (iter i (neighbors g i))) e
              (dict_keys g) body) with (s := y) as (y' & _ & ->); [| |done|].
  - intros i y1 Hi Hnot Hy1. destruct (Hbody i y1) as (y2 & Hy2 & ->); [done..|].
    exists y2. by rewrite decide_False.
  - intros i y1 Hi Hex Hy1. destruct (Hbody i y1) as (y2 & Hy2 & ->); [done..|].
    exists y2. by rewrite decide_True.
  - done.
Qed.

Lemma accumulate_key_outcome g x n i j y :
  vertex_set g n → i ∈ dict_keys g → j ∈ dict_keys g → length y = length g →
  ∃ y', accumulate (degree_table g) x i j y
          = (if decide (uncovered g x j) then Raise IndexError else Ok (), y')
        ∧ length y' = length g.
Proof.
  intros Hv Hi Hj Hy.
  pose proof (vertex_set_length _ _ Hv) as Hlen.
  apply (vertex_set_elem_of _ _ _ Hv) in Hi.
  pose proof Hj as Hj'%(vertex_set_elem_of _ _ _ Hv).
  destruct (y !! Z.to_nat i) as [yi|] eqn:Hyi.
  2:{ apply lookup_ge_None in Hyi. lia. }
  destruct (decide (uncovered g x j)) as [[Hpos Hout]|Hcov].
  - exists y. split; [|done].
    unfold accumulate, bind, lift. rewrite degree_table_key by done. cbn [ret].
    rewrite (proj2 (Z.ltb_lt _ _) Hpos).
    rewrite list_getitem_in_range, Hyi by lia. cbn [ret].
    unfold list_getitem, py_index.
    destruct (Z.ltb_spec j 0); [lia|].
    destruct (Z.leb_spec 0 j); [|lia].
    by destruct (Z.ltb_spec j (Z.of_nat (length x))); [lia|].
  - destruct (Z.ltb_spec 0 (degree g j)) as [Hpos|Hle].
    + eexists. split.
      * apply (accumulate_value g x i j y yi); [done| |lia|done].
        unfold uncovered in Hcov. lia.
      * by rewrite length_insert.
    + exists y. split; [|done].
      unfold accumulate, bind, lift. rewrite degree_table_key by done. cbn [ret].
      by destruct (Z.ltb_spec 0 (degree g j)); [lia|].
Qed.

Lemma compute_next_scores_result gr cs (w : W) g x :
  graphs w !! gr = Some g →
  prior_value w (length g) cs = Some x →
  (compute_next_scores iter gr cs w).1
  = match (score_loop iter g x (replicate (length g) szero)).1 with
    | Ok _ => Ok (S (length (vectors w)))
    | Raise e => Raise e
    end.
Proof.
  intros Hg Hx. rewrite compute_next_scores_run, Hg, Hx. unfold next_scores.
  by destruct (score_loop iter g x _) as [[[]|e] y].
Qed.

Lemma compute_next_scores_uncovered gr cs (w : W) g n x :
  graphs w !! gr = Some g →
  vertex_set g n →
  closed g →
  prior_value w (length g) cs = Some x →
  ((compute_next_scores iter gr cs w).1 = Raise IndexError
     ↔ ∃ i j, j ∈ neighbors g i ∧ 0 < degree g j ∧ Z.of_nat (length x) ≤ j)
  ∧ (is_Ok (compute_next_scores iter gr cs w).1
     ↔ ∀ i j, j ∈ neighbors g i → 0 < degree g j → j < Z.of_nat (length x)).
Proof.
  intros Hg Hv Hc Hx.
  rewrite (compute_next_scores_result gr cs w g x) by done.
  rewrite (score_loop_outcome g x n (uncovered g x) IndexError);
    [|done| | |by rewrite length_replicate].
  2,3: intros i j y Hi Hj Hb Hy;
    destruct (accumulate_key_outcome g x n i j y) as (y' & Hrun & Hy');
      [done|done|by apply (Hc i)|done|]; exists y'.
  2: by rewrite decide_False in Hrun.
  2: by rewrite decide_True in Hrun.
  destruct (decide (Exists _ _)) as [Hex|Hex]; rewrite Exists_neighbor in Hex.
  - split; [by split|]. split; [by intros [? ?]|].
    intros Hall. destruct Hex as (i & j & Hj & Hpos & Hout).
    specialize (Hall i j Hj Hpos). lia.
  - split.
    + split; [done|]. intros (i & j & Hj & Hb). destruct Hex. by exists i, j.
    + split; [|by eexists]. intros _ i j Hj Hpos.
      destruct (decide (j < Z.of_nat (length x))); [done|].
      destruct Hex. exists i, j. unfold uncovered. split_and!; [done..|lia].
Qed.

(** X6. A prior that is too short: on a graph with vertices 0..n-1 whose
    neighbours are vertices, the update raises [IndexError] exactly when some
    neighbour of positive degree has no entry in the prior, and returns
    otherwise. *)
Theorem compute_next_scores_short_prior gr cs (w : W) g n x :
  graphs w !! gr = Some g →
  vertex_set g n →
  closed g →
  prior_value w (length g) cs = Some x →
  ((compute_next_scores iter gr cs w).1 = Raise IndexError
     ↔ ∃ i j, j ∈ neighbors g i ∧ 0 < degree g j ∧ Z.of_nat (length x) ≤ j)
  ∧ (is_Ok (compute_next_scores iter gr cs w).1
     ↔ ∀ i j, j ∈ neighbors g i → 0 < degree g j → j < Z.of_nat (length x)).
Proof. apply compute_next_scores_uncovered. Qed.

Lemma accumulate_dangling g x i j y :
  j ∉ dict_keys g → accumulate (degree_table g) x i j y = (Raise KeyError, y).
Proof.
  intros Hj. unfold accumulate, bind, lift.
  rewrite lookup_degree_table.
  assert (dict_lookup j g = None) as ->; [|done].
  apply eq_None_not_Some. by rewrite <- elem_of_dict_keys.
Qed.

(** X7. A neighbour that is not a vertex: with a prior that covers the
    vertices 0..n-1, the update raises [KeyError] exactly when some
    neighbour set names an id that is not a key, and returns otherwise. *)
Theorem compute_next_scores_dangling gr cs (w : W) g n x :
  graphs w !! gr = Some g →
  vertex_set g n →
  prior_value w (length g) cs = Some x →
  (length g ≤ length x)%nat →
  ((compute_next_scores iter gr cs w).1 = Raise KeyError
     ↔ ∃ i j, j ∈ neighbors g i ∧ j ∉ dict_keys g)
  ∧ (is_Ok (compute_next_scores iter gr cs w).1 ↔ closed g).
Proof.
  intros Hg Hv Hx Hlen.
  pose proof (vertex_set_length _ _ Hv) as Hn.
  rewrite (compute_next_scores_result gr cs w g x) by done.
  rewrite (score_loop_outcome g x n (λ j, j ∉ dict_keys g) KeyError);
    [|done| | |by rewrite length_replicate].
  2:{ intros i j y Hi Hj Hb Hy. apply dec_stable in Hb.
      destruct (accumulate_key_outcome g x n i j y) as (y' & Hrun & Hy');
        [done..|]. exists y'. rewrite decide_False in Hrun; [done|].
      intros [_ Hout]. apply (vertex_set_elem_of _ _ _ Hv) in Hb. lia. }
  2:{ intros i j y Hi Hj Hb Hy. exists y. by rewrite accumulate_dangling. }
  destruct (decide (Exists _ _)) as [Hex|Hex]; rewrite Exists_neighbor in Hex.
  - split; [by split|]. split; [by intros [? ?]|].
    intros Hc. destruct Hex as (i & j & Hj & Hout). destruct Hout. by apply (Hc i).
  - split.
    + split; [done|]. intros Hbad. by destruct Hex.
    + split; [|by eexists]. intros _ i j Hj.
      destruct (decide (j ∈ dict_keys g)); [done|]. destruct Hex. by exists i, j.
Qed.

(** X8. A prior longer than the graph is accepted: the entries past the last
    vertex are not read. *)
Theorem compute_next_scores_long_prior gr c (w : W) g n x extra :
  graphs w !! gr = Some g →
  vertex_set g n →
  closed g →
  length x = length g →
  vectors w !! c = Some (x ++ extra) →
  ∃ yr w' y,
    compute_next_scores iter gr (Some c) w = (Ok yr, w')
    ∧ vectors w' !! yr = Some y
    ∧ length y = length g
    ∧ ∀ i, 0 ≤ i < n →
        y !! Z.to_nat i = Some (vsum (contributions g x (iter i (neighbors g i)))).
Proof.
  intros Hg Hv Hc Hlen Hx.
  pose proof (vertex_set_length _ _ Hv) as Hn.
  destruct (outer_loop_value iter iter_perm g (x ++ extra) Hc) with
    (ks := dict_keys g) (y := replicate (length g) (szero : R))
    as (y & Hrun & Hleny & Hin & _).
  - intros j Hj%(vertex_set_elem_of _ _ _ Hv). rewrite length_app. lia.
  - by eapply vertex_set_NoDup.
  - intros i Hi. split; [done|]. rewrite length_replicate.
    apply (vertex_set_elem_of _ _ _ Hv) in Hi. lia.
  - pose proof (compute_next_scores_run iter gr (Some c) w) as Hrun'.
    rewrite Hg in Hrun'. cbn [prior_value] in Hrun'. rewrite Hx in Hrun'.
    unfold next_scores, score_loop in Hrun'. rewrite Hrun in Hrun'.
    eexists _, _, y. split_and!; [exact Hrun'| | |].
    + apply lookup_alloc_y.
    + by rewrite Hleny, length_replicate.
    + intros i Hi. rewrite (Hin i szero).
      * f_equal. rewrite foldl_add_share. unfold vsum, contributions. f_equal.
        apply list_fmap_ext. intros _ j Hj%list_elem_of_lookup_2.
        apply list_elem_of_filter in Hj as [_ Hj%(elem_of_iter iter iter_perm)].
        apply Hc, (vertex_set_elem_of _ _ _ Hv) in Hj.
        unfold score_at. rewrite !list_getitem_in_range by (rewrite ?length_app; lia).
        by rewrite lookup_app_l by lia.
      * by apply (vertex_set_elem_of _ _ _ Hv).
      * apply lookup_replicate_2. lia.
Qed.

End ScoreOutcome.

(** ** Regular graphs, and the update of a generated graph *)

Section RegularGraphs.

Context {R : Type} `{ScoreArith R} {Rng : Type}.
Variable iter : Z → gset Z → list Z.
Hypothesis iter_perm : ∀ i s, iter i s ≡ₚ elements s.
Local Abbreviation W := (world R Rng).

Lemma vsum_replicate (k : nat) (c : R) : vsum (replicate k c) = repeat_add k c.
Proof.
  induction k as [|k IH]; [done|].
  rewrite replicate_S_end. unfold vsum in *. rewrite foldl_app. simpl. by rewrite IH.
Qed.

Lemma fmap_const_replicate {A} (c : R) (l : list A) :
  (λ _, c) <$> l = replicate (length l) c.
Proof. induction l as [|a l IH]; [done|]. rewrite fmap_cons, IH. done. Qed.

(** X9. On a regular graph a constant score vector is sent to a constant
    vector: if every vertex has the same degree d >= 1 and every prior
    score is a, each entry of the result is 0.0 + a/d + ... + a/d with d
    terms, added one after the other in the arithmetic of the program.  So
    the constant vector is returned unchanged exactly when this one
    accumulation gives back a. *)
Theorem compute_next_scores_regular gr c (w : W) g n d a :
  graphs w !! gr = Some g →
  vertex_set g n →
  closed g →
  0 < d →
  (∀ i, 0 ≤ i < n → degree g i = d) →
  vectors w !! c = Some (replicate (length g) a) →
  ∃ yr w',
    compute_next_scores iter gr (Some c) w = (Ok yr, w')
    ∧ vectors w' !! yr
      = Some (replicate (length g) (repeat_add (Z.to_nat d) (sdiv a d)))
    ∧ (0 < n →
       vectors w' !! yr = Some (replicate (length g) a)
       ↔ repeat_add (Z.to_nat d) (sdiv a d) = a).
Proof.
  intros Hg Hv Hc Hd Hreg Hx.
  pose proof (vertex_set_length _ _ Hv) as Hn.
  destruct (compute_next_scores_value iter w gr (Some c) g n (replicate (length g) a)
    iter_perm Hg Hv Hc Hx) as (yr & w' & y & Hrun & Hy & Hlen & Hval);
    [by rewrite length_replicate|].
  assert (y = replicate (length g) (repeat_add (Z.to_nat d) (sdiv a d))) as ->.
  { apply list_eq. intros k.
    destruct (decide (k < length g)%nat) as [Hk|Hk].
    2:{ rewrite !lookup_ge_None_2; [done|rewrite length_replicate; lia|lia]. }
    rewrite lookup_replicate_2 by done.
    rewrite <- (Nat2Z.id k) at 1. rewrite Hval by lia. f_equal.
    set (js := iter (Z.of_nat k) (neighbors g (Z.of_nat k))).
    assert (∀ j, j ∈ js → 0 ≤ j < n) as Hjs.
    { intros j Hj%(elem_of_iter iter iter_perm).
      by apply Hc, (vertex_set_elem_of _ _ _ Hv) in Hj. }
    unfold contributions. rewrite filter_all.
    2:{ intros j Hj%Hjs. rewrite Hreg by done. done. }
    erewrite list_fmap_ext.
    2:{ intros _ j Hj%list_elem_of_lookup_2%Hjs. rewrite Hreg by done.
        unfold score_at. rewrite list_getitem_in_range by (rewrite length_replicate; lia).
        rewrite lookup_replicate_2 by lia. reflexivity. }
    rewrite fmap_const_replicate, vsum_replicate. f_equal.
    unfold js. rewrite iter_perm. rewrite <- (Hreg (Z.of_nat k)) by lia.
    unfold degree. by rewrite Nat2Z.id. }
  exists yr, w'. split_and!; [done..|].
  intros Hpos. rewrite Hy. split.
  - intros [= Heq]. destruct (length g) as [|k]; [lia|]. by injection Heq.
  - by intros ->.
Qed.

End RegularGraphs.

Section Pipeline.

Context {R : Type} `{ScoreArith R} {Rng : Type}.
Variable shuffle : Rng → list (Z * Z) → list (Z * Z) * Rng.
Hypothesis shuffle_perm : ∀ r l, (shuffle r l).1 ≡ₚ l.
Variable iter : Z → gset Z → list Z.
Hypothesis iter_perm : ∀ i s, iter i s ≡ₚ elements s.
Local Abbreviation W := (world R Rng).

Lemma generated_graph_closed n l :
  l ⊆ possible_edges n → closed (add_edges l (empty_graph n)).
Proof.
  intros Hl k j Hj%generated_graph_adjacent; [|done].
  rewrite dict_keys_add_edges, dict_keys_empty_graph, elem_of_range.
  destruct Hj as [Hj|Hj]; apply Hl, elem_of_possible_edges in Hj; lia.
Qed.

Lemma generated_graph_vertex_set n l : vertex_set (add_edges l (empty_graph n)) n.
Proof. unfold vertex_set. by rewrite dict_keys_add_edges, dict_keys_empty_graph. Qed.

(** X10. The generator and the score update compose: on every graph that
    [generate_random_graph] returns, the first update from the default
    prior returns a vector with one entry per vertex. *)
Theorem generate_then_compute n m (w : W) :
  0 ≤ n → 0 ≤ m → m ≤ (n * (n - 1)) `div` 2 →
  ∃ yr w' y,
    (let* graph := generate_random_graph shuffle n m in
     compute_next_scores iter graph None) w = (Ok yr, w')
    ∧ vectors w' !! yr = Some y
    ∧ length y = Z.to_nat n.
Proof.
  intros Hn Hm Hmax. unfold bind.
  rewrite (generate_random_graph_run shuffle shuffle_perm n m w) by done.
  pose proof (shuffle_perm (rng w) (possible_edges n)) as Hperm.
  destruct (shuffle (rng w) (possible_edges n)) as [l r]. simpl in Hperm.
  set (g := add_edges (take (Z.to_nat m) l) (empty_graph n)).
  set (w1 := with_rng r (with_graphs (graphs w ++ [g]) w)).
  assert (take (Z.to_nat m) l ⊆ possible_edges n) as Hsub.
  { intros e He%subseteq_take. by rewrite <- Hperm. }
  destruct (compute_next_scores_value iter w1 (length (graphs w)) None g n
              (replicate (length g) sone) iter_perm)
    as (yr & w' & y & Hrun & Hy & Hlen & _).
  - unfold w1, with_rng, with_graphs. simpl. by rewrite lookup_app_r, Nat.sub_diag by lia.
  - apply generated_graph_vertex_set.
  - by apply generated_graph_closed.
  - done.
  - by rewrite length_replicate.
  - exists yr, w', y. split_and!; [done..|].
    pose proof (vertex_set_length _ _
      (generated_graph_vertex_set n (take (Z.to_nat m) l))) as Hsize.
    fold g in Hsize. lia.
Qed.

End Pipeline.

(** ** The table *)

Lemma for_each_app {S A} (l1 l2 : list A) (b : A → M S unit) (s : S) :
  for_each (l1 ++ l2) b s = (for_each l1 b ;;; for_each l2 b) s.
Proof.
  revert s. induction l1 as [|a l1 IH]; intros s.
  - done.
  - cbn [for_each app]. unfold bind in *.
    destruct (b a s) as [[[]|e] s']; [|done]. apply IH.
Qed.

Lemma Sorted_seqZ m n : Sorted Z.le (seqZ m n).
Proof.
  destruct (decide (0 ≤ n)) as [Hn|Hn]; [|rewrite seqZ_nil by lia; constructor].
  rewrite <- (Z2Nat.id n) by done. clear Hn.
  revert m. induction (Z.to_nat n) as [|k IH]; intros m; [constructor|].
  rewrite seqZ_cons by lia.
  replace (Z.pred (Z.of_nat (S k))) with (Z.of_nat k) by lia.
  constructor; [apply IH|].
  destruct k as [|k]; [constructor|].
  rewrite seqZ_cons by lia. constructor. lia.
Qed.

Lemma sorted_keys (g : graph) n :
  vertex_set g n → merge_sort Z.le (dict_keys g) = range n.
Proof.
  intros Hv. apply (Sorted_unique Z.le).
  - apply Sorted_merge_sort. apply _.
  - apply Sorted_seqZ.
  - by rewrite merge_sort_Permutation.
Qed.

Section Display.

Context {R : Type} `{ScoreArith R} {Rng : Type}.
Local Abbreviation W := (world R Rng).

Lemma display_row_run gr sr g v node (w : W) :
  graphs w !! gr = Some g → vectors w !! sr = Some v →
  node ∈ dict_keys g → 0 ≤ node < Z.of_nat (length v) →
  (let* score := vector_getitem sr node in
   let* s := graph_getitem gr node in
   let neighbors := merge_sort Z.le (elements s) in
   print (PrintNode node score neighbors)) w
  = (Ok (), with_stdout (stdout w ++ [display_row g v node]) w).
Proof.
  intros Hg Hv [s Hs]%elem_of_dict_keys Hnode.
  unfold vector_getitem, graph_getitem, read_vector, read_graph, bind, lift, print.
  rewrite Hv. rewrite list_getitem_in_range by done.
  destruct (v !! Z.to_nat node) as [a|] eqn:Ha.
  2:{ apply lookup_ge_None in Ha. lia. }
  cbn [ret]. rewrite Hg, Hs. cbn [ret].
  unfold display_row, score_at, neighbors.
  by rewrite list_getitem_in_range, Ha, Hs by done.
Qed.

Lemma display_loop_run gr sr g v nodes : ∀ w : W,
  graphs w !! gr = Some g → vectors w !! sr = Some v →
  (∀ node, node ∈ nodes → node ∈ dict_keys g ∧ 0 ≤ node < Z.of_nat (length v)) →
  display_loop gr sr nodes w
  = (Ok (), with_stdout (stdout w ++ (display_row g v <$> nodes)) w).
Proof.
  unfold display_loop.
  induction nodes as [|node nodes IH]; intros w Hg Hv Hnodes.
  - simpl. unfold ret. rewrite app_nil_r. by destruct w.
  - cbn [for_each]. unfold bind at 1.
    destruct (Hnodes node) as [Hk Hr]; [by left|].
    rewrite (display_row_run gr sr g v) by done.
    rewrite IH; [|done|done|].
    + rewrite fmap_cons. unfold with_stdout. simpl.
      by rewrite <- app_assoc.
    + intros node' Hin. apply Hnodes. by right.
Qed.

Lemma display_loop_app gr sr l1 l2 (w : W) :
  display_loop gr sr (l1 ++ l2) w
  = (display_loop gr sr l1 ;;; display_loop gr sr l2) w.
Proof. apply for_each_app. Qed.

Lemma display_loop_no_score gr sr v node nodes (w : W) :
  vectors w !! sr = Some v → Z.of_nat (length v) ≤ node →
  display_loop gr sr (node :: nodes) w = (Raise IndexError, w).
Proof.
  intros Hv Hnode. unfold display_loop. cbn [for_each].
  unfold vector_getitem, read_vector, bind. rewrite Hv.
  unfold lift, list_getitem, py_index.
  destruct (Z.ltb_spec node 0); [lia|].
  destruct (Z.leb_spec 0 node); [|lia].
  by destruct (Z.ltb_spec node (Z.of_nat (length v))); [lia|].
Qed.

Lemma display_graph_state_unfold gr sr t (w : W) g :
  graphs w !! gr = Some g →
  display_graph_state gr sr t w
  = let w1 := with_stdout (stdout w ++ [PrintTitle t]) w in
    if decide (g = []) then print PrintEmpty w1
    else (display_loop gr sr (merge_sort Z.le (dict_keys g)) ;;; print PrintRule) w1.
Proof.
  intros Hg. unfold display_graph_state, bind at 1, print at 1.
  unfold bind at 1, read_graph. cbn [graphs with_stdout]. rewrite Hg.
  by destruct (decide (g = [])).
Qed.

Lemma display_graph_state_run gr sr t (w : W) g v n :
  graphs w !! gr = Some g →
  vectors w !! sr = Some v →
  vertex_set g n →
  (length g ≤ length v)%nat →
  display_graph_state gr sr t w
  = (Ok (),
     with_stdout
       (stdout w ++ PrintTitle t ::
          (if decide (g = []) then [PrintEmpty]
           else (display_row g v <$> range n) ++ [PrintRule])) w).
Proof.
  intros Hg Hv Hvs Hlen.
  pose proof (vertex_set_length _ _ Hvs) as Hn.
  rewrite (display_graph_state_unfold gr sr t w g Hg). cbv zeta.
  destruct (decide (g = [])) as [->|Hne].
  - unfold print, with_stdout. simpl. by rewrite <- app_assoc.
  - rewrite (sorted_keys g n Hvs). unfold bind.
    rewrite (display_loop_run gr sr g v); [| done | done |].
    + unfold print, with_stdout. simpl. by rewrite <- !app_assoc.
    + intros node Hnode%elem_of_range. split; [|lia].
      by apply (vertex_set_elem_of _ _ _ Hvs).
Qed.

(** X11. What is printed for a graph with vertices 0..n-1 and a score list
    with at least n entries: the title, then one row per vertex in
    ascending order with its score and its neighbours sorted, then the
    rule; for the empty graph the title and the notice.  Nothing else
    changes. *)
Theorem display_graph_state_prints gr sr t (w : W) g v n :
  graphs w !! gr = Some g →
  vectors w !! sr = Some v →
  vertex_set g n →
  (length g ≤ length v)%nat →
  display_graph_state gr sr t w
  = (Ok (),
     with_stdout
       (stdout w ++ PrintTitle t ::
          (if decide (g = []) then [PrintEmpty]
           else (display_row g v <$> range n) ++ [PrintRule])) w).
Proof. apply display_graph_state_run. Qed.

(** X12. A score list shorter than the graph: the rows of the vertices that
    have a score are printed, then [IndexError] is raised; no rule is
    printed. *)
Theorem display_graph_state_short_scores gr sr t (w : W) g v n :
  graphs w !! gr = Some g →
  vectors w !! sr = Some v →
  vertex_set g n →
  (length v < length g)%nat →
  display_graph_state gr sr t w
  = (Raise IndexError,
     with_stdout
       (stdout w ++ PrintTitle t :: (display_row g v <$> range (Z.of_nat (length v)))) w).
Proof.
  intros Hg Hv Hvs Hlen.
  pose proof (vertex_set_length _ _ Hvs) as Hn.
  rewrite (display_graph_state_unfold gr sr t w g Hg). cbv zeta.
  destruct (decide (g = [])) as [->|Hne]; [simpl in Hlen; lia|].
  rewrite (sorted_keys g n Hvs). unfold range.
  replace n with (Z.of_nat (length v) + (n - Z.of_nat (length v))) at 1 by lia.
  rewrite seqZ_app by lia. rewrite (seqZ_cons _ (n - _)) by lia.
  unfold bind at 1. rewrite display_loop_app. unfold bind at 1.
  rewrite (display_loop_run gr sr g v); [| done | done |].
  2:{ intros node Hnode%elem_of_seqZ. split; [|lia].
      apply (vertex_set_elem_of _ _ _ Hvs). lia. }
  rewrite (display_loop_no_score gr sr v) by (done || lia).
  unfold with_stdout. simpl. by rewrite <- app_assoc.
Qed.

(** X13. [display_graph_state] only prints: whatever its arguments, it leaves
    the graphs, the score lists, the input and the random source as they
    are and only appends to the output. *)
Theorem display_graph_state_only_prints gr sr t (w : W) :
  let w' := (display_graph_state gr sr t w).2 in
  graphs w' = graphs w ∧ vectors w' = vectors w
  ∧ rng w' = rng w ∧ stdin w' = stdin w
  ∧ stdout w `prefix_of` stdout w'.
Proof.
  cbv zeta.
  set (P := λ w' : W, graphs w' = graphs w ∧ vectors w' = vectors w
                      ∧ rng w' = rng w ∧ stdin w' = stdin w
                      ∧ stdout w `prefix_of` stdout w').
  assert (∀ e w0, P w0 → P (print e w0).2) as Hprint.
  { intros e w0 (? & ? & ? & ? & ?). unfold P, print. simpl.
    split_and!; [done..|]. by apply prefix_app_r. }
  change (P (display_graph_state gr sr t w).2).
  unfold display_graph_state, bind at 1.
  pose proof (Hprint (PrintTitle t) w ltac:(by unfold P)) as Hw1.
  destruct (print (PrintTitle t) w) as [[[]|e] w1] eqn:Hp; [|done]. simpl in Hw1.
  unfold bind at 1, read_graph.
  destruct (graphs w1 !! gr) as [g|]; [|done].
  destruct (decide (g = [])); [by apply Hprint|].
  unfold bind at 1.
  pose proof (for_each_keeps P (merge_sort Z.le (dict_keys g))
    (λ node, let* score := vector_getitem sr node in
             let* s := graph_getitem gr node in
             let neighbors := merge_sort Z.le (elements s) in
             print (PrintNode node score neighbors))) as Hkeep.
  specialize (Hkeep) with (w := w1).
  destruct (for_each _ _ w1) as [[[]|e] w2]; simpl in Hkeep.
  - apply Hprint, Hkeep; [|done].
    intros node w0 _ Hw0.
    unfold vector_getitem, graph_getitem, read_vector, read_graph, bind, lift, ret, raise.
    destruct (vectors w0 !! sr) as [v|]; [|done].
    destruct (list_getitem v node); [|done].
    destruct (graphs w0 !! gr) as [g0|]; [|done].
    destruct (dict_lookup node g0); [|done]. by apply Hprint.
  - apply Hkeep; [|done].
    intros node w0 _ Hw0.
    unfold vector_getitem, graph_getitem, read_vector, read_graph, bind, lift, ret, raise.
    destruct (vectors w0 !! sr) as [v|]; [|done].
    destruct (list_getitem v node); [|done].
    destruct (graphs w0 !! gr) as [g0|]; [|done].
    destruct (dict_lookup node g0); [|done]. by apply Hprint.
Qed.

End Display.

(** ** The dialogue of the edge prompt *)

Section Prompt.

Context {R : Type} `{ScoreArith R} {Rng : Type}.
Local Abbreviation W := (world R Rng).

Lemma read_edge_round gr g n l rest (w : W) :
  graphs w !! gr = Some g → vertex_set g n → stdin w = l :: rest →
  read_edge gr n (l :: rest) w
  = match reply g n l with
    | Some e =>
        read_edge gr n rest
          (with_stdin rest (with_stdout (stdout w ++ [PrintPrompt (n - 1); e]) w))
    | None =>
        match l with
        | Pair i j =>
            (Ok (i, j),
             with_stdin rest (with_stdout (stdout w ++ [PrintPrompt (n - 1)]) w))
        | Unparsable => (Raise EOFError, w)
        end
    end.
Proof.
  intros Hg Hv Hin. cbn [read_edge]. unfold bind at 1, print at 1.
  unfold bind at 1, input. cbn [stdin with_stdout]. rewrite Hin.
  destruct l as [i j|]; cbn [reply].
  - unfold bind at 1. rewrite (check_edge_run _ g) by done.
    destruct (verdict_of g n i j); unfold bind, print, ret; simpl;
      try done; by rewrite <- app_assoc.
  - unfold bind, print. simpl. by rewrite <- app_assoc.
Qed.

Lemma read_edge_rejects gr g n ls : ∀ (w : W) tail,
  graphs w !! gr = Some g → vertex_set g n →
  Forall (rejected (R:=R) g n) ls →
  stdin w = ls ++ tail →
  read_edge gr n (ls ++ tail) w
  = read_edge gr n tail
      (with_stdin tail (with_stdout (stdout w ++ transcript g n ls) w)).
Proof.
  induction ls as [|l ls IH]; intros w tail Hg Hv Hrej Hin.
  - simpl in *. unfold transcript. simpl. rewrite app_nil_r.
    destruct w. simpl in *. by subst.
  - apply Forall_cons in Hrej as [[e He] Hrej].
    rewrite <- app_comm_cons, (read_edge_round gr g n l (ls ++ tail)) by done.
    rewrite He. rewrite IH by done.
    unfold transcript. rewrite bind_cons, He. simpl.
    by rewrite <- app_assoc.
Qed.

Lemma read_edge_eof gr n (w : W) :
  stdin w = [] →
  read_edge gr n [] w = (Raise EOFError, with_stdout (stdout w ++ [PrintPrompt (n - 1)]) w).
Proof.
  intros Hin. cbn [read_edge]. unfold bind, print, input. simpl. by rewrite Hin.
Qed.

End Prompt.

Section HandlerRuns.

Context {R : Type} `{ScoreArith R} {Rng : Type}.
Variable iter : Z → gset Z → list Z.
Hypothesis iter_perm : ∀ i s, iter i s ≡ₚ elements s.
Local Abbreviation W := (world R Rng).

Lemma link_closed u v (g : graph) :
  u ∈ dict_keys g → v ∈ dict_keys g → closed g → closed (link u v g).
Proof.
  intros Hu Hv Hc i j. rewrite dict_keys_link, elem_of_neighbors_link by done.
  intros [Hj|[[-> ->]|[-> ->]]]; [by apply (Hc i)|done..].
Qed.

Lemma link_vertex_set u v (g : graph) n : vertex_set g n → vertex_set (link u v g) n.
Proof. unfold vertex_set. by rewrite dict_keys_link. Qed.

Lemma length_link u v (g : graph) : length (link u v g) = length g.
Proof.
  rewrite <- (length_fmap fst (link u v g)), <- (length_fmap fst g).
  change (length (dict_keys (link u v g)) = length (dict_keys g)).
  by rewrite dict_keys_link.
Qed.

Lemma seq_assoc {A B C} (a : M W A) (b : M W B) (k : M W C) (w : W) :
  (a ;;; b ;;; k) w = ((a ;;; b) ;;; k) w.
Proof. unfold bind. by destruct (a w) as [[] ?]. Qed.

Lemma handle_user_edge_addition_accepts gr cs (w : W) g n ls i j rest :
  graphs w !! gr = Some g →
  vertex_set g n →
  stdin w = ls ++ Pair i j :: rest →
  Forall (rejected (R:=R) g n) ls →
  verdict_of g n i j = Accepted →
  handle_user_edge_addition iter gr cs w
  = (let* new_scores := compute_next_scores iter gr cs in
     display_graph_state gr new_scores (AfterAddingEdge i j) ;;;
     ret (gr, Some new_scores))
      (World (<[gr := link i j g]> (graphs w)) (vectors w) (rng w) rest
         (stdout w ++ transcript g n ls ++ [PrintPrompt (n - 1); PrintAdded i j])).
Proof.
  intros Hg Hv Hin Hrej Hacc.
  pose proof (vertex_set_length _ _ Hv) as Hn.
  assert (reply (R:=R) g n (Pair i j) = None) as Hnone by (cbn [reply]; by rewrite Hacc).
  unfold verdict_of in Hacc.
  destruct (decide (0 ≤ i < n ∧ 0 ≤ j < n)) as [Hr|]; [|done].
  destruct (decide (i = j)) as [|Hne]; [done|].
  assert (i ∈ dict_keys g) as Hi by (apply (vertex_set_elem_of _ n); [done|lia]).
  assert (j ∈ dict_keys g) as Hj by (apply (vertex_set_elem_of _ n); [done|lia]).
  unfold handle_user_edge_addition, bind at 1, read_graph. rewrite Hg.
  destruct (Z.ltb_spec (Z.of_nat (length g)) 2); [lia|].
  assert (n = Z.of_nat (length g)) as Hn' by lia. rewrite <- Hn'.
  unfold bind at 1. rewrite Hin.
  rewrite (read_edge_rejects gr g n ls w (Pair i j :: rest)) by done.
  rewrite (read_edge_round gr g n (Pair i j) rest) by done.
  rewrite Hnone.
  rewrite seq_assoc. unfold bind at 1.
  rewrite (link_run_at gr i j _ g) by done.
  unfold bind at 1, print at 1.
  f_equal. unfold store_graph, with_graphs, with_stdin, with_stdout. simpl.
  by rewrite <- !app_assoc.
Qed.

Lemma handle_user_edge_addition_run gr cs (w : W) g n x ls i j rest :
  graphs w !! gr = Some g →
  vertex_set g n →
  closed g →
  prior_value w (length g) cs = Some x →
  length x = length g →
  stdin w = ls ++ Pair i j :: rest →
  Forall (rejected (R:=R) g n) ls →
  verdict_of g n i j = Accepted →
  ∃ y,
    handle_user_edge_addition iter gr cs w
    = (Ok (gr, Some (S (length (vectors w)))),
       World (<[gr := link i j g]> (graphs w)) (vectors w ++ [x; y]) (rng w) rest
         (stdout w ++ transcript g n ls
          ++ [PrintPrompt (n - 1); PrintAdded i j; PrintTitle (AfterAddingEdge i j)]
          ++ (display_row (link i j g) y <$> range n) ++ [PrintRule]))
    ∧ length y = length g
    ∧ ∀ k, 0 ≤ k < n →
        y !! Z.to_nat k
        = Some (vsum (contributions (link i j g) x
                        (iter k (neighbors (link i j g) k)))).
Proof.
  intros Hg Hv Hc Hx Hlen Hin Hrej Hacc.
  pose proof (vertex_set_length _ _ Hv) as Hn.
  unfold verdict_of in Hacc.
  destruct (decide (0 ≤ i < n ∧ 0 ≤ j < n)) as [Hr|]; [|done].
  destruct (decide (i = j)) as [|Hne]; [done|].
  assert (i ∈ dict_keys g) as Hi by (apply (vertex_set_elem_of _ n); [done|lia]).
  assert (j ∈ dict_keys g) as Hj by (apply (vertex_set_elem_of _ n); [done|lia]).
  assert (reply (R:=R) g n (Pair i j) = None) as Hnone.
  { cbn [reply]. unfold verdict_of. rewrite decide_True, decide_False by done.
    by destruct (decide (j ∈ neighbors g i)). }
  set (g' := link i j g).
  set (out1 := stdout w ++ transcript g n ls ++ [PrintPrompt (n - 1)]).
  set (w3 := World (<[gr := g']> (graphs w)) (vectors w) (rng w) rest
               (out1 ++ [PrintAdded i j])).
  destruct (compute_next_scores_value iter w3 gr cs g' n x iter_perm)
    as (yr & w4 & y & Hrun4 & Hy & Hleny & Hval).
  { unfold w3. simpl. apply list_lookup_insert_eq. by apply lookup_lt_Some in Hg. }
  { by apply link_vertex_set. }
  { by apply link_closed. }
  { unfold g'. rewrite length_link. destruct cs; exact Hx. }
  { unfold g'. by rewrite length_link. }
  pose proof (compute_next_scores_run iter gr cs w3) as Hrun4'.
  rewrite Hrun4 in Hrun4'.
  assert (graphs w3 !! gr = Some g') as Hg3.
  { unfold w3. simpl. apply list_lookup_insert_eq. by apply lookup_lt_Some in Hg. }
  rewrite Hg3 in Hrun4'.
  assert (prior_value w3 (length g') cs = Some x) as Hx3.
  { unfold g'. rewrite length_link. destruct cs; exact Hx. }
  rewrite Hx3 in Hrun4'.
  destruct (next_scores iter g' x) as [[y0|e] y1]; [|done].
  injection Hrun4' as -> ->.
  assert (y1 = y) as ->.
  { unfold alloc_xy in Hy. simpl in Hy. rewrite lookup_alloc_y in Hy. congruence. }
  exists y. split_and!; [|by rewrite Hleny; unfold g'; rewrite length_link|done].
  unfold handle_user_edge_addition, bind at 1, read_graph. rewrite Hg.
  destruct (Z.ltb_spec (Z.of_nat (length g)) 2); [lia|].
  assert (n = Z.of_nat (length g)) as Hn' by lia. rewrite <- Hn'.
  unfold bind at 1. rewrite Hin.
  rewrite (read_edge_rejects gr g n ls w (Pair i j :: rest)) by done.
  rewrite (read_edge_round gr g n (Pair i j) rest) by done.
  rewrite Hnone.
  rewrite seq_assoc. unfold bind at 1.
  rewrite (link_run_at gr i j _ g) by done.
  unfold bind at 1, print at 1.
  match goal with
  | |- bind _ _ ?w0 = _ =>
      assert (w0 = w3) as -> by (unfold w3, out1, store_graph, with_graphs,
        with_stdin, with_stdout; simpl; by rewrite <- !app_assoc)
  end.
  unfold bind at 1. rewrite Hrun4. unfold bind at 1.
  rewrite (display_graph_state_run gr _ _ _ g' y n).
  - unfold ret, alloc_xy, with_vectors, with_stdout, w3, out1. simpl.
    rewrite decide_False.
    2:{ intros Heq. apply (f_equal length) in Heq. unfold g' in Heq.
        rewrite length_link in Heq. simpl in Heq. lia. }
    do 2 f_equal. rewrite <- !app_assoc. simpl. done.
  - done.
  - apply lookup_alloc_y.
  - by apply link_vertex_set.
  - rewrite Hleny. done.
Qed.

Lemma handle_user_edge_addition_eof_run gr cs (w : W) g n :
  graphs w !! gr = Some g →
  vertex_set g n →
  2 ≤ n →
  Forall (rejected (R:=R) g n) (stdin w) →
  handle_user_edge_addition iter gr cs w
  = (Raise EOFError,
     World (graphs w) (vectors w) (rng w) []
       (stdout w ++ transcript g n (stdin w) ++ [PrintPrompt (n - 1)])).
Proof.
  intros Hg Hv Hn Hrej.
  pose proof (vertex_set_length _ _ Hv) as Hlen.
  unfold handle_user_edge_addition, bind at 1, read_graph. rewrite Hg.
  destruct (Z.ltb_spec (Z.of_nat (length g)) 2); [lia|].
  assert (n = Z.of_nat (length g)) as Hn' by lia. rewrite <- Hn'.
  unfold bind at 1.
  rewrite <- (app_nil_r (stdin w)) at 1.
  rewrite (read_edge_rejects gr g n (stdin w) w []) by (by rewrite ?app_nil_r).
  rewrite read_edge_eof by done.
  unfold with_stdout, with_stdin. simpl. by rewrite <- app_assoc.
Qed.

(** X14. An accepted pair after any number of rejected lines: the call returns
    the same graph object, now with the edge, and a new score list; every
    line up to the pair is consumed, and the output is the prompt and the
    message for each rejected line, the prompt once more, the confirmation
    and the table of the new state. *)
Theorem handle_user_edge_addition_transcript gr cs (w : W) g n x ls i j rest :
  graphs w !! gr = Some g →
  vertex_set g n →
  closed g →
  prior_value w (length g) cs = Some x →
  length x = length g →
  stdin w = ls ++ Pair i j :: rest →
  Forall (rejected (R:=R) g n) ls →
  verdict_of g n i j = Accepted →
  ∃ y,
    handle_user_edge_addition iter gr cs w
    = (Ok (gr, Some (S (length (vectors w)))),
       World (<[gr := link i j g]> (graphs w)) (vectors w ++ [x; y]) (rng w) rest
         (stdout w ++ transcript g n ls
          ++ [PrintPrompt (n - 1); PrintAdded i j; PrintTitle (AfterAddingEdge i j)]
          ++ (display_row (link i j g) y <$> range n) ++ [PrintRule]))
    ∧ length y = length g
    ∧ ∀ k, 0 ≤ k < n →
        y !! Z.to_nat k
        = Some (vsum (contributions (link i j g) x
                        (iter k (neighbors (link i j g) k)))).
Proof. apply handle_user_edge_addition_run. Qed.

(** X15. The call is not atomic.  With a score list that has no entry for one
    of the two vertices of the accepted pair, the edge is added and
    confirmed first, and only then the update fails with [IndexError]: the
    caller gets the exception and a graph that has changed. *)
Theorem handle_user_edge_addition_not_atomic gr c (w : W) g n x ls i j rest :
  graphs w !! gr = Some g →
  vertex_set g n →
  closed g →
  vectors w !! c = Some x →
  stdin w = ls ++ Pair i j :: rest →
  Forall (rejected (R:=R) g n) ls →
  verdict_of g n i j = Accepted →
  Z.of_nat (length x) ≤ i ∨ Z.of_nat (length x) ≤ j →
  (handle_user_edge_addition iter gr (Some c) w).1 = Raise IndexError
  ∧ graphs (handle_user_edge_addition iter gr (Some c) w).2
    = <[gr := link i j g]> (graphs w)
  ∧ stdout (handle_user_edge_addition iter gr (Some c) w).2
    = stdout w ++ transcript g n ls ++ [PrintPrompt (n - 1); PrintAdded i j].
Proof.
  intros Hg Hv Hc Hx Hin Hrej Hacc Hshort.
  rewrite (handle_user_edge_addition_accepts gr (Some c) w g n ls i j rest) by done.
  unfold verdict_of in Hacc.
  destruct (decide (0 ≤ i < n ∧ 0 ≤ j < n)) as [Hr|]; [|done].
  destruct (decide (i = j)) as [|Hne]; [done|]. clear Hacc.
  assert (i ∈ dict_keys g) as Hi by (apply (vertex_set_elem_of _ n); [done|lia]).
  assert (j ∈ dict_keys g) as Hj by (apply (vertex_set_elem_of _ n); [done|lia]).
  set (g' := link i j g).
  set (w3 := World (<[gr := g']> (graphs w)) (vectors w) (rng w) rest
               (stdout w ++ transcript g n ls ++ [PrintPrompt (n - 1); PrintAdded i j])).
  assert (graphs w3 !! gr = Some g') as Hg3.
  { unfold w3. simpl. apply list_lookup_insert_eq. by apply lookup_lt_Some in Hg. }
  assert (prior_value w3 (length g') (Some c) = Some x) as Hx3 by done.
  assert (j ∈ neighbors g' i ∧ i ∈ neighbors g' j) as [Hji Hij].
  { unfold g'. rewrite !elem_of_neighbors_link by done. split; auto. }
  assert (∀ a b, b ∈ neighbors g' a → 0 < degree g' a) as Hpos.
  { intros a b Hb. unfold degree.
    destruct (size (neighbors g' a)) eqn:Hsize; [|lia].
    apply size_empty_inv in Hsize. set_solver. }
  destruct (compute_next_scores_uncovered iter iter_perm gr (Some c) w3 g' n x)
    as [[_ Hraise] _]; [done|by apply link_vertex_set|by apply link_closed|done|].
  pose proof (compute_next_scores_run iter gr (Some c) w3) as Hrun.
  rewrite Hg3, Hx3 in Hrun.
  destruct (next_scores iter g' x) as [r y].
  unfold bind. rewrite Hrun in *. cbn [fst] in Hraise.
  rewrite Hraise; [done|].
  destruct Hshort; [exists j, i|exists i, j]; eauto.
Qed.

(** X16. When the input ends before an acceptable pair was read, the call
    raises EOFError after one last prompt; the graph and the score lists
    are as they were. *)
Theorem handle_user_edge_addition_eof gr cs (w : W) g n :
  graphs w !! gr = Some g →
  vertex_set g n →
  2 ≤ n →
  Forall (rejected (R:=R) g n) (stdin w) →
  handle_user_edge_addition iter gr cs w
  = (Raise EOFError,
     World (graphs w) (vectors w) (rng w) []
       (stdout w ++ transcript g n (stdin w) ++ [PrintPrompt (n - 1)])).
Proof. apply handle_user_edge_addition_eof_run. Qed.

(** X17. On a complete graph no line is acceptable: whatever is typed, the
    call never returns, it asks until the input ends. *)
Theorem handle_user_edge_addition_complete gr cs (w : W) g n :
  graphs w !! gr = Some g →
  vertex_set g n →
  2 ≤ n →
  (∀ i j, 0 ≤ i < n → 0 ≤ j < n → i ≠ j → j ∈ neighbors g i) →
  Forall (rejected (R:=R) g n) (stdin w)
  ∧ (handle_user_edge_addition iter gr cs w).1 = Raise EOFError
  ∧ graphs (handle_user_edge_addition iter gr cs w).2 = graphs w
  ∧ vectors (handle_user_edge_addition iter gr cs w).2 = vectors w.
Proof.
  intros Hg Hv Hn Hfull.
  assert (Forall (rejected (R:=R) g n) (stdin w)) as Hrej.
  { apply Forall_forall. intros [i j|] _; unfold rejected; cbn [reply]; [|by eexists].
    unfold verdict_of.
    destruct (decide (0 ≤ i < n ∧ 0 ≤ j < n)) as [[Hi Hj]|]; [|by eexists].
    destruct (decide (i = j)); [by eexists|].
    rewrite decide_True by (by apply Hfull). by eexists. }
  split; [done|].
  by rewrite (handle_user_edge_addition_eof_run gr cs w g n).
Qed.

End HandlerRuns.

(** ** The script *)

Lemma first_accepted {A} (ok : A → bool) (l : list A) :
  Forall (λ a, ok a = false) l
  ∨ ∃ l1 a l2, l = l1 ++ a :: l2 ∧ Forall (λ a, ok a = false) l1 ∧ ok a = true.
Proof.
  induction l as [|a l IH]; [by left|].
  destruct (ok a) eqn:Ha.
  - right. by exists [], a, l.
  - destruct IH as [IH|(l1 & b & l2 & -> & Hl1 & Hb)].
    + left. by constructor.
    + right. exists (a :: l1), b, l2. split_and!; [done| |done]. by constructor.
Qed.

Lemma first_accepted_unique {A} (ok : A → bool) (l1 l1' : list A) a a' l2 l2' :
  l1 ++ a :: l2 = l1' ++ a' :: l2' →
  Forall (λ a, ok a = false) l1 → Forall (λ a, ok a = false) l1' →
  ok a = true → ok a' = true →
  l1 = l1' ∧ a = a' ∧ l2 = l2'.
Proof.
  revert l1'. induction l1 as [|b l1 IH]; intros [|b' l1'] Heq Hl1 Hl1' Ha Ha';
    simplify_eq/=.
  - done.
  - apply Forall_cons in Hl1' as [? _]. congruence.
  - apply Forall_cons in Hl1 as [? _]. congruence.
  - apply Forall_cons in Hl1 as [_ Hl1]. apply Forall_cons in Hl1' as [_ Hl1'].
    destruct (IH l1') as (-> & -> & ->); done.
Qed.

(** A simple graph on n vertices has at most n(n-1)/2 edges. *)
Lemma edge_count_le (g : graph) n :
  0 ≤ n → simple_graph g n → Z.of_nat (edge_count g) ≤ (n * (n - 1)) `div` 2.
Proof.
  intros Hn (Hv & Hsym & Hlf).
  rewrite <- (length_possible_edges n Hn). apply inj_le.
  unfold edge_count.
  rewrite <- (size_list_to_set (C:=gset (Z * Z)) (possible_edges n))
    by apply NoDup_possible_edges.
  apply subseteq_size. intros [a b] Hab.
  apply elem_of_edge_set in Hab as [Hlt Hb]; [|by eapply vertex_set_NoDup].
  apply elem_of_list_to_set, elem_of_possible_edges.
  pose proof (Hsym _ _ Hb) as Ha.
  apply symmetric_closed in Hsym.
  apply Hsym, (vertex_set_elem_of _ _ _ Hv) in Hb.
  apply Hsym, (vertex_set_elem_of _ _ _ Hv) in Ha. lia.
Qed.

Section Prompts.

Context {R : Type} `{ScoreArith R} {Rng : Type}.
Local Abbreviation St := (session R Rng).

Lemma read_vertex_count_round t rest (s : St) :
  typed s = t :: rest →
  read_vertex_count (t :: rest) s
  = if vertex_count_ok t then
      (Ok (default 0 (parse_int t)),
       Session (s_graphs s) (s_vectors s) (s_rng s) rest (shown s ++ [AskVertices]))
    else
      read_vertex_count rest
        (Session (s_graphs s) (s_vectors s) (s_rng s) rest
           (shown s ++ [AskVertices; vertex_count_error t])).
Proof.
  intros Hin. cbn [read_vertex_count]. unfold bind at 1, say at 1.
  unfold bind at 1, readline. cbn [typed]. rewrite Hin.
  unfold vertex_count_ok, vertex_count_error.
  destruct (parse_int t) as [n|]; [destruct (0 <=? n)|];
    unfold bind, say, ret; simpl; try done; by rewrite <- app_assoc.
Qed.

Lemma read_vertex_count_skips ts : ∀ (s : St) tail,
  Forall (λ t, vertex_count_ok t = false) ts →
  typed s = ts ++ tail →
  read_vertex_count (ts ++ tail) s
  = read_vertex_count tail
      (Session (s_graphs s) (s_vectors s) (s_rng s) tail
         (shown s ++ asked AskVertices vertex_count_error ts)).
Proof.
  induction ts as [|t ts IH]; intros s tail Hts Hin.
  - simpl in *. unfold asked. simpl. rewrite app_nil_r. destruct s. simpl in *. by subst.
  - apply Forall_cons in Hts as [Ht Hts].
    rewrite <- app_comm_cons, (read_vertex_count_round t (ts ++ tail)) by done.
    rewrite Ht, IH by done. unfold asked. rewrite bind_cons. simpl.
    by rewrite <- app_assoc.
Qed.

Lemma read_vertex_count_eof (s : St) :
  typed s = [] →
  read_vertex_count [] s
  = (Raise EOFError,
     Session (s_graphs s) (s_vectors s) (s_rng s) [] (shown s ++ [AskVertices])).
Proof.
  intros Hin. cbn [read_vertex_count]. unfold bind at 1, say at 1.
  unfold bind at 1, readline. cbn [typed]. by rewrite Hin.
Qed.

Lemma read_edge_count_round max t rest (s : St) :
  typed s = t :: rest →
  read_edge_count max (t :: rest) s
  = if edge_count_ok max t then
      (Ok (default 0 (parse_int t)),
       Session (s_graphs s) (s_vectors s) (s_rng s) rest (shown s ++ [AskEdges max]))
    else
      read_edge_count max rest
        (Session (s_graphs s) (s_vectors s) (s_rng s) rest
           (shown s ++ [AskEdges max; edge_count_error max t])).
Proof.
  intros Hin. cbn [read_edge_count]. unfold bind at 1, say at 1.
  unfold bind at 1, readline. cbn [typed]. rewrite Hin.
  unfold edge_count_ok, edge_count_error.
  destruct (parse_int t) as [m|]; [destruct ((0 <=? m) && (m <=? max))|];
    unfold bind, say, ret; simpl; try done; by rewrite <- app_assoc.
Qed.

Lemma read_edge_count_skips max ts : ∀ (s : St) tail,
  Forall (λ t, edge_count_ok max t = false) ts →
  typed s = ts ++ tail →
  read_edge_count max (ts ++ tail) s
  = read_edge_count max tail
      (Session (s_graphs s) (s_vectors s) (s_rng s) tail
         (shown s ++ asked (AskEdges max) (edge_count_error max) ts)).
Proof.
  induction ts as [|t ts IH]; intros s tail Hts Hin.
  - simpl in *. unfold asked. simpl. rewrite app_nil_r. destruct s. simpl in *. by subst.
  - apply Forall_cons in Hts as [Ht Hts].
    rewrite <- app_comm_cons, (read_edge_count_round max t (ts ++ tail)) by done.
    rewrite Ht, IH by done. unfold asked. rewrite bind_cons. simpl.
    by rewrite <- app_assoc.
Qed.

Lemma read_edge_count_eof max (s : St) :
  typed s = [] →
  read_edge_count max [] s
  = (Raise EOFError,
     Session (s_graphs s) (s_vectors s) (s_rng s) [] (shown s ++ [AskEdges max])).
Proof.
  intros Hin. cbn [read_edge_count]. unfold bind at 1, say at 1.
  unfold bind at 1, readline. cbn [typed]. by rewrite Hin.
Qed.

Lemma read_vertex_count_run (s : St) skipped n rest :
  typed s = skipped ++ Number n :: rest →
  Forall (λ t, vertex_count_ok t = false) skipped →
  0 ≤ n →
  read_vertex_count (typed s) s
  = (Ok n,
     Session (s_graphs s) (s_vectors s) (s_rng s) rest
       (shown s ++ asked AskVertices vertex_count_error skipped ++ [AskVertices])).
Proof.
  intros Hin Hskip Hn. rewrite Hin.
  rewrite read_vertex_count_skips by done.
  rewrite read_vertex_count_round by done.
  unfold vertex_count_ok. cbn [parse_int].
  destruct (Z.leb_spec 0 n); [|lia]. simpl. by rewrite <- app_assoc.
Qed.

Lemma read_edge_count_run max (s : St) skipped m rest :
  typed s = skipped ++ Number m :: rest →
  Forall (λ t, edge_count_ok max t = false) skipped →
  0 ≤ m ≤ max →
  read_edge_count max (typed s) s
  = (Ok m,
     Session (s_graphs s) (s_vectors s) (s_rng s) rest
       (shown s ++ asked (AskEdges max) (edge_count_error max) skipped
        ++ [AskEdges max])).
Proof.
  intros Hin Hskip Hm. rewrite Hin.
  rewrite read_edge_count_skips by done.
  rewrite read_edge_count_round by done.
  unfold edge_count_ok. cbn [parse_int].
  destruct (Z.leb_spec 0 m); [|lia]. destruct (Z.leb_spec m max); [|lia].
  simpl. by rewrite <- app_assoc.
Qed.

Lemma read_vertex_count_refuses (s : St) :
  Forall (λ t, vertex_count_ok t = false) (typed s) →
  read_vertex_count (typed s) s
  = (Raise EOFError,
     Session (s_graphs s) (s_vectors s) (s_rng s) []
       (shown s ++ asked AskVertices vertex_count_error (typed s) ++ [AskVertices])).
Proof.
  intros Hall.
  pose proof (read_vertex_count_skips (typed s) s [] Hall (eq_sym (app_nil_r _))) as Hrun.
  rewrite app_nil_r in Hrun. rewrite Hrun, read_vertex_count_eof by done.
  cbn [s_graphs s_vectors s_rng shown]. by rewrite <- app_assoc.
Qed.

Lemma read_edge_count_refuses max (s : St) :
  Forall (λ t, edge_count_ok max t = false) (typed s) →
  read_edge_count max (typed s) s
  = (Raise EOFError,
     Session (s_graphs s) (s_vectors s) (s_rng s) []
       (shown s ++ asked (AskEdges max) (edge_count_error max) (typed s)
        ++ [AskEdges max])).
Proof.
  intros Hall.
  pose proof (read_edge_count_skips max (typed s) s [] Hall (eq_sym (app_nil_r _)))
    as Hrun.
  rewrite app_nil_r in Hrun. rewrite Hrun, read_edge_count_eof by done.
  cbn [s_graphs s_vectors s_rng shown]. by rewrite <- app_assoc.
Qed.

(** X18. The prompt for the number of vertices returns the first line that is
    a non-negative integer; every line before it is answered with an
    error and asked again, and the lines after it are left unread.  When
    no line is acceptable the prompt ends with [EOFError]. *)
Theorem read_vertex_count_accepts (s : St) :
  (∀ skipped n rest,
     typed s = skipped ++ Number n :: rest →
     Forall (λ t, vertex_count_ok t = false) skipped →
     0 ≤ n →
     read_vertex_count (typed s) s
     = (Ok n,
        Session (s_graphs s) (s_vectors s) (s_rng s) rest
          (shown s ++ asked AskVertices vertex_count_error skipped ++ [AskVertices])))
  ∧ (Forall (λ t, vertex_count_ok t = false) (typed s) →
     read_vertex_count (typed s) s
     = (Raise EOFError,
        Session (s_graphs s) (s_vectors s) (s_rng s) []
          (shown s ++ asked AskVertices vertex_count_error (typed s)
           ++ [AskVertices]))).
Proof.
  split.
  - intros skipped n rest. apply read_vertex_count_run.
  - apply read_vertex_count_refuses.
Qed.


(** *** The calls of the script *)

Lemma leave_enter (s : St) gs vs r out :
  leave s (World gs vs r (parse_pair <$> typed s) out)
  = Session gs vs r (typed s) (shown s ++ (Inner <$> out)).
Proof.
  unfold leave. cbn [graphs vectors rng stdin stdout].
  by rewrite length_fmap, Nat.sub_diag, drop_0.
Qed.

Lemma call_new_vector (s : St) v :
  call (new_vector v) s
  = (Ok (length (s_vectors s)),
     Session (s_graphs s) (s_vectors s ++ [v]) (s_rng s) (typed s) (shown s)).
Proof.
  unfold call, new_vector, enter, with_vectors. cbn [graphs vectors rng stdin stdout].
  rewrite leave_enter. simpl. by rewrite app_nil_r.
Qed.

Lemma call_display_graph_state (s : St) gr sr t g v n :
  s_graphs s !! gr = Some g →
  s_vectors s !! sr = Some v →
  vertex_set g n →
  (length g ≤ length v)%nat →
  call (display_graph_state gr sr t) s
  = (Ok (),
     Session (s_graphs s) (s_vectors s) (s_rng s) (typed s)
       (shown s ++ (Inner <$> PrintTitle t ::
          (if decide (g = []) then [PrintEmpty]
           else (display_row g v <$> range n) ++ [PrintRule])))).
Proof.
  intros Hg Hv Hvs Hlen. unfold call.
  rewrite (display_graph_state_run gr sr t (enter s) g v n) by done.
  unfold enter, with_stdout. cbn [graphs vectors rng stdin stdout].
  by rewrite leave_enter.
Qed.

End Prompts.

Section ScriptRuns.

Context {R : Type} `{ScoreArith R} {Rng : Type}.
Variable shuffle : Rng → list (Z * Z) → list (Z * Z) * Rng.
Hypothesis shuffle_perm : ∀ r l, (shuffle r l).1 ≡ₚ l.
Variable iter : Z → gset Z → list Z.
Hypothesis iter_perm : ∀ i s, iter i s ≡ₚ elements s.
Local Abbreviation St := (session R Rng).

Lemma call_generate_random_graph (s : St) n m :
  valid_arguments n m →
  call (generate_random_graph shuffle n m) s
  = (Ok (length (s_graphs s)),
     Session
       (s_graphs s ++
          [add_edges (take (Z.to_nat m) (shuffle (s_rng s) (possible_edges n)).1)
             (empty_graph n)])
       (s_vectors s) (shuffle (s_rng s) (possible_edges n)).2 (typed s) (shown s)).
Proof.
  intros Hvalid. unfold call.
  rewrite (generate_random_graph_run shuffle shuffle_perm n m (enter s) Hvalid).
  unfold enter at 1. cbn [rng].
  destruct (shuffle (s_rng s) (possible_edges n)) as [l r].
  unfold enter, with_rng, with_graphs. cbn [graphs vectors rng stdin stdout fst snd].
  rewrite leave_enter. simpl. by rewrite app_nil_r.
Qed.

Lemma compute_next_scores_ok gr cs (w : world R Rng) g n x :
  graphs w !! gr = Some g →
  vertex_set g n →
  closed g →
  prior_value w (length g) cs = Some x →
  length x = length g →
  ∃ y,
    compute_next_scores iter gr cs w = (Ok (S (length (vectors w))), alloc_xy w x y)
    ∧ length y = length g.
Proof.
  intros Hg Hv Hc Hx Hlen.
  destruct (compute_next_scores_value iter w gr cs g n x iter_perm)
    as (yr & w' & y & Hrun & Hy & Hleny & _); [done..|].
  pose proof (compute_next_scores_run iter gr cs w) as Hrun'.
  rewrite Hrun, Hg, Hx in Hrun'.
  destruct (next_scores iter g x) as [[y0|e] y1]; [|done].
  injection Hrun' as -> ->.
  exists y1. split; [done|].
  unfold alloc_xy in Hy. simpl in Hy. rewrite lookup_alloc_y in Hy. congruence.
Qed.

Lemma call_compute_next_scores (s : St) gr c g n x :
  s_graphs s !! gr = Some g →
  s_vectors s !! c = Some x →
  vertex_set g n →
  closed g →
  length x = length g →
  ∃ y,
    call (compute_next_scores iter gr (Some c)) s
    = (Ok (S (length (s_vectors s))),
       Session (s_graphs s) (s_vectors s ++ [x; y]) (s_rng s) (typed s) (shown s))
    ∧ length y = length g.
Proof.
  intros Hg Hx Hv Hc Hlen.
  destruct (compute_next_scores_ok gr (Some c) (enter s) g n x) as (y & Hrun & Hy);
    [done..|].
  exists y. split; [|done]. unfold call. rewrite Hrun.
  unfold alloc_xy, with_vectors, enter. cbn [graphs vectors rng stdin stdout].
  rewrite leave_enter. simpl. by rewrite app_nil_r.
Qed.

Lemma reply_None (g : graph) n l :
  reply (R:=R) g n l = None → ∃ i j, l = Pair i j ∧ verdict_of g n i j = Accepted.
Proof.
  destruct l as [i j|]; [|done]. cbn [reply]. intros Hr. exists i, j. split; [done|].
  by destruct (verdict_of g n i j).
Qed.

Lemma call_handle_user_edge_addition (s : St) gr c g n x :
  s_graphs s !! gr = Some g →
  s_vectors s !! c = Some x →
  simple_graph g n →
  length x = length g →
  let run := call (handle_user_edge_addition iter gr (Some c)) s in
  run.1 = Raise EOFError
  ∨ ∃ g',
      run.1 = Ok (gr, if (n <? 2)%Z then Some c else Some (S (length (s_vectors s))))
      ∧ s_graphs run.2 = <[gr := g']> (s_graphs s)
      ∧ simple_graph g' n
      ∧ edge_count g' = (edge_count g + if (n <? 2)%Z then 0 else 1)%nat.
Proof.
  intros Hg Hx (Hv & Hsym & Hlf) Hlen. cbv zeta.
  pose proof (vertex_set_length _ _ Hv) as Hn.
  unfold call.
  destruct (Z.ltb_spec n 2) as [Hsmall|Hbig].
  - right. exists g.
    assert (handle_user_edge_addition iter gr (Some c) (enter s)
            = (Ok (gr, Some c),
               with_stdout (stdout (enter s) ++ [PrintCannotAdd]) (enter s))) as ->.
    { unfold handle_user_edge_addition, bind at 1, read_graph.
      cbn [enter graphs]. rewrite Hg.
      by destruct (Z.ltb_spec (Z.of_nat (length g)) 2); [|lia]. }
    cbn [fst snd leave s_graphs graphs with_stdout enter].
    split_and!; [done| |done|lia].
    by rewrite list_insert_id.
  - destruct (first_accepted
                (λ l, if reply (R:=R) g n l is None then true else false)
                (parse_pair <$> typed s)) as [Hall|(ls & l & rest & Hin & Hls & Hl)].
    + left.
      rewrite (handle_user_edge_addition_eof_run iter gr (Some c) (enter s) g n);
        [done|done|done|lia|].
      cbn [enter stdin]. eapply Forall_impl; [exact Hall|].
      intros l' Hl'. unfold rejected. simpl in Hl'. revert Hl'.
        destruct (reply g n l'); [by eexists|done].
    + right.
      destruct (reply (R:=R) g n l) eqn:Hr; [done|].
      apply reply_None in Hr as (i & j & -> & Hacc).
      destruct (handle_user_edge_addition_run iter iter_perm gr (Some c) (enter s)
                  g n x ls i j rest) as (y & Hrun & _); [done|done| |done|done|done| |done|].
      { by apply symmetric_closed. }
      { eapply Forall_impl; [exact Hls|].
        intros l' Hl'. unfold rejected. simpl in Hl'. revert Hl'.
        destruct (reply g n l'); [by eexists|done]. }
      rewrite Hrun. cbn [fst snd leave s_graphs graphs enter vectors].
      exists (link i j g). split_and!; [done|done| |].
      * unfold verdict_of in Hacc.
        destruct (decide (0 ≤ i < n ∧ 0 ≤ j < n)) as [Hr|]; [|done].
        destruct (decide (i = j)) as [|Hne]; [done|].
        assert (i ∈ dict_keys g) by (apply (vertex_set_elem_of _ n); [done|lia]).
        assert (j ∈ dict_keys g) by (apply (vertex_set_elem_of _ n); [done|lia]).
        split_and!.
        -- by apply link_vertex_set.
        -- by apply link_symmetric.
        -- by apply link_loop_free.
      * unfold verdict_of in Hacc.
        destruct (decide (0 ≤ i < n ∧ 0 ≤ j < n)) as [Hr|]; [|done].
        destruct (decide (i = j)) as [|Hne]; [done|].
        destruct (decide (j ∈ neighbors g i)) as [|Hnew]; [done|].
        rewrite link_edge_count; [lia| |done| | |done|done].
        -- by eapply vertex_set_NoDup.
        -- apply (vertex_set_elem_of _ n); [done|lia].
        -- apply (vertex_set_elem_of _ n); [done|lia].
Qed.

Lemma generated_graph_simple n m l :
  0 ≤ n → 0 ≤ m ≤ (n * (n - 1)) `div` 2 → l ≡ₚ possible_edges n →
  simple_graph (add_edges (take (Z.to_nat m) l) (empty_graph n)) n
  ∧ edge_count (add_edges (take (Z.to_nat m) l) (empty_graph n)) = Z.to_nat m.
Proof.
  intros Hn Hm Hperm.
  set (es := take (Z.to_nat m) l).
  assert (es ⊆ possible_edges n) as Hsub.
  { intros e He%subseteq_take. by rewrite <- Hperm. }
  split; [split_and!|].
  - unfold vertex_set. by rewrite dict_keys_add_edges, dict_keys_empty_graph.
  - intros i j. rewrite !generated_graph_adjacent by done. tauto.
  - intros k Hk%generated_graph_adjacent; [|done].
    destruct Hk as [Hk|Hk]; apply Hsub, elem_of_possible_edges in Hk; lia.
  - unfold edge_count. rewrite generated_graph_edges by done.
    rewrite size_list_to_set.
    + unfold es. rewrite length_take_le; [done|].
      rewrite Hperm. pose proof (length_possible_edges n Hn). lia.
    + apply (sublist_NoDup _ l); [|apply sublist_take].
      rewrite Hperm. apply NoDup_possible_edges.
Qed.

(* the script from line 137 on, for the numbers the prompts have returned *)
Lemma simulation_outcome (s : St) n m r s' :
  valid_arguments n m →
  (let* G := call (generate_random_graph shuffle n m) in
   say (PrintGenerated n m) ;;;
   let* initial_scores := call (new_vector (replicate (Z.to_nat n) sone)) in
   call (display_graph_state G initial_scores InitialState) ;;;
   let* updated_scores := call (compute_next_scores iter G (Some initial_scores)) in
   call (display_graph_state G updated_scores UpdatedState) ;;;
   call (handle_user_edge_addition iter G (Some updated_scores)) ;;;
   say PrintFinished) s = (r, s') →
  r = Raise EOFError
  ∨ r = Ok ()
    ∧ ∃ g, s_graphs s' = s_graphs s ++ [g]
           ∧ simple_graph g n
           ∧ edge_count g = (Z.to_nat m + if (n <? 2)%Z then 0 else 1)%nat.
Proof.
  intros Hvalid Hrun.
  pose proof Hvalid as (Hn & Hm & Hmax).
  unfold bind at 1 in Hrun. rewrite call_generate_random_graph in Hrun by done.
  pose proof (shuffle_perm (s_rng s) (possible_edges n)) as Hperm.
  destruct (shuffle (s_rng s) (possible_edges n)) as [l rg]. cbn [fst snd] in *.
  destruct (generated_graph_simple n m l) as [Hsimple Hcount]; [done..|].
  set (g := add_edges (take (Z.to_nat m) l) (empty_graph n)) in *.
  pose proof Hsimple as (Hv & Hsym & Hlf).
  pose proof (vertex_set_length _ _ Hv) as Hlen.
  unfold bind at 1, say at 1 in Hrun. cbn [s_graphs s_vectors s_rng typed shown] in Hrun.
  unfold bind at 1 in Hrun. rewrite call_new_vector in Hrun.
  cbn [s_graphs s_vectors s_rng typed shown] in Hrun.
  set (x0 := replicate (Z.to_nat n) (sone : R)) in *.
  set (G := length (s_graphs s)) in *.
  assert ((s_graphs s ++ [g]) !! G = Some g) as HG.
  { unfold G. by rewrite lookup_app_r, Nat.sub_diag by lia. }
  assert ((s_vectors s ++ [x0]) !! length (s_vectors s) = Some x0) as Hx0.
  { by rewrite lookup_app_r, Nat.sub_diag by lia. }
  assert (length x0 = length g) as Hlen0.
  { unfold x0. rewrite length_replicate. lia. }
  unfold bind at 1 in Hrun.
  rewrite (call_display_graph_state _ G _ InitialState g x0 n) in Hrun
    by (done || cbn [s_vectors]; lia).
  cbn [s_graphs s_vectors s_rng typed shown] in Hrun.
  unfold bind at 1 in Hrun.
  match type of Hrun with
  | context [call (compute_next_scores iter G (Some ?c)) ?s1] =>
      destruct (call_compute_next_scores s1 G c g n x0) as (y & Hcall & Hy);
        [done|done|done|by apply symmetric_closed|done|]
  end.
  rewrite Hcall in Hrun. clear Hcall.
  cbn [s_graphs s_vectors s_rng typed shown] in Hrun.
  unfold bind at 1 in Hrun.
  rewrite (call_display_graph_state _ G _ UpdatedState g y n) in Hrun;
    [|done|cbn [s_vectors]; apply lookup_alloc_y|done|lia].
  cbn [s_graphs s_vectors s_rng typed shown] in Hrun.
  unfold bind at 1 in Hrun.
  match type of Hrun with
  | context [call (handle_user_edge_addition iter G (Some ?c)) ?s1] =>
      destruct (call_handle_user_edge_addition s1 G c g n y)
        as [Heof|(g' & Hok & Hgs & Hsimple' & Hcount')];
        [done|cbn [s_vectors]; apply lookup_alloc_y|done|done| |];
      destruct (call (handle_user_edge_addition iter G (Some c)) s1) as [r1 s1']
  end; cbn [fst snd] in *.
  - left. subst r1. by injection Hrun as <- _.
  - right. subst r1. unfold say in Hrun. injection Hrun as <- <-.
    split; [done|]. exists g'. cbn [s_graphs]. split_and!; [|done|lia].
    rewrite Hgs. cbn [s_graphs]. unfold G.
    by rewrite insert_app_r_alt, Nat.sub_diag by lia.
Qed.

Lemma vertex_count_ok_true t :
  vertex_count_ok t = true → ∃ n, t = Number n ∧ 0 ≤ n.
Proof.
  unfold vertex_count_ok. destruct t as [n| |]; try done. cbn [parse_int].
  intros Hn%Z.leb_le. by exists n.
Qed.

Lemma edge_count_ok_true max t :
  edge_count_ok max t = true → ∃ m, t = Number m ∧ 0 ≤ m ≤ max.
Proof.
  unfold edge_count_ok. destruct t as [m| |]; try done. cbn [parse_int].
  intros [?%Z.leb_le ?%Z.leb_le]%andb_true_iff. by exists m.
Qed.

Lemma main_outcome (s : St) r s' :
  main shuffle iter s = (r, s') →
  r = Raise EOFError
  ∨ r = Ok ()
    ∧ ∃ skipped n skipped' m rest g,
        typed s = skipped ++ Number n :: skipped' ++ Number m :: rest
        ∧ Forall (λ t, vertex_count_ok t = false) skipped
        ∧ Forall (λ t, edge_count_ok ((n * (n - 1)) `div` 2) t = false) skipped'
        ∧ 0 ≤ n ∧ 0 ≤ m ≤ (n * (n - 1)) `div` 2
        ∧ s_graphs s' = s_graphs s ++ [g]
        ∧ simple_graph g n
        ∧ edge_count g = (Z.to_nat m + if (n <? 2)%Z then 0 else 1)%nat.
Proof.
  intros Hrun. unfold main, bind at 1 in Hrun.
  destruct (first_accepted vertex_count_ok (typed s))
    as [Hall|(l1 & t & l2 & Hin & Hl1 & Ht)].
  { rewrite read_vertex_count_refuses in Hrun by done. left. by injection Hrun as <- _. }
  apply vertex_count_ok_true in Ht as (n & -> & Hn).
  rewrite (read_vertex_count_run s l1 n l2) in Hrun by done.
  unfold bind at 1 in Hrun. cbn [typed] in Hrun.
  set (max := (n * (n - 1)) `div` 2) in *.
  destruct (first_accepted (edge_count_ok max) l2)
    as [Hall|(l3 & t & l4 & -> & Hl3 & Ht)].
  { rewrite (read_edge_count_refuses max (Session _ _ _ l2 _)) in Hrun by done.
    left. by injection Hrun as <- _. }
  apply edge_count_ok_true in Ht as (m & -> & Hm).
  rewrite (read_edge_count_run max (Session _ _ _ (l3 ++ Number m :: l4) _) l3 m l4)
    in Hrun by done.
  cbn [s_graphs s_vectors s_rng typed shown] in Hrun.
  apply simulation_outcome in Hrun as [->|(-> & g & Hgs & Hsimple & Hcount)];
    [by left| |unfold valid_arguments; lia].
  right. split; [done|]. exists l1, n, l3, m, l4, g.
  cbn [s_graphs] in Hgs. split_and!; try done; unfold max in Hm; lia.
Qed.


(** X21. A run of the script that ends normally leaves one new graph: a simple
    graph on the n vertices asked for, with the m edges asked for and, as
    soon as there are two vertices, the one edge added at the last
    prompt; n and m are the first lines the two prompts accept. *)
Theorem main_graph (s : St) :
  (main shuffle iter s).1 = Ok () →
  ∃ skipped n skipped' m rest g,
    typed s = skipped ++ Number n :: skipped' ++ Number m :: rest
    ∧ Forall (λ t, vertex_count_ok t = false) skipped
    ∧ Forall (λ t, edge_count_ok ((n * (n - 1)) `div` 2) t = false) skipped'
    ∧ 0 ≤ n ∧ 0 ≤ m ≤ (n * (n - 1)) `div` 2
    ∧ s_graphs (main shuffle iter s).2 = s_graphs s ++ [g]
    ∧ simple_graph g n
    ∧ edge_count g = (Z.to_nat m + if (n <? 2)%Z then 0 else 1)%nat.
Proof.
  destruct (main shuffle iter s) as [r s'] eqn:Hrun. cbn [fst snd]. intros ->.
  by apply main_outcome in Hrun as [?|[_ ?]].
Qed.

(** X22. Asking for every possible edge leaves nothing to add: with two or
    more vertices and the maximal number of edges the last prompt accepts
    no line, and the script cannot end normally. *)
Theorem main_complete_graph (s : St) skipped n skipped' rest :
  typed s = skipped ++ Number n :: skipped' ++ Number ((n * (n - 1)) `div` 2) :: rest →
  Forall (λ t, vertex_count_ok t = false) skipped →
  Forall (λ t, edge_count_ok ((n * (n - 1)) `div` 2) t = false) skipped' →
  2 ≤ n →
  (main shuffle iter s).1 = Raise EOFError.
Proof.
  intros Hin Hskip Hskip' Hn.
  destruct (main shuffle iter s) as [r s'] eqn:Hrun. cbn [fst].
  apply main_outcome in Hrun as [->|(-> & l1 & n0 & l3 & m0 & l4 & g & Hin0 & Hl1 & Hl3
    & Hn0 & Hm0 & _ & Hsimple & Hcount)]; [done|].
  rewrite Hin in Hin0.
  apply (first_accepted_unique vertex_count_ok) in Hin0 as (<- & [= <-] & Hin0);
    [|done|done|unfold vertex_count_ok; cbn [parse_int]; by apply Z.leb_le; lia..].
  assert (0 ≤ (n * (n - 1)) `div` 2) as Hmax by (apply Z.div_pos; nia).
  apply (first_accepted_unique (edge_count_ok ((n * (n - 1)) `div` 2))) in Hin0
    as (<- & [= <-] & _);
    [|done|done|unfold edge_count_ok; cbn [parse_int]; apply andb_true_iff;
      split; apply Z.leb_le; lia..].
  pose proof (edge_count_le g n ltac:(lia) Hsimple) as Hle.
  destruct (Z.ltb_spec n 2); lia.
Qed.

End ScriptRuns.

(** * The properties on sample data *)

Lemma keep_order_perm r l : (keep_order r l).1 ≡ₚ l.
Proof. done. Qed.
Lemma reverse_order_perm r l : (reverse_order r l).1 ≡ₚ l.
Proof. apply reverse_Permutation. Qed.

(** C9 as stated fails in binary64.  On the graph with the edges {0,1},
    {0,2}, {0,3}, {1,2} and the default prior of four ones, the entries of
    the update add up to 3.9999999999999996, the prior scores to 4.0; the
    sums differ as well when the values are added without rounding, and
    the run is one in which an operation rounds. *)
Lemma rounding_breaks_conservation :
  let w := float_world [kite] [] [] in
  vertex_set kite 4 ∧ symmetric kite ∧ loop_free kite
  ∧ ∃ y,
      compute_next_scores ascending 0 None w = (Ok 1%nat, alloc_xy w (ones 4) y)
      ∧ vsum y = Binary64.of_bits 9007199254740991 (-51)
      ∧ vsum (connected_scores kite (ones 4)) = Binary64.of_Z 4
      ∧ vsum y ≠ vsum (connected_scores kite (ones 4))
      ∧ Binary64.eqb (vsum y) (vsum (connected_scores kite (ones 4))) = false
      ∧ exact_sum y ≠ exact_sum (connected_scores kite (ones 4))
      ∧ unrounded ascending kite (ones 4) = false.
Proof.
  split_and!.
  - apply kite_vertex_set.
  - apply kite_symmetric.
  - apply kite_loop_free.
  - eexists. split_and!; [by vm_compute..| |by vm_compute| |by vm_compute].
    + vm_compute. discriminate.
    + intros Heq. apply (f_equal this) in Heq. vm_compute in Heq. discriminate.
Qed.

Lemma generate_random_graph_spec_witness :
  ∃ g w',
    generate_random_graph reverse_order 4 3 (float_world [] [] []) = (Ok 0%nat, w')
    ∧ graphs w' = [g]
    ∧ vectors w' = []
    ∧ dict_keys g = range 4
    ∧ edge_count g = 3%nat
    ∧ loop_free g
    ∧ (∀ i j, j ∈ neighbors g i ↔ i ∈ neighbors g j).
Proof.
  apply (generate_random_graph_spec reverse_order reverse_order_perm 4 3
           (float_world [] [] [])); [lia|lia|by vm_compute].
Defined.

Lemma generate_random_graph_errors_witness :
  (generate_random_graph keep_order 4 7 (float_world [] [] [])).1 = Raise ValueError
  ∧ is_Ok (generate_random_graph keep_order 4 6 (float_world [] [] [])).1.
Proof.
  split.
  - apply (generate_random_graph_errors keep_order keep_order_perm 4 7
             (float_world [] [] [])). right. right. by vm_compute.
  - apply (generate_random_graph_errors keep_order keep_order_perm 4 6
             (float_world [] [] [])). intros [?|[?|Hlt]]; [lia|lia|by vm_compute in Hlt].
Defined.

Lemma compute_next_scores_sum_witness :
  let w := float_world [kite] [ones 4] [] in
  ∃ yr w' y,
    compute_next_scores ascending 0 (Some 0%nat) w = (Ok yr, w')
    ∧ vectors w' !! yr = Some y
    ∧ length y = 4%nat
    ∧ ∀ i, 0 ≤ i < 4 →
        y !! Z.to_nat i
        = Some (vsum (contributions kite (ones 4) (ascending i (neighbors kite i)))).
Proof.
  apply (compute_next_scores_sum ascending (float_world [kite] [ones 4] []) 0
           (Some 0%nat) kite 4 (ones 4));
    [apply ascending_perm|reflexivity|by unfold vertex_set
    |apply symmetric_closed, symmetric_items_sound; by apply (bool_decide_unpack _)
    |reflexivity|reflexivity].
Defined.


Lemma handle_user_edge_addition_adds_witness :
  let w := float_world [edge_and_point] [] [Unparsable; Pair 0 1; Pair 2 0] in
  (3 < 2 ∧ (0%nat, Some 1%nat) = (0%nat, None)
   ∧ graphs (handle_user_edge_addition ascending 0 None w).2 = graphs w)
  ∨ ∃ i j g',
      2 ≤ 3 ∧ Pair i j ∈ stdin w ∧ (0%nat, Some 1%nat).1 = 0%nat
      ∧ graphs (handle_user_edge_addition ascending 0 None w).2 !! 0%nat = Some g'
      ∧ (0 ≤ i < 3 ∧ 0 ≤ j < 3) ∧ i ≠ j ∧ (j ∉ neighbors edge_and_point i)
      ∧ neighbors g' i = neighbors edge_and_point i ∪ {[j]}
      ∧ neighbors g' j = neighbors edge_and_point j ∪ {[i]}
      ∧ (∀ k, k ≠ i → k ≠ j → neighbors g' k = neighbors edge_and_point k)
      ∧ dict_keys g' = dict_keys edge_and_point
      ∧ edge_count g' = S (edge_count edge_and_point)
      ∧ symmetric g' ∧ loop_free g'.
Proof.
  apply (handle_user_edge_addition_adds ascending 0 None edge_and_point 3
           (float_world [edge_and_point] [] [Unparsable; Pair 0 1; Pair 2 0])
           (0%nat, Some 1%nat));
    [reflexivity|by unfold vertex_set
    |apply symmetric_items_sound; by apply (bool_decide_unpack _)
    |apply loop_free_items_sound; by apply (bool_decide_unpack _)
    |by vm_compute].
Defined.

Lemma degree_guard_redundant_witness :
  let w := float_world [kite] [] [] in
  (∀ i j, j ∈ ascending i (neighbors kite i) → 0 < degree kite j)
  ∧ (∀ (x : list Binary64.float) i,
       contributions kite x (ascending i (neighbors kite i))
       = contributions_unguarded kite x (ascending i (neighbors kite i)))
  ∧ compute_next_scores ascending 0 None w
    = compute_next_scores_unguarded ascending 0 None w
  ∧ (compute_next_scores_unguarded ascending 0 None w).1 ≠ Raise ZeroDivisionError.
Proof.
  apply (degree_guard_redundant ascending ascending_perm
           (float_world [kite] [] []) 0 None kite);
    [reflexivity|apply symmetric_items_sound; by apply (bool_decide_unpack _)].
Defined.

Lemma compute_next_scores_isolated_witness :
  let w := float_world [empty_graph 3] [[sone; szero; sone]] [] in
  ∃ yr w',
    compute_next_scores ascending 0 (Some 0%nat) w = (Ok yr, w')
    ∧ vectors w' !! yr = Some (replicate 3 szero).
Proof.
  apply (compute_next_scores_isolated ascending
           (float_world [empty_graph 3] [[sone; szero; sone]] []) 0 (Some 0%nat)
           (empty_graph 3) [sone; szero; sone]);
    [apply ascending_perm|reflexivity|intros i; apply neighbors_empty_graph|reflexivity].
Defined.

Lemma all_ones_fixed_point_witness :
  (∃ yr w',
     compute_next_scores ascending 0 (Some 0%nat) (float_world [single_edge] [ones 2] [])
     = (Ok yr, w')
     ∧ vectors w' !! yr = Some (ones 2))
  ∧ (∃ yr w',
       compute_next_scores ascending 0 (Some 0%nat) (float_world [triangle] [ones 3] [])
       = (Ok yr, w')
       ∧ vectors w' !! yr = Some (ones 3)).
Proof.
  split.
  - apply (all_ones_fixed_point ascending ascending_perm
             (float_world [single_edge] [ones 2] []) 0 0); reflexivity.
  - apply (all_ones_fixed_point ascending ascending_perm
             (float_world [triangle] [ones 3] []) 0 0); reflexivity.
Defined.

Lemma score_conservation_unrounded_witness :
  let x := Binary64.of_Z <$> [3; 2; 2; 1] in
  let w := float_world [kite] [x] [] in
  ∃ yr w' y,
    compute_next_scores ascending 0 (Some 0%nat) w = (Ok yr, w')
    ∧ vectors w' !! yr = Some y
    ∧ exact_sum y = exact_sum (connected_scores kite x).
Proof.
  apply (score_conservation_unrounded ascending ascending_perm
           (float_world [kite] [Binary64.of_Z <$> [3; 2; 2; 1]] []) 0 (Some 0%nat)
           kite 4 (Binary64.of_Z <$> [3; 2; 2; 1]));
    [reflexivity|by unfold vertex_set
    |apply symmetric_items_sound; by apply (bool_decide_unpack _)
    |reflexivity|reflexivity|by vm_compute].
Defined.

(** ** Further properties on sample data *)

Lemma kite_closed : closed kite.
Proof. apply symmetric_closed, kite_symmetric. Qed.

Lemma generate_random_graph_takes_prefix_witness :
  let w := float_world [] [] [] in
  ∃ g,
    graphs (generate_random_graph reverse_order 4 3 w).2 !! length (graphs w) = Some g
    ∧ edge_set g
      = list_to_set (take (Z.to_nat 3) (reverse_order (rng w) (possible_edges 4)).1)
    ∧ rng (generate_random_graph reverse_order 4 3 w).2
      = (reverse_order (rng w) (possible_edges 4)).2.
Proof.
  apply (generate_random_graph_takes_prefix reverse_order reverse_order_perm 4 3
           (float_world [] [] [])); [lia|lia|by vm_compute].
Defined.

Lemma generate_random_graph_monotone_witness :
  let w := float_world [] [] [] in
  ∃ g g',
    graphs (generate_random_graph reverse_order 4 2 w).2 !! length (graphs w) = Some g
    ∧ graphs (generate_random_graph reverse_order 4 5 w).2 !! length (graphs w) = Some g'
    ∧ edge_set g ⊆ edge_set g'
    ∧ ∀ i, neighbors g i ⊆ neighbors g' i.
Proof.
  apply (generate_random_graph_monotone reverse_order reverse_order_perm 4 2 5
           (float_world [] [] [])); [lia|lia|lia|by vm_compute].
Defined.

Lemma generate_random_graph_extremes_witness :
  let w := float_world [] [] [] in
  (∃ g, graphs (generate_random_graph keep_order 4 0 w).2 !! length (graphs w) = Some g
        ∧ isolated g)
  ∧ (∃ g, graphs (generate_random_graph keep_order 4 ((4 * (4 - 1)) `div` 2) w).2
            !! length (graphs w) = Some g
          ∧ ∀ i j, 0 ≤ i < 4 → 0 ≤ j < 4 → i ≠ j → j ∈ neighbors g i).
Proof.
  apply (generate_random_graph_extremes keep_order keep_order_perm 4
           (float_world [] [] [])); lia.
Defined.

Lemma generate_random_graph_degree_sum_witness :
  let w := float_world [] [] [] in
  ∃ g,
    graphs (generate_random_graph reverse_order 4 3 w).2 !! length (graphs w) = Some g
    ∧ degree_sum g = (2 * Z.to_nat 3)%nat.
Proof.
  apply (generate_random_graph_degree_sum reverse_order reverse_order_perm 4 3
           (float_world [] [] [])); [lia|lia|by vm_compute].
Defined.

Lemma compute_next_scores_length_witness :
  let w := float_world [kite] [[sone]] [] in
  ∃ y, vectors (compute_next_scores ascending 0 None w).2 !! 2%nat = Some y
       ∧ length y = length kite.
Proof.
  apply (compute_next_scores_length ascending 0 None
           (float_world [kite] [[sone]] []) kite 2%nat
           (compute_next_scores ascending 0 None (float_world [kite] [[sone]] [])).2);
    [reflexivity|by vm_compute].
Defined.

Lemma compute_next_scores_short_prior_witness :
  let w := float_world [kite] [[sone; sone]] [] in
  ((compute_next_scores ascending 0 (Some 0%nat) w).1 = Raise IndexError
     ↔ ∃ i j, j ∈ neighbors kite i ∧ 0 < degree kite j ∧ Z.of_nat 2 ≤ j)
  ∧ (is_Ok (compute_next_scores ascending 0 (Some 0%nat) w).1
     ↔ ∀ i j, j ∈ neighbors kite i → 0 < degree kite j → j < Z.of_nat 2).
Proof.
  apply (compute_next_scores_short_prior ascending ascending_perm 0 (Some 0%nat)
           (float_world [kite] [[sone; sone]] []) kite 4 [sone; sone]);
    [reflexivity|apply kite_vertex_set|apply kite_closed|reflexivity].
Defined.

Lemma compute_next_scores_dangling_witness :
  let g : graph := [(0, {[1; 7]}); (1, {[0]})] in
  let w := float_world [g] [] [] in
  ((compute_next_scores ascending 0 None w).1 = Raise KeyError
     ↔ ∃ i j, j ∈ neighbors g i ∧ j ∉ dict_keys g)
  ∧ (is_Ok (compute_next_scores ascending 0 None w).1 ↔ closed g).
Proof.
  apply (compute_next_scores_dangling ascending ascending_perm 0 None
           (float_world [[(0, {[1; 7]}); (1, {[0]})]] [] [])
           [(0, {[1; 7]}); (1, {[0]})] 2 (ones 2));
    [reflexivity|by unfold vertex_set|reflexivity|simpl; lia].
Defined.

Lemma compute_next_scores_long_prior_witness :
  let w := float_world [kite] [ones 4 ++ [szero; szero]] [] in
  ∃ yr w' y,
    compute_next_scores ascending 0 (Some 0%nat) w = (Ok yr, w')
    ∧ vectors w' !! yr = Some y
    ∧ length y = length kite
    ∧ ∀ i, 0 ≤ i < 4 →
        y !! Z.to_nat i
        = Some (vsum (contributions kite (ones 4) (ascending i (neighbors kite i)))).
Proof.
  apply (compute_next_scores_long_prior ascending ascending_perm 0 0
           (float_world [kite] [ones 4 ++ [szero; szero]] []) kite 4 (ones 4)
           [szero; szero]);
    [reflexivity|apply kite_vertex_set|apply kite_closed|reflexivity|reflexivity].
Defined.

Lemma complete7_degree i : 0 ≤ i < 7 → degree complete7 i = 6.
Proof.
  intros Hi.
  assert (i = 0 ∨ i = 1 ∨ i = 2 ∨ i = 3 ∨ i = 4 ∨ i = 5 ∨ i = 6)
    as [->|[->|[->|[->|[->|[->| ->]]]]]] by lia; by vm_compute.
Qed.

(* in binary64 six shares of 1.0/6 add up to 0.9999999999999999 *)
Lemma six_shares :
  repeat_add 6 (sdiv sone 6) = Binary64.of_bits 9007199254740991 (-53)
  ∧ repeat_add 6 (sdiv sone 6) ≠ (sone : Binary64.float).
Proof. split; [by vm_compute|]. vm_compute. discriminate. Qed.

Lemma compute_next_scores_regular_witness :
  let w := float_world [complete7] [ones 7] [] in
  ∃ yr w',
    compute_next_scores ascending 0 (Some 0%nat) w = (Ok yr, w')
    ∧ vectors w' !! yr
      = Some (replicate (length complete7) (repeat_add (Z.to_nat 6) (sdiv sone 6)))
    ∧ (0 < 7 →
       vectors w' !! yr = Some (replicate (length complete7) sone)
       ↔ repeat_add (Z.to_nat 6) (sdiv sone 6) = (sone : Binary64.float)).
Proof.
  apply (compute_next_scores_regular ascending ascending_perm 0 0
           (float_world [complete7] [ones 7] []) complete7 7 6 sone);
    [reflexivity|by unfold vertex_set
    |apply symmetric_closed, symmetric_items_sound; by apply (bool_decide_unpack _)
    |lia|apply complete7_degree|reflexivity].
Defined.

Lemma generate_then_compute_witness :
  ∃ yr w' y,
    (let* graph := generate_random_graph reverse_order 4 3 in
     compute_next_scores ascending graph None) (float_world [] [] []) = (Ok yr, w')
    ∧ vectors w' !! yr = Some y
    ∧ length y = Z.to_nat 4.
Proof.
  apply (generate_then_compute reverse_order reverse_order_perm ascending ascending_perm
           4 3 (float_world [] [] [])); [lia|lia|by vm_compute].
Defined.

Lemma display_graph_state_prints_witness :
  let w := float_world [kite] [ones 4] [] in
  display_graph_state 0 0 InitialState w
  = (Ok (),
     with_stdout
       (stdout w ++ PrintTitle InitialState ::
          (if decide (kite = []) then [PrintEmpty]
           else (display_row kite (ones 4) <$> range 4) ++ [PrintRule])) w).
Proof.
  apply (display_graph_state_prints 0 0 InitialState (float_world [kite] [ones 4] [])
           kite (ones 4) 4);
    [reflexivity|reflexivity|apply kite_vertex_set|simpl; lia].
Defined.

Lemma display_graph_state_short_scores_witness :
  let w := float_world [kite] [[sone; szero]] [] in
  display_graph_state 0 0 UpdatedState w
  = (Raise IndexError,
     with_stdout
       (stdout w ++ PrintTitle UpdatedState ::
          (display_row kite [sone; szero] <$> range (Z.of_nat 2))) w).
Proof.
  apply (display_graph_state_short_scores 0 0 UpdatedState
           (float_world [kite] [[sone; szero]] []) kite [sone; szero] 4);
    [reflexivity|reflexivity|apply kite_vertex_set|simpl; lia].
Defined.

Lemma handle_user_edge_addition_transcript_witness :
  let w := float_world [edge_and_point] [] [Unparsable; Pair 0 1; Pair 2 0; Pair 1 2] in
  ∃ y,
    handle_user_edge_addition ascending 0 None w
    = (Ok (0%nat, Some (S (length (vectors w)))),
       World (<[0%nat := link 2 0 edge_and_point]> (graphs w)) (vectors w ++ [ones 3; y])
         (rng w) [Pair 1 2]
         (stdout w ++ transcript edge_and_point 3 [Unparsable; Pair 0 1]
          ++ [PrintPrompt (3 - 1); PrintAdded 2 0; PrintTitle (AfterAddingEdge 2 0)]
          ++ (display_row (link 2 0 edge_and_point) y <$> range 3) ++ [PrintRule]))
    ∧ length y = length edge_and_point
    ∧ ∀ k, 0 ≤ k < 3 →
        y !! Z.to_nat k
        = Some (vsum (contributions (link 2 0 edge_and_point) (ones 3)
                        (ascending k (neighbors (link 2 0 edge_and_point) k)))).
Proof.
  apply (handle_user_edge_addition_transcript ascending ascending_perm 0 None
           (float_world [edge_and_point] [] [Unparsable; Pair 0 1; Pair 2 0; Pair 1 2])
           edge_and_point 3 (ones 3) [Unparsable; Pair 0 1] 2 0 [Pair 1 2]);
    [reflexivity|by unfold vertex_set
    |apply symmetric_closed, symmetric_items_sound; by apply (bool_decide_unpack _)
    |reflexivity|reflexivity|reflexivity
    |repeat first [apply Forall_nil | apply Forall_cons; split]; by eexists
    |by vm_compute].
Defined.

Lemma handle_user_edge_addition_not_atomic_witness :
  let w := float_world [edge_and_point] [[sone]] [Unparsable; Pair 2 0; Pair 1 2] in
  (handle_user_edge_addition ascending 0 (Some 0%nat) w).1 = Raise IndexError
  ∧ graphs (handle_user_edge_addition ascending 0 (Some 0%nat) w).2
    = <[0%nat := link 2 0 edge_and_point]> (graphs w)
  ∧ stdout (handle_user_edge_addition ascending 0 (Some 0%nat) w).2
    = stdout w ++ transcript edge_and_point 3 [Unparsable]
      ++ [PrintPrompt (3 - 1); PrintAdded 2 0].
Proof.
  apply (handle_user_edge_addition_not_atomic ascending ascending_perm 0 0
           (float_world [edge_and_point] [[sone]] [Unparsable; Pair 2 0; Pair 1 2])
           edge_and_point 3 [sone] [Unparsable] 2 0 [Pair 1 2]);
    [reflexivity|by unfold vertex_set
    |apply symmetric_closed, symmetric_items_sound; by apply (bool_decide_unpack _)
    |reflexivity|reflexivity
    |repeat first [apply Forall_nil | apply Forall_cons; split]; by eexists
    |by vm_compute
    |left; simpl; lia].
Defined.

Lemma handle_user_edge_addition_eof_witness :
  let w := float_world [edge_and_point] [] [Pair 0 1; Unparsable; Pair 3 0] in
  handle_user_edge_addition ascending 0 None w
  = (Raise EOFError,
     World (graphs w) (vectors w) (rng w) []
       (stdout w ++ transcript edge_and_point 3 (stdin w) ++ [PrintPrompt (3 - 1)])).
Proof.
  apply (handle_user_edge_addition_eof ascending 0 None
           (float_world [edge_and_point] [] [Pair 0 1; Unparsable; Pair 3 0])
           edge_and_point 3);
    [reflexivity|by unfold vertex_set|lia|repeat first [apply Forall_nil | apply Forall_cons; split]; by eexists].
Defined.

Lemma triangle_complete i j : 0 ≤ i < 3 → 0 ≤ j < 3 → i ≠ j → j ∈ neighbors triangle i.
Proof.
  intros Hi Hj Hne.
  assert (i = 0 ∨ i = 1 ∨ i = 2) as [->|[->| ->]] by lia;
  assert (j = 0 ∨ j = 1 ∨ j = 2) as [->|[->| ->]] by lia;
    try done; apply (bool_decide_unpack _); by vm_compute.
Qed.

Lemma handle_user_edge_addition_complete_witness :
  let w := float_world [triangle] [] [Pair 0 1; Pair 2 1; Unparsable] in
  Forall (rejected (R:=Binary64.float) triangle 3) (stdin w)
  ∧ (handle_user_edge_addition ascending 0 None w).1 = Raise EOFError
  ∧ graphs (handle_user_edge_addition ascending 0 None w).2 = graphs w
  ∧ vectors (handle_user_edge_addition ascending 0 None w).2 = vectors w.
Proof.
  apply (handle_user_edge_addition_complete ascending 0 None
           (float_world [triangle] [] [Pair 0 1; Pair 2 1; Unparsable]) triangle 3);
    [reflexivity|by unfold vertex_set|lia|apply triangle_complete].
Defined.

Lemma read_vertex_count_accepts_witness :
  let s := float_session [Other; Number (-3); Numbers 1 2; Number 4; Number 9] in
  read_vertex_count (typed s) s
  = (Ok 4,
     Session (s_graphs s) (s_vectors s) (s_rng s) [Number 9]
       (shown s ++ asked AskVertices vertex_count_error [Other; Number (-3); Numbers 1 2]
        ++ [AskVertices])).
Proof.
  apply (read_vertex_count_accepts
           (float_session [Other; Number (-3); Numbers 1 2; Number 4; Number 9]));
    [reflexivity|repeat first [apply Forall_nil | apply Forall_cons; split]; reflexivity
    |lia].
Defined.



Lemma main_graph_witness :
  let s := float_session [Other; Number 4; Number 7; Number 3; Numbers 0 1; Numbers 3 2] in
  ∃ skipped n skipped' m rest g,
    typed s = skipped ++ Number n :: skipped' ++ Number m :: rest
    ∧ Forall (λ t, vertex_count_ok t = false) skipped
    ∧ Forall (λ t, edge_count_ok ((n * (n - 1)) `div` 2) t = false) skipped'
    ∧ 0 ≤ n ∧ 0 ≤ m ≤ (n * (n - 1)) `div` 2
    ∧ s_graphs (main keep_order ascending s).2 = s_graphs s ++ [g]
    ∧ simple_graph g n
    ∧ edge_count g = (Z.to_nat m + if (n <? 2)%Z then 0 else 1)%nat.
Proof.
  apply (main_graph keep_order keep_order_perm ascending ascending_perm
           (float_session
              [Other; Number 4; Number 7; Number 3; Numbers 0 1; Numbers 3 2])).
  by vm_compute.
Defined.

Lemma main_complete_graph_witness :
  (main reverse_order ascending
     (float_session [Number 3; Other; Number 3; Numbers 0 1; Numbers 2 2])).1
  = Raise EOFError.
Proof.
  apply (main_complete_graph reverse_order reverse_order_perm ascending ascending_perm
           (float_session [Number 3; Other; Number 3; Numbers 0 1; Numbers 2 2])
           [] 3 [Other] [Numbers 0 1; Numbers 2 2]);
    [reflexivity|by apply Forall_nil
    |repeat first [apply Forall_nil | apply Forall_cons; split]; reflexivity|lia].
Defined.
